(** * make_call.c: building a call whose arguments are promises

    A shallow embedding of [src/make_call.c] (the two functions
    [lazy_to_promise] and [make_call_]) over a small model of the part of
    R's object heap that the file touches, followed by the properties of
    the routine.

    The C code runs against R's C API.  The API entry points it calls are
    modelled in [Module R] as operations of a state-and-error monad over

    - a heap of objects (allocation appends a cell, nothing is reclaimed),
    - the global symbol table used by [Rf_install],
    - the pointer-protection stack driven by [PROTECT]/[UNPROTECT],
    - a trace of the API calls that read or build objects, and of the
      evaluations of promises (ghost state, used only to state which
      accesses a run performs). *)

From Stdlib Require Import ZArith Lia.
From stdpp Require Import base tactics option list strings gmap.

Local Open Scope Z_scope.
Local Open Scope string_scope.
Local Open Scope list_scope.

(** ** Objects *)

(** The type codes of [Rinternals.h]. *)
Inductive SEXPTYPE :=
  | NILSXP | SYMSXP | LISTSXP | CLOSXP | ENVSXP | PROMSXP | LANGSXP
  | SPECIALSXP | BUILTINSXP | CHARSXP | LGLSXP | INTSXP | REALSXP
  | CPLXSXP | STRSXP | DOTSXP | ANYSXP | VECSXP | EXPRSXP | BCODESXP
  | EXTPTRSXP | WEAKREFSXP | RAWSXP | S4SXP.

#[global] Instance SEXPTYPE_eq_dec : EqDecision SEXPTYPE.
Proof. solve_decision. Defined.

(** A [SEXP] is a pointer: either the distinguished [R_NilValue] or the
    address of a heap cell. *)
Inductive SEXP :=
  | R_NilValue
  | Loc (l : nat).

#[global] Instance SEXP_eq_dec : EqDecision SEXP.
Proof. solve_decision. Defined.

(** Attributes: the pairlist hanging off a vector, keyed by the print name
    of the tag symbol. *)
Definition attributes := list (string * SEXP).

Inductive cons_type := CT_LIST | CT_LANG.

Inductive atomic_type := AT_LGL | AT_INT | AT_REAL | AT_CPLX | AT_RAW.

#[global] Instance cons_type_eq_dec : EqDecision cons_type.
Proof. solve_decision. Defined.

#[global] Instance atomic_type_eq_dec : EqDecision atomic_type.
Proof. solve_decision. Defined.

(** Heap cells.  A promise carries its code, its environment and its value;
    [None] stands for [R_UnboundValue] (not forced yet). *)
Inductive cell :=
  | Symbol (pname : string)
  | ConsCell (ty : cons_type) (car cdr tag : SEXP)
  | Closure (formals body env : SEXP)
  | Environment
  | Promise (prcode prenv : SEXP) (prvalue : option SEXP)
  | CharSxp (chars : string)
  | StringVec (elts : list SEXP) (attrib : attributes)
  | GenericVec (elts : list SEXP) (attrib : attributes)
  | Atomic (ty : atomic_type) (data : list Z) (attrib : attributes).

Definition cons_sexptype (ty : cons_type) : SEXPTYPE :=
  match ty with CT_LIST => LISTSXP | CT_LANG => LANGSXP end.

Definition atomic_sexptype (ty : atomic_type) : SEXPTYPE :=
  match ty with
  | AT_LGL => LGLSXP | AT_INT => INTSXP | AT_REAL => REALSXP
  | AT_CPLX => CPLXSXP | AT_RAW => RAWSXP
  end.

Definition cell_type (c : cell) : SEXPTYPE :=
  match c with
  | Symbol _ => SYMSXP
  | ConsCell ty _ _ _ => cons_sexptype ty
  | Closure _ _ _ => CLOSXP
  | Environment => ENVSXP
  | Promise _ _ _ => PROMSXP
  | CharSxp _ => CHARSXP
  | StringVec _ _ => STRSXP
  | GenericVec _ _ => VECSXP
  | Atomic ty _ _ => atomic_sexptype ty
  end.

Definition cell_attrib (c : cell) : attributes :=
  match c with
  | StringVec _ a | GenericVec _ a | Atomic _ _ a => a
  | _ => []
  end.

Fixpoint attr_lookup (name : string) (a : attributes) : option SEXP :=
  match a with
  | [] => None
  | (k, v) :: a' => if decide (k = name) then Some v else attr_lookup name a'
  end.

(** ** Machine state *)

(** The API calls recorded in the trace, and the evaluations of promises
    by the interpreter ([Promise_forced p code rho]: the code of promise [p]
    is evaluated in [rho]). *)
Inductive api_call :=
  | Call_inherits (x : SEXP) (name : string)
  | Call_GET_NAMES (x : SEXP)
  | Call_VECTOR_ELT (x : SEXP) (i : Z)
  | Call_STRING_ELT (x : SEXP) (i : Z)
  | Call_mkPROMISE (expr rho : SEXP)
  | Call_CONS (car cdr : SEXP)
  | Call_LCONS (car cdr : SEXP)
  | Call_install (name : string)
  | Call_SET_TAG (x v : SEXP)
  | Promise_forced (p code rho : SEXP).

#[global] Instance api_call_eq_dec : EqDecision api_call.
Proof. solve_decision. Defined.

Record state := State {
  heap : list cell;
  R_SymbolTable : gmap string nat;
  R_PPStack : list SEXP;
  R_PPStackSize : Z;
  trace : list api_call
}.

Definition set_heap (h : list cell) (s : state) : state :=
  let '(State _ st pp sz tr) := s in State h st pp sz tr.

Definition set_symtab (t : gmap string nat) (s : state) : state :=
  let '(State h _ pp sz tr) := s in State h t pp sz tr.

Definition set_ppstack (p : list SEXP) (s : state) : state :=
  let '(State h st _ sz tr) := s in State h st p sz tr.

Definition record (c : api_call) (s : state) : state :=
  let '(State h st pp sz tr) := s in State h st pp sz (tr ++ [c]).

(** ** The monad: state passing, with R errors as a second outcome *)

Inductive outcome (A : Type) :=
  | Return (a : A) (s : state)
  | Error (msg : string) (s : state).
Arguments Return {A} a s.
Arguments Error {A} msg s.

Definition M (A : Type) := state -> outcome A.

Definition ret {A} (a : A) : M A := fun s => Return a s.

Definition bind {A B} (m : M A) (k : A -> M B) : M B :=
  fun s => match m s with
           | Return a s' => k a s'
           | Error msg s' => Error msg s'
           end.

Notation "x <- m ;; k" := (bind m (fun x => k))
  (at level 20, m at level 99, k at level 200, only parsing).
Notation "m ;; k" := (bind m (fun _ => k))
  (at level 100, k at level 200, only parsing, right associativity).

Definition final_state {A} (o : outcome A) : state :=
  match o with Return _ s => s | Error _ s => s end.

Definition result_of {A} (o : outcome A) : option A :=
  match o with Return a _ => Some a | Error _ _ => None end.

Definition error_of {A} (o : outcome A) : option string :=
  match o with Return _ _ => None | Error msg _ => Some msg end.

(** ** The API of the host interpreter *)

(** The macros and functions of [Rinternals.h] that [make_call.c] calls.
    They belong to R, not to this file; each is given the behaviour of R's
    implementation on the objects of the model.  A call that R does not
    allow (an accessor on an object of the wrong type, an index out of
    range, a full protection stack) ends the run with an error. *)
Module R.

(** [error()] never returns to its caller. *)
Definition error {A} (msg : string) : M A := fun s => Error msg s.

(** [if (b) m;] *)
Definition when (b : bool) (m : M unit) : M unit :=
  if b then m else ret tt.

Definition INT_MAX : Z := 2147483647.
Definition MAXIDSIZE : Z := 10000.

Definition msg_dangling := "invalid SEXP: no such object".
Definition msg_long_vector := "long vectors not supported yet".
Definition msg_cyclic := "length of a circular pairlist".
Definition msg_pairlist_names := "getAttrib: names of a pairlist".
Definition msg_VECTOR_ELT := "VECTOR_ELT() can only be applied to a 'list'".
Definition msg_VECTOR_ELT_range := "attempt to access an index outside the list in VECTOR_ELT".
Definition msg_STRING_ELT := "STRING_ELT() can only be applied to a 'character vector'".
Definition msg_STRING_ELT_range := "attempt to access an index outside the vector in STRING_ELT".
Definition msg_CHAR := "CHAR() can only be applied to a 'CHARSXP'".
Definition msg_zero_length_name := "attempt to use zero-length variable name".
Definition msg_long_name := "variable names are limited to 10000 bytes".
Definition msg_SET_TAG := "SET_TAG() can only be applied to a pairlist cell".
Definition msg_protect := "protect(): protection stack overflow".
Definition msg_unprotect := "unprotect(): too few protected items".

Definition deref (h : list cell) (x : SEXP) : option cell :=
  match x with
  | R_NilValue => None
  | Loc l => h !! l
  end.

(** Allocation: the new cell goes to the first free address. *)
Definition alloc (c : cell) : M SEXP :=
  fun s => Return (Loc (List.length (heap s))) (set_heap (heap s ++ [c]) s).

Definition typeof (h : list cell) (x : SEXP) : option SEXPTYPE :=
  match x with
  | R_NilValue => Some NILSXP
  | Loc l => cell_type <$> h !! l
  end.

Definition TYPEOF (x : SEXP) : M SEXPTYPE :=
  fun s => match typeof (heap s) x with
           | Some t => Return t s
           | None => Error msg_dangling s
           end.

(** The string held by a [CHARSXP]. *)
Definition char_of (h : list cell) (x : SEXP) : option string :=
  match deref h x with
  | Some (CharSxp c) => Some c
  | _ => None
  end.

(** The class vector of an object: the strings of its [class] attribute. *)
Definition class_of (h : list cell) (x : SEXP) : list string :=
  match deref h x with
  | Some c =>
      match attr_lookup "class" (cell_attrib c) with
      | Some k =>
          match deref h k with
          | Some (StringVec elts _) => omap (char_of h) elts
          | _ => []
          end
      | None => []
      end
  | None => []
  end.

(** [inherits(x, name)]: is [name] one of the strings of the class
    attribute of [x]? *)
Definition inherits (x : SEXP) (name : string) : M bool :=
  fun s => Return (bool_decide (name ∈ class_of (heap s) x))
                  (record (Call_inherits x name) s).

(** [length(x)], an [int]: 0 for [R_NilValue], the number of elements of a
    vector, the number of cells of a pairlist, 1 for anything else. *)
Fixpoint pairlist_length (fuel : nat) (h : list cell) (x : SEXP) : option Z :=
  match fuel with
  | O => None
  | S fuel' =>
      match deref h x with
      | Some (ConsCell _ _ cdr _) => Z.succ <$> pairlist_length fuel' h cdr
      | _ => Some 0
      end
  end.

Definition length (x : SEXP) : M Z :=
  fun s =>
    match x with
    | R_NilValue => Return 0 s
    | Loc l =>
        match heap s !! l with
        | None => Error msg_dangling s
        | Some c =>
            let vector_length (n : nat) :=
              if decide (Z.of_nat n <= INT_MAX) then Return (Z.of_nat n) s
              else Error msg_long_vector s in
            match c with
            | StringVec elts _ | GenericVec elts _ =>
                vector_length (List.length elts)
            | Atomic _ data _ => vector_length (List.length data)
            | CharSxp c => vector_length (String.length c)
            | ConsCell _ _ _ _ =>
                match pairlist_length (S (List.length (heap s))) (heap s) x with
                | Some n => Return n s
                | None => Error msg_cyclic s
                end
            | _ => Return 1 s
            end
        end
    end.

(** [GET_NAMES(x)] is [getAttrib(x, R_NamesSymbol)]: the value of the
    [names] attribute, or [R_NilValue] when there is none.  (For a
    pairlist R synthesises a names vector from the tags; that case is left
    out, as an error of its own: [make_call_] asks for the names of a
    generic vector only.) *)
Definition GET_NAMES (x : SEXP) : M SEXP :=
  fun s =>
    let s' := record (Call_GET_NAMES x) s in
    match x with
    | R_NilValue => Return R_NilValue s'
    | Loc l =>
        match heap s !! l with
        | None => Error msg_dangling s'
        | Some (ConsCell _ _ _ _) => Error msg_pairlist_names s'
        | Some c => Return (default R_NilValue (attr_lookup "names" (cell_attrib c))) s'
        end
    end.

(** Element access.  The checked accessors of the API signal an error on
    an object of the wrong type or an index out of range (with the
    unchecked macros of [USE_RINTERNALS] those accesses are undefined;
    either way the routine does not complete). *)
Definition VECTOR_ELT (x : SEXP) (i : Z) : M SEXP :=
  fun s =>
    let s' := record (Call_VECTOR_ELT x i) s in
    match deref (heap s) x with
    | Some (GenericVec elts _) =>
        if decide (0 <= i) then
          match elts !! Z.to_nat i with
          | Some v => Return v s'
          | None => Error msg_VECTOR_ELT_range s'
          end
        else Error msg_VECTOR_ELT_range s'
    | _ => Error msg_VECTOR_ELT s'
    end.

Definition STRING_ELT (x : SEXP) (i : Z) : M SEXP :=
  fun s =>
    let s' := record (Call_STRING_ELT x i) s in
    match deref (heap s) x with
    | Some (StringVec elts _) =>
        if decide (0 <= i) then
          match elts !! Z.to_nat i with
          | Some v => Return v s'
          | None => Error msg_STRING_ELT_range s'
          end
        else Error msg_STRING_ELT_range s'
    | _ => Error msg_STRING_ELT s'
    end.

Definition CHAR (x : SEXP) : M string :=
  fun s => match char_of (heap s) x with
           | Some c => Return c s
           | None => Error msg_CHAR s
           end.

(** [Rf_install(name)]: the unique symbol with that print name, created
    and entered into the symbol table on first use.  The empty name and
    names of more than [MAXIDSIZE] bytes are rejected.  (R looks the name up
    before it tests it; its table never holds such a name, so the tests can
    come first.) *)
Definition Rf_install (name : string) : M SEXP :=
  fun s =>
    let s' := record (Call_install name) s in
    if decide (name = "") then Error msg_zero_length_name s'
    else if decide (MAXIDSIZE < Z.of_nat (String.length name)) then Error msg_long_name s'
    else match R_SymbolTable s !! name with
         | Some l => Return (Loc l) s'
         | None =>
             let l := List.length (heap s) in
             Return (Loc l)
               (set_symtab (<[name := l]> (R_SymbolTable s))
                  (set_heap (heap s ++ [Symbol name]) s'))
         end.

(** [Rf_mkPROMISE(expr, rho)]: a new promise for [expr] in [rho], without a
    value.  (R also marks [expr] as shared; such header marks, like the
    marks of the collector, are not part of the objects of the model.) *)
Definition Rf_mkPROMISE (expr rho : SEXP) : M SEXP :=
  fun s => alloc (Promise expr rho None) (record (Call_mkPROMISE expr rho) s).

Definition CONS (car cdr : SEXP) : M SEXP :=
  fun s => alloc (ConsCell CT_LIST car cdr R_NilValue) (record (Call_CONS car cdr) s).

Definition LCONS (car cdr : SEXP) : M SEXP :=
  fun s => alloc (ConsCell CT_LANG car cdr R_NilValue) (record (Call_LCONS car cdr) s).

Definition SET_TAG (x v : SEXP) : M unit :=
  fun s =>
    let s' := record (Call_SET_TAG x v) s in
    match x with
    | Loc l =>
        match heap s !! l with
        | Some (ConsCell ty car cdr _) =>
            Return tt (set_heap (<[l := ConsCell ty car cdr v]> (heap s)) s')
        | _ => Error msg_SET_TAG s'
        end
    | R_NilValue => Error msg_SET_TAG s'
    end.

(** The protection stack has room for [R_PPStackSize] pointers. *)
Definition PROTECT (x : SEXP) : M SEXP :=
  fun s =>
    if decide (Z.of_nat (List.length (R_PPStack s)) < R_PPStackSize s)
    then Return x (set_ppstack (x :: R_PPStack s) s)
    else Error msg_protect s.

Definition UNPROTECT (k : Z) : M unit :=
  fun s =>
    if decide (0 <= k <= Z.of_nat (List.length (R_PPStack s)))
    then Return tt (set_ppstack (drop (Z.to_nat k) (R_PPStack s)) s)
    else Error msg_unprotect s.

End R.

(** ** The source file *)

(** [lazy_to_promise]: the argument is a list of length 2, an expression
    followed by an environment.  The two element reads are arguments of one
    call, so C does not fix the order in which they are made; they are taken
    left to right here.  The choice shows in the order of these two reads in
    the trace and in nothing else, and none of the properties stated of the
    routine depends on it. *)
Definition lazy_to_promise (x : SEXP) : M SEXP :=
  expr <- R.VECTOR_ELT x 0 ;;
  rho <- R.VECTOR_ELT x 1 ;;
  R.Rf_mkPROMISE expr rho.

(** Line 10 with its two arguments evaluated in the other order. *)
Definition lazy_to_promise_rtl (x : SEXP) : M SEXP :=
  rho <- R.VECTOR_ELT x 1 ;;
  expr <- R.VECTOR_ELT x 0 ;;
  R.Rf_mkPROMISE expr rho.

(** One iteration of the [for] loop of [make_call_], at index [i]: the
    statements of lines 33 to 37, returning the new value of [args]. *)
Definition make_call_iteration (dots names : SEXP) (i : Z) (args : SEXP) : M SEXP :=
  dot <- R.VECTOR_ELT dots i ;;
  prom <- (p <- lazy_to_promise dot ;; R.PROTECT p) ;;
  args <- (a <- R.CONS prom args ;; R.PROTECT a) ;;
  R.UNPROTECT 1 ;;
  name <- R.STRING_ELT names i ;;
  c <- R.CHAR name ;;
  sym <- R.Rf_install c ;;
  R.SET_TAG args sym ;;
  ret args.

(** The loop [for (int i = n - 1; i >= 0; --i)], by recursion on
    [k = i + 1], the number of iterations still to run; [i] stays within
    [0 .. n - 1], inside the range of [int]. *)
Fixpoint make_call_loop (dots names : SEXP) (k : nat) (args : SEXP) : M SEXP :=
  match k with
  | O => ret args
  | S k' =>
      args <- make_call_iteration dots names (Z.of_nat k') args ;;
      make_call_loop dots names k' args
  end.

Definition make_call_ (fun_ dots : SEXP) : M SEXP :=
  tf <- R.TYPEOF fun_ ;;
  R.when (bool_decide (tf ≠ SYMSXP) && bool_decide (tf ≠ LANGSXP))
    (R.error "fun must be a call or a symbol") ;;
  td <- R.TYPEOF dots ;;
  R.when (bool_decide (td ≠ VECSXP))
    (R.error "dots must be a list") ;;
  cls <- R.inherits dots "lazy_dots" ;;
  R.when (negb cls)
    (R.error "dots must be of class lazy_dots") ;;
  n <- R.length dots ;;
  if decide (n = 0) then
    R.LCONS fun_ R_NilValue
  else
    names <- R.GET_NAMES dots ;;
    args <- make_call_loop dots names (Z.to_nat n) R_NilValue ;;
    R.UNPROTECT n ;;
    R.LCONS fun_ args.

(** * Vocabulary of the statements *)

(** What [Rf_install] does to the state when it succeeds on [name]. *)
Definition interned (name : string) (s : state) : SEXP * state :=
  let s' := record (Call_install name) s in
  match R_SymbolTable s !! name with
  | Some l => (Loc l, s')
  | None =>
      let l := List.length (heap s) in
      (Loc l, set_symtab (<[name := l]> (R_SymbolTable s))
                (set_heap (heap s ++ [Symbol name]) s'))
  end.

Definition valid_name (name : string) : Prop :=
  name ≠ "" /\ Z.of_nat (String.length name) <= R.MAXIDSIZE.

#[global] Instance valid_name_dec name : Decision (valid_name name).
Proof. unfold valid_name. apply _. Defined.

(** ** Reading a tagged argument list *)

(** Element [i] of the generic vector [dots]. *)
Definition element (h : list cell) (dots : SEXP) (i : nat) : option SEXP :=
  match R.deref h dots with
  | Some (GenericVec elts _) => elts !! i
  | _ => None
  end.

(** The expression and the environment of a lazy object: the first two
    elements of a generic vector. *)
Definition lazy_parts (h : list cell) (dot : SEXP) : option (SEXP * SEXP) :=
  match R.deref h dot with
  | Some (GenericVec (e :: rho :: _) _) => Some (e, rho)
  | _ => None
  end.

(** String [i] of the character vector [names]. *)
Definition name_at (h : list cell) (names : SEXP) (i : nat) : option string :=
  match R.deref h names with
  | Some (StringVec nms _) => nms !! i ≫= R.char_of h
  | _ => None
  end.

(** The names attribute of an object, as [GET_NAMES] returns it. *)
Definition names_of (h : list cell) (x : SEXP) : SEXP :=
  match R.deref h x with
  | Some c => default R_NilValue (attr_lookup "names" (cell_attrib c))
  | None => R_NilValue
  end.

(** Everything the loop consumes at one index. *)
Record argument := Argument {
  arg_dot : SEXP;
  arg_expr : SEXP;
  arg_env : SEXP;
  arg_name : string
}.

Definition argument_at (h : list cell) (dots names : SEXP) (i : nat) : option argument :=
  dot ← element h dots i;
  '(e, rho) ← lazy_parts h dot;
  c ← name_at h names i;
  if decide (valid_name c) then Some (Argument dot e rho c) else None.

(** A segment of a pairlist: the cells from [x] up to (not including)
    [stop], as (value, tag) pairs.  With [stop = R_NilValue] it is the whole
    list. *)
Inductive pairlist_seg (h : list cell) (stop : SEXP) : SEXP -> list (SEXP * SEXP) -> Prop :=
  | seg_nil : pairlist_seg h stop stop []
  | seg_cons l car cdr tag slots :
      h !! l = Some (ConsCell CT_LIST car cdr tag) ->
      pairlist_seg h stop cdr slots ->
      pairlist_seg h stop (Loc l) ((car, tag) :: slots).

(** The symbol table points at symbols of the right name. *)
Definition symtab_ok (s : state) : Prop :=
  map_Forall (fun name l => heap s !! l = Some (Symbol name)) (R_SymbolTable s).

#[global] Instance cell_eq_dec : EqDecision cell.
Proof. solve_decision. Defined.

#[global] Instance symtab_ok_dec s : Decision (symtab_ok s).
Proof. unfold symtab_ok. apply _. Defined.

(** The reads of the elements of [dots] in a trace: the indices of the
    [VECTOR_ELT] calls on [dots], in order. *)
Definition dots_reads (dots : SEXP) (tr : list api_call) : list Z :=
  omap (fun c => match c with
                 | Call_VECTOR_ELT x i => if decide (x = dots) then Some i else None
                 | _ => None
                 end) tr.

(** The indices of a whole pass over [n] elements, from the last down to
    the first: [n - 1, ..., 1, 0]. *)
Definition pass_indices (n : nat) : list Z := Z.of_nat <$> reverse (seq 0 n).

(** [dots] is one of its own elements.  (No list built by R code is: the
    reads of the components of such an element would be reads of [dots]
    too.) *)
Definition own_element (h : list cell) (dots : SEXP) : Prop :=
  match R.deref h dots with
  | Some (GenericVec elts _) => dots ∈ elts
  | _ => False
  end.

#[global] Instance own_element_dec h dots : Decision (own_element h dots).
Proof. unfold own_element. repeat case_match; apply _. Defined.

(** The cells a run of [make_call_] allocates: promises, pairlist cells and
    symbols.  Vectors and strings are never created by it. *)
Definition fresh_kind (c : cell) : bool :=
  match c with
  | Promise _ _ _ | ConsCell _ _ _ _ | Symbol _ => true
  | _ => false
  end.

(** What one iteration needs to find at index [i]: the element [dot] of
    [dots], its two components, and the name [c] of the element. *)
Definition iteration_inputs (h : list cell) (dots names : SEXP) (i : Z)
    (dot e rho : SEXP) (c : string) : Prop :=
  0 <= i /\
  (exists elts a, R.deref h dots = Some (GenericVec elts a) /\
                  elts !! Z.to_nat i = Some dot) /\
  (exists rest a, R.deref h dot = Some (GenericVec (e :: rho :: rest) a)) /\
  (exists nms a nm, R.deref h names = Some (StringVec nms a) /\
                    nms !! Z.to_nat i = Some nm /\ R.char_of h nm = Some c) /\
  valid_name c.

(** The result and the state after an iteration that found these inputs. *)
Definition iteration_result (dots names : SEXP) (i : Z) (args dot e rho : SEXP)
    (c : string) (s : state) : SEXP * state :=
  let a := List.length (heap s) in
  let s1 := set_heap (heap s ++ [Promise e rho None])
              (record (Call_mkPROMISE e rho)
                 (record (Call_VECTOR_ELT dot 1)
                    (record (Call_VECTOR_ELT dot 0)
                       (record (Call_VECTOR_ELT dots i) s)))) in
  let s2 := set_ppstack (Loc a :: R_PPStack s) s1 in
  let s3 := set_heap (heap s2 ++ [ConsCell CT_LIST (Loc a) args R_NilValue])
              (record (Call_CONS (Loc a) args) s2) in
  let s4 := record (Call_STRING_ELT names i) s3 in
  let '(sym, s5) := interned c s4 in
  (Loc (S a),
   set_heap (<[S a := ConsCell CT_LIST (Loc a) args sym]> (heap s5))
     (record (Call_SET_TAG (Loc (S a)) sym) s5)).

(** Slot of the argument list built for argument [it] by a run from [s] to
    [s']: a promise allocated by the run, for the expression and the
    environment of [it], not forced; tagged with the symbol-table entry of
    the name of [it]. *)
Definition slot_built (s s' : state) (it : argument) (slot : SEXP * SEXP) : Prop :=
  exists lp lt,
    slot = (Loc lp, Loc lt) /\
    (List.length (heap s) <= lp)%nat /\
    heap s' !! lp = Some (Promise (arg_expr it) (arg_env it) None) /\
    R_SymbolTable s' !! arg_name it = Some lt.

(** What a completed run of [k] iterations from [s] to [s'] has consumed
    (the arguments [its], indices [0 .. k-1]) and produced. *)
Record loop_post (dots names args : SEXP) (k : nat) (s : state)
    (r : SEXP) (s' : state) (its : list argument) : Prop := {
  lp_length : List.length its = k;
  lp_inputs : forall i it, its !! i = Some it ->
              argument_at (heap s) dots names i = Some it;
  lp_room : k <> 0%nat ->
            Z.of_nat (List.length (R_PPStack s)) + Z.of_nat k < R_PPStackSize s;
  lp_heap : exists new, heap s' = heap s ++ new /\
                        Forall (fun c => fresh_kind c = true) new;
  lp_symtab : R_SymbolTable s ⊆ R_SymbolTable s';
  lp_symtab_ok : symtab_ok s -> symtab_ok s';
  lp_stack : exists ps, R_PPStack s' = ps ++ R_PPStack s /\ List.length ps = k;
  lp_size : R_PPStackSize s' = R_PPStackSize s;
  lp_slots : exists slots, pairlist_seg (heap s') args r slots /\
                           Forall2 (slot_built s s') its slots /\
                           NoDup slots.*1;
  lp_trace : exists tr, trace s' = trace s ++ tr /\
                        ((forall it, it ∈ its -> arg_dot it <> dots) ->
                         dots_reads dots tr = pass_indices k)
}.

(** ** Frames *)

(** From [s] to [s'] the heap has only grown, by cells of the kinds the
    routine allocates; every object of [s] is still there, unchanged.  The
    symbol table has only gained entries and the trace has only been
    extended. *)
Record grows (s s' : state) : Prop := {
  g_heap : exists new, heap s' = heap s ++ new /\
                       Forall (fun c => fresh_kind c = true) new;
  g_symtab : R_SymbolTable s ⊆ R_SymbolTable s';
  g_size : R_PPStackSize s' = R_PPStackSize s;
  g_trace : exists tr, trace s' = trace s ++ tr
}.

(** The errors signalled by the API, as opposed to those of the three
    checks of [make_call_]. *)
Definition host_messages : list string :=
  [R.msg_dangling; R.msg_long_vector; R.msg_cyclic; R.msg_pairlist_names;
   R.msg_VECTOR_ELT; R.msg_VECTOR_ELT_range; R.msg_STRING_ELT;
   R.msg_STRING_ELT_range; R.msg_CHAR; R.msg_zero_length_name;
   R.msg_long_name; R.msg_SET_TAG; R.msg_protect; R.msg_unprotect].

Definition host_error (msg : string) : Prop := msg ∈ host_messages.

(** The three checks of [make_call_]. *)
Definition validation_messages : list string :=
  ["fun must be a call or a symbol"; "dots must be a list";
   "dots must be of class lazy_dots"].

(** A computation whose completed runs only grow the state. *)
Definition returns_grow {A} (m : M A) : Prop :=
  forall s a s', m s = Return a s' -> grows s s'.

(** A computation whose failed runs only grow the state, with an error
    message among [E]. *)
Definition errors_grow {A} (E : string -> Prop) (m : M A) : Prop :=
  forall s msg s', m s = Error msg s' -> E msg /\ grows s s'.

(** ** Elementary state changes *)

(** The cells of an argument list under construction: a promise without a
    value and a pairlist cell without a tag, as [Rf_mkPROMISE] and [CONS]
    allocate them. *)
Definition argument_cell (c : cell) : Prop :=
  match c with
  | Promise _ _ None | ConsCell CT_LIST _ _ R_NilValue => True
  | _ => False
  end.

(** What a single API call does to the heap and to the symbol table:
    nothing, the allocation of a cell of kind [K], the interning of a name
    that was not in the table, or a new tag for a pairlist cell. *)
Inductive step (K : cell -> Prop) (s s' : state) : Prop :=
  | step_quiet :
      heap s' = heap s -> R_SymbolTable s' = R_SymbolTable s -> step K s s'
  | step_alloc c :
      K c -> heap s' = heap s ++ [c] -> R_SymbolTable s' = R_SymbolTable s ->
      step K s s'
  | step_intern name :
      R_SymbolTable s !! name = None ->
      heap s' = heap s ++ [Symbol name] ->
      R_SymbolTable s' = <[name := List.length (heap s)]> (R_SymbolTable s) ->
      step K s s'
  | step_retag l ty car cdr tag v :
      heap s !! l = Some (ConsCell ty car cdr tag) ->
      heap s' = <[l := ConsCell ty car cdr v]> (heap s) ->
      R_SymbolTable s' = R_SymbolTable s ->
      step K s s'.

Definition steps (K : cell -> Prop) : relation state := rtc (step K).

(** A computation every run of which, completed or failed, is a sequence
    of such changes. *)
Definition runs_by {A} (K : cell -> Prop) (m : M A) : Prop :=
  forall s, steps K s (final_state (m s)).

(** The same for the failed runs only. *)
Definition fails_by {A} (K : cell -> Prop) (m : M A) : Prop :=
  forall s msg s', m s = Error msg s' -> steps K s s'.

(** ** Valid inputs and what is built from them *)

(** The arguments of a tagged list: for each element of [dots], its two
    components and its (non-empty) name. *)
Definition arguments_of (h : list cell) (dots : SEXP) : option (list argument) :=
  match R.deref h dots with
  | Some (GenericVec elts _) =>
      mapM (argument_at h dots (names_of h dots)) (seq 0 (List.length elts))
  | _ => None
  end.

(** [fun_] is a symbol or a call; [dots] is a generic vector of class
    [lazy_dots], each element of which is a list of an expression and an
    environment and has a name that [Rf_install] accepts; the protection
    stack has room for one pointer per element plus one. *)
Definition valid_input (s : state) (fun_ dots : SEXP) : Prop :=
  (R.typeof (heap s) fun_ = Some SYMSXP \/ R.typeof (heap s) fun_ = Some LANGSXP) /\
  "lazy_dots" ∈ R.class_of (heap s) dots /\
  match R.deref (heap s) dots with
  | Some (GenericVec elts _) =>
      Z.of_nat (List.length elts) <= R.INT_MAX /\
      is_Some (arguments_of (heap s) dots) /\
      (elts = [] \/
       Z.of_nat (List.length (R_PPStack s)) + Z.of_nat (List.length elts)
         < R_PPStackSize s)
  | _ => False
  end.

#[global] Instance valid_input_dec s fun_ dots : Decision (valid_input s fun_ dots).
Proof. unfold valid_input. repeat case_match; apply _. Defined.

(** The call built by a completed run from [s] to [s'] with result [r]:
    a [LANGSXP] cell allocated by the run, whose head is [fun_] and whose
    argument list has the slots [slots]. *)
Record call_built (fun_ : SEXP) (s : state) (r : SEXP) (s' : state)
    (slots : list (SEXP * SEXP)) : Prop := {
  cb_call : exists lr args,
      r = Loc lr /\ (List.length (heap s) <= lr)%nat /\
      heap s' !! lr = Some (ConsCell CT_LANG fun_ args R_NilValue) /\
      pairlist_seg (heap s') R_NilValue args slots;
  cb_nodup : NoDup slots.*1;
  cb_grows : grows s s';
  cb_symtab_ok : symtab_ok s -> symtab_ok s';
  cb_stack : R_PPStack s' = R_PPStack s
}.

(** The three conditions checked on entry, on the types [tf] of [fun_] and
    [td] of [dots]. *)
Definition bad_fun (tf : SEXPTYPE) : Prop := tf ≠ SYMSXP /\ tf ≠ LANGSXP.
Definition bad_dots (td : SEXPTYPE) : Prop := td ≠ VECSXP.
Definition bad_class (h : list cell) (dots : SEXP) : Prop :=
  "lazy_dots" ∉ R.class_of h dots.

(** The part of [make_call_] after the three checks (lines 24 to 41). *)
Definition make_call_construct (fun_ dots : SEXP) : M SEXP :=
  n <- R.length dots ;;
  if decide (n = 0) then
    R.LCONS fun_ R_NilValue
  else
    names <- R.GET_NAMES dots ;;
    args <- make_call_loop dots names (Z.to_nat n) R_NilValue ;;
    R.UNPROTECT n ;;
    R.LCONS fun_ args.

(** A generic vector of class [lazy_dots] each element of which is a list
    of length 2, an expression followed by an environment. *)
Definition lazy_dots_of_pairs (h : list cell) (dots : SEXP) : Prop :=
  exists elts a,
    R.deref h dots = Some (GenericVec elts a) /\
    "lazy_dots" ∈ R.class_of h dots /\
    Forall (fun dot => exists e rho a',
              R.deref h dot = Some (GenericVec [e; rho] a') /\
              R.typeof h rho = Some ENVSXP) elts.

(** ** Objects as values *)

(** What an object is, apart from where it lives: the tree obtained by
    following its pointers.  Environments are reference objects and are
    compared by identity. *)
#[local] Unset Elimination Schemes.
Inductive value :=
  | V_nil
  | V_symbol (pname : string)
  | V_cons (ty : cons_type) (car cdr tag : value)
  | V_closure (formals body env : value)
  | V_env (l : nat)
  | V_promise (code env : value) (val : option value)
  | V_char (chars : string)
  | V_strings (elts : list value) (attrib : list (string * value))
  | V_list (elts : list value) (attrib : list (string * value))
  | V_atomic (ty : atomic_type) (data : list Z) (attrib : list (string * value)).
#[local] Set Elimination Schemes.

Section value_ind.
Variable P : value -> Prop.
Hypothesis Hnil : P V_nil.
Hypothesis Hsymbol : forall pname, P (V_symbol pname).
Hypothesis Hcons : forall ty car cdr tag,
  P car -> P cdr -> P tag -> P (V_cons ty car cdr tag).
Hypothesis Hclosure : forall formals body env,
  P formals -> P body -> P env -> P (V_closure formals body env).
Hypothesis Henv : forall l, P (V_env l).
Hypothesis Hpromise : forall code env val,
  P code -> P env -> from_option P True val -> P (V_promise code env val).
Hypothesis Hchar : forall chars, P (V_char chars).
Hypothesis Hstrings : forall elts attrib,
  Forall P elts -> Forall (fun kv => P kv.2) attrib -> P (V_strings elts attrib).
Hypothesis Hlist : forall elts attrib,
  Forall P elts -> Forall (fun kv => P kv.2) attrib -> P (V_list elts attrib).
Hypothesis Hatomic : forall ty data attrib,
  Forall (fun kv => P kv.2) attrib -> P (V_atomic ty data attrib).

Fixpoint value_rect' (v : value) : P v :=
  let all := fix all (vs : list value) : Forall P vs :=
    match vs with
    | [] => Forall_nil_2 P
    | v :: vs' => Forall_cons_2 P v vs' (value_rect' v) (all vs')
    end in
  let all_attr := fix all_attr (va : list (string * value))
      : Forall (fun kv => P kv.2) va :=
    match va with
    | [] => Forall_nil_2 _
    | (k, v) :: va' =>
        Forall_cons_2 (fun kv => P kv.2) (k, v) va' (value_rect' v) (all_attr va')
    end in
  match v with
  | V_nil => Hnil
  | V_symbol pname => Hsymbol pname
  | V_cons ty car cdr tag =>
      Hcons ty car cdr tag (value_rect' car) (value_rect' cdr) (value_rect' tag)
  | V_closure formals body env =>
      Hclosure formals body env
        (value_rect' formals) (value_rect' body) (value_rect' env)
  | V_env l => Henv l
  | V_promise code env val =>
      Hpromise code env val (value_rect' code) (value_rect' env)
        (match val return from_option P True val with
         | Some v' => value_rect' v'
         | None => I
         end)
  | V_char chars => Hchar chars
  | V_strings elts attrib => Hstrings elts attrib (all elts) (all_attr attrib)
  | V_list elts attrib => Hlist elts attrib (all elts) (all_attr attrib)
  | V_atomic ty data attrib => Hatomic ty data attrib (all_attr attrib)
  end.
End value_ind.

(** [repr h v x]: in heap [h], the pointer [x] leads to the value [v]. *)
Fixpoint repr (h : list cell) (v : value) (x : SEXP) {struct v} : Prop :=
  let reprs := fix reprs (vs : list value) (xs : list SEXP) : Prop :=
    match vs, xs with
    | [], [] => True
    | v :: vs', x :: xs' => repr h v x /\ reprs vs' xs'
    | _, _ => False
    end in
  let repr_attrs := fix repr_attrs (va : list (string * value))
      (xa : attributes) : Prop :=
    match va, xa with
    | [], [] => True
    | (k, v) :: va', (k', x) :: xa' => k = k' /\ repr h v x /\ repr_attrs va' xa'
    | _, _ => False
    end in
  match v with
  | V_nil => x = R_NilValue
  | V_symbol pname => R.deref h x = Some (Symbol pname)
  | V_cons ty vcar vcdr vtag =>
      exists car cdr tag,
        R.deref h x = Some (ConsCell ty car cdr tag) /\
        repr h vcar car /\ repr h vcdr cdr /\ repr h vtag tag
  | V_closure vformals vbody venv =>
      exists formals body env,
        R.deref h x = Some (Closure formals body env) /\
        repr h vformals formals /\ repr h vbody body /\ repr h venv env
  | V_env l => x = Loc l /\ h !! l = Some Environment
  | V_promise vcode venv vval =>
      exists code env val,
        R.deref h x = Some (Promise code env val) /\
        repr h vcode code /\ repr h venv env /\
        match vval, val with
        | None, None => True
        | Some v', Some x' => repr h v' x'
        | _, _ => False
        end
  | V_char chars => R.deref h x = Some (CharSxp chars)
  | V_strings velts vattrib =>
      exists elts attrib,
        R.deref h x = Some (StringVec elts attrib) /\
        reprs velts elts /\ repr_attrs vattrib attrib
  | V_list velts vattrib =>
      exists elts attrib,
        R.deref h x = Some (GenericVec elts attrib) /\
        reprs velts elts /\ repr_attrs vattrib attrib
  | V_atomic ty data vattrib =>
      exists attrib,
        R.deref h x = Some (Atomic ty data attrib) /\
        repr_attrs vattrib attrib
  end.

(** The same, for the elements of a vector and for an attribute list. *)
Definition repr_list (h : list cell) (vs : list value) (xs : list SEXP) : Prop :=
  Forall2 (repr h) vs xs.

Definition repr_attrib (h : list cell) (va : list (string * value))
    (xa : attributes) : Prop :=
  Forall2 (fun kv kx => kv.1 = kx.1 /\ repr h kv.2 kx.2) va xa.

(** ** The call as a function of its inputs *)

Fixpoint attr_lookup_value (name : string) (va : list (string * value)) : option value :=
  match va with
  | [] => None
  | (k, v) :: va' => if decide (k = name) then Some v else attr_lookup_value name va'
  end.

(** The slot built for one element and its name. *)
Definition slot_value (velt vname : value) : option (value * value) :=
  match velt, vname with
  | V_list (ve :: vrho :: _) _, V_char c => Some (V_promise ve vrho None, V_symbol c)
  | _, _ => None
  end.

(** The argument list built for the elements and their names, in order. *)
Fixpoint args_value (velts vnames : list value) : option value :=
  match velts with
  | [] => Some V_nil
  | velt :: velts' =>
      match vnames with
      | vname :: vnames' =>
          '(p, t) ← slot_value velt vname;
          rest ← args_value velts' vnames';
          Some (V_cons CT_LIST p rest t)
      | [] => None
      end
  end.

(** The call: the head applied to one promise per element of the tagged
    list, each tagged by the name of the element. *)
Definition call_value (vfun vdots : value) : option value :=
  match vdots with
  | V_list [] _ => Some (V_cons CT_LANG vfun V_nil V_nil)
  | V_list velts va =>
      match attr_lookup_value "names" va with
      | Some (V_strings vnames _) =>
          args ← args_value velts vnames;
          Some (V_cons CT_LANG vfun args V_nil)
      | _ => None
      end
  | _ => None
  end.

(** ** The interpreter's side: using the arguments of the call *)

(** Modelled from the spec: the host interpreter's treatment of a promise
    ([Rf_mkPROMISE] is only declared in [make_call.c]; the evaluator that
    later forces what it creates belongs to the host).  The spec describes a
    deferred-evaluation binding as "a pairing of an expression with the
    environment it should be evaluated in, evaluated at most once, on first
    access, with its result cached thereafter".  Accordingly, forcing a
    promise that has a value returns the value; forcing one that has none
    evaluates its code in its environment, stores the result in the promise
    and returns it.  What evaluating an expression yields is a parameter:
    [eval_code code rho s] is the value of [code] in [rho] when the session
    is in state [s]. *)
Section host_evaluation.
Variable eval_code : SEXP -> SEXP -> state -> SEXP.

Definition msg_not_promise := "forcePromise: not a promise".
Definition msg_not_pairlist := "CAR/CDR: not a pairlist".

Definition forcePromise (p : SEXP) : M SEXP :=
  fun s =>
    match p with
    | Loc l =>
        match heap s !! l with
        | Some (Promise code rho (Some v)) => Return v s
        | Some (Promise code rho None) =>
            let v := eval_code code rho s in
            Return v (set_heap (<[l := Promise code rho (Some v)]> (heap s))
                        (record (Promise_forced p code rho) s))
        | _ => Error msg_not_promise s
        end
    | R_NilValue => Error msg_not_promise s
    end.

Definition CAR (x : SEXP) : M SEXP :=
  fun s =>
    match x with
    | R_NilValue => Return R_NilValue s
    | Loc l =>
        match heap s !! l with
        | Some (ConsCell _ car _ _) => Return car s
        | _ => Error msg_not_pairlist s
        end
    end.

Definition CDR (x : SEXP) : M SEXP :=
  fun s =>
    match x with
    | R_NilValue => Return R_NilValue s
    | Loc l =>
        match heap s !! l with
        | Some (ConsCell _ _ cdr _) => Return cdr s
        | _ => Error msg_not_pairlist s
        end
    end.

Fixpoint nthcdr (x : SEXP) (i : nat) : M SEXP :=
  match i with
  | O => ret x
  | S i' => d <- CDR x ;; nthcdr d i'
  end.

(** The value of argument [i] of [call], as the callee obtains it. *)
Definition argument_value (call : SEXP) (i : nat) : M SEXP :=
  args <- CDR call ;;
  slot <- nthcdr args i ;;
  p <- CAR slot ;;
  forcePromise p.

(** A sequence of accesses to the arguments of [call]. *)
Fixpoint argument_values (call : SEXP) (accesses : list nat) : M (list SEXP) :=
  match accesses with
  | [] => ret []
  | i :: accesses' =>
      v <- argument_value call i ;;
      vs <- argument_values call accesses' ;;
      ret (v :: vs)
  end.

(** Every stored value is the value of the expression of its argument in
    the environment of that argument, at some moment of the session. *)
Definition cache_sound (its : list argument) (cache : gmap nat SEXP) : Prop :=
  forall i v, cache !! i = Some v ->
    exists it t0, its !! i = Some it /\
                  v = eval_code (arg_expr it) (arg_env it) t0.
End host_evaluation.

(** The indices of [accesses] in order of first use, given those [seen]
    before. *)
Fixpoint first_uses (seen accesses : list nat) : list nat :=
  match accesses with
  | [] => []
  | i :: accesses' =>
      if decide (i ∈ seen) then first_uses seen accesses'
      else i :: first_uses (i :: seen) accesses'
  end.

(** The evaluation of argument [i]: the code of its promise, in the
    environment recorded with it. *)
Definition forced_event (its : list argument) (slots : list (SEXP * SEXP))
    (i : nat) : option api_call :=
  it ← its !! i;
  slot ← slots !! i;
  Some (Promise_forced slot.1 (arg_expr it) (arg_env it)).

(** The state of the session while the arguments of [call] are being used:
    the call and its argument list are as built; the promise of argument
    [i] holds the value [cache !! i], if it has been forced, and none
    otherwise; [seen] lists the arguments forced so far. *)
Record forcing_inv (its : list argument) (slots : list (SEXP * SEXP))
    (seen : list nat) (cache : gmap nat SEXP) (fun_ call : SEXP) (t : state) : Prop := {
  fi_call : exists args,
      R.deref (heap t) call = Some (ConsCell CT_LANG fun_ args R_NilValue) /\
      pairlist_seg (heap t) R_NilValue args slots;
  fi_proms : forall i it slot,
      its !! i = Some it -> slots !! i = Some slot ->
      exists lp, slot.1 = Loc lp /\
        heap t !! lp = Some (Promise (arg_expr it) (arg_env it) (cache !! i));
  fi_seen : forall i, i ∈ seen <-> is_Some (cache !! i);
  fi_nodup : NoDup slots.*1;
  fi_length : List.length slots = List.length its
}.

(** ** A concrete session *)

(** A small heap: the symbols [f] and [x], an environment, the call
    [f(x)], two lazy objects, and several candidate values for [dots]. *)
Definition ex_heap : list cell :=
  [ (*  0 *) Symbol "f";
    (*  1 *) Environment;
    (*  2 *) Symbol "x";
    (*  3 *) ConsCell CT_LANG (Loc 0) (Loc 4) R_NilValue;
    (*  4 *) ConsCell CT_LIST (Loc 2) R_NilValue R_NilValue;
    (*  5 *) GenericVec [Loc 2; Loc 1] [];
    (*  6 *) GenericVec [Loc 3; Loc 1] [];
    (*  7 *) CharSxp "a";
    (*  8 *) CharSxp "b";
    (*  9 *) StringVec [Loc 7; Loc 8] [];
    (* 10 *) CharSxp "lazy_dots";
    (* 11 *) StringVec [Loc 10] [];
    (* 12 *) GenericVec [Loc 5; Loc 6] [("names", Loc 9); ("class", Loc 11)];
    (* 13 *) GenericVec [Loc 5] [("class", Loc 11)];
    (* 14 *) CharSxp "";
    (* 15 *) StringVec [Loc 14] [];
    (* 16 *) GenericVec [Loc 5] [("names", Loc 15); ("class", Loc 11)];
    (* 17 *) Atomic AT_INT [1] [];
    (* 18 *) GenericVec [Loc 17; Loc 6] [("names", Loc 9); ("class", Loc 11)];
    (* 19 *) GenericVec [Loc 5; Loc 17] [("names", Loc 9); ("class", Loc 11)];
    (* 20 *) GenericVec [] [("class", Loc 11)];
    (* 21 *) Closure R_NilValue (Loc 2) (Loc 1);
    (* 22 *) GenericVec [Loc 5; Loc 6] [("names", Loc 9)] ].

Definition ex_state : state :=
  State ex_heap (<["f" := 0%nat]> (<["x" := 2%nat]> ∅)) [] 50000 [].

Definition ex_f : SEXP := Loc 0.
Definition ex_call : SEXP := Loc 3.
Definition ex_closure : SEXP := Loc 21.
(** [structure(list(a = lazy(x), b = lazy(f(x))), class = "lazy_dots")] *)
Definition ex_dots : SEXP := Loc 12.
(** one lazy object, no names attribute *)
Definition ex_dots_unnamed : SEXP := Loc 13.
(** one lazy object, named by the empty string *)
Definition ex_dots_blank : SEXP := Loc 16.
(** first element an integer vector instead of a lazy object *)
Definition ex_dots_bad_first : SEXP := Loc 18.
(** last element an integer vector instead of a lazy object *)
Definition ex_dots_bad_last : SEXP := Loc 19.
(** no elements *)
Definition ex_dots_empty : SEXP := Loc 20.
(** a named list that does not carry the class *)
Definition ex_dots_unclassed : SEXP := Loc 22.

(** A second session in which the same function and the same tagged list
    live at other addresses, and the symbol [a] is interned already.  Only
    the environment is the same object (address 1) in both. *)
Definition ex_heap2 : list cell :=
  [ (*  0 *) CharSxp "a";
    (*  1 *) Environment;
    (*  2 *) CharSxp "lazy_dots";
    (*  3 *) Symbol "x";
    (*  4 *) Symbol "f";
    (*  5 *) CharSxp "b";
    (*  6 *) StringVec [Loc 0; Loc 5] [];
    (*  7 *) StringVec [Loc 2] [];
    (*  8 *) ConsCell CT_LIST (Loc 3) R_NilValue R_NilValue;
    (*  9 *) ConsCell CT_LANG (Loc 4) (Loc 8) R_NilValue;
    (* 10 *) GenericVec [Loc 3; Loc 1] [];
    (* 11 *) GenericVec [Loc 9; Loc 1] [];
    (* 12 *) GenericVec [Loc 10; Loc 11] [("names", Loc 6); ("class", Loc 7)];
    (* 13 *) Symbol "a" ].

Definition ex_state2 : state :=
  State ex_heap2 (<["f" := 4%nat]> (<["x" := 3%nat]> (<["a" := 13%nat]> ∅)))
        [R_NilValue] 10000 [].

Definition ex_f2 : SEXP := Loc 4.
Definition ex_dots2 : SEXP := Loc 12.

(** The values of [f] and of the tagged list, in both sessions. *)
Definition ex_f_value : value := V_symbol "f".
Definition ex_dots_value : value :=
  V_list
    [ V_list [V_symbol "x"; V_env 1] [];
      V_list [V_cons CT_LANG (V_symbol "f")
                (V_cons CT_LIST (V_symbol "x") V_nil V_nil) V_nil;
              V_env 1] [] ]
    [ ("names", V_strings [V_char "a"; V_char "b"] []);
      ("class", V_strings [V_char "lazy_dots"] []) ].

(** A third session: a tagged list that holds the same lazy object twice,
    both times under the name [x], which is interned already. *)
Definition ex_heap3 : list cell :=
  [ (* 0 *) Symbol "f";
    (* 1 *) Environment;
    (* 2 *) Symbol "x";
    (* 3 *) GenericVec [Loc 2; Loc 1] [];
    (* 4 *) CharSxp "x";
    (* 5 *) StringVec [Loc 4; Loc 4] [];
    (* 6 *) CharSxp "lazy_dots";
    (* 7 *) StringVec [Loc 6] [];
    (* 8 *) GenericVec [Loc 3; Loc 3] [("names", Loc 5); ("class", Loc 7)] ].

Definition ex_state3 : state :=
  State ex_heap3 (<["f" := 0%nat]> (<["x" := 2%nat]> ∅)) [] 50000 [].

Definition ex_f3 : SEXP := Loc 0.
Definition ex_dots3 : SEXP := Loc 8.

(** * Reasoning about runs *)

(** ** State updates *)

Lemma heap_set_heap h s : heap (set_heap h s) = h.
Proof. by destruct s. Qed.
Lemma heap_set_symtab t s : heap (set_symtab t s) = heap s.
Proof. by destruct s. Qed.
Lemma heap_set_ppstack p s : heap (set_ppstack p s) = heap s.
Proof. by destruct s. Qed.
Lemma heap_record c s : heap (record c s) = heap s.
Proof. by destruct s. Qed.

Lemma symtab_set_heap h s : R_SymbolTable (set_heap h s) = R_SymbolTable s.
Proof. by destruct s. Qed.
Lemma symtab_set_symtab t s : R_SymbolTable (set_symtab t s) = t.
Proof. by destruct s. Qed.
Lemma symtab_set_ppstack p s : R_SymbolTable (set_ppstack p s) = R_SymbolTable s.
Proof. by destruct s. Qed.
Lemma symtab_record c s : R_SymbolTable (record c s) = R_SymbolTable s.
Proof. by destruct s. Qed.

Lemma ppstack_set_heap h s : R_PPStack (set_heap h s) = R_PPStack s.
Proof. by destruct s. Qed.
Lemma ppstack_set_symtab t s : R_PPStack (set_symtab t s) = R_PPStack s.
Proof. by destruct s. Qed.
Lemma ppstack_set_ppstack p s : R_PPStack (set_ppstack p s) = p.
Proof. by destruct s. Qed.
Lemma ppstack_record c s : R_PPStack (record c s) = R_PPStack s.
Proof. by destruct s. Qed.

Lemma ppsize_set_heap h s : R_PPStackSize (set_heap h s) = R_PPStackSize s.
Proof. by destruct s. Qed.
Lemma ppsize_set_symtab t s : R_PPStackSize (set_symtab t s) = R_PPStackSize s.
Proof. by destruct s. Qed.
Lemma ppsize_set_ppstack p s : R_PPStackSize (set_ppstack p s) = R_PPStackSize s.
Proof. by destruct s. Qed.
Lemma ppsize_record c s : R_PPStackSize (record c s) = R_PPStackSize s.
Proof. by destruct s. Qed.

Lemma trace_set_heap h s : trace (set_heap h s) = trace s.
Proof. by destruct s. Qed.
Lemma trace_set_symtab t s : trace (set_symtab t s) = trace s.
Proof. by destruct s. Qed.
Lemma trace_set_ppstack p s : trace (set_ppstack p s) = trace s.
Proof. by destruct s. Qed.
Lemma trace_record c s : trace (record c s) = trace s ++ [c].
Proof. by destruct s. Qed.

Create Rewrite HintDb state.
#[global] Hint Rewrite
  heap_set_heap heap_set_symtab heap_set_ppstack heap_record
  symtab_set_heap symtab_set_symtab symtab_set_ppstack symtab_record
  ppstack_set_heap ppstack_set_symtab ppstack_set_ppstack ppstack_record
  ppsize_set_heap ppsize_set_symtab ppsize_set_ppstack ppsize_record
  trace_set_heap trace_set_symtab trace_set_ppstack trace_record : state.

(** Read the fields of updated states, and bring updates of an explicit
    [State] record to a single record. *)
Ltac norm_state :=
  autorewrite with state in *;
  cbn [set_heap set_symtab set_ppstack record
       heap R_SymbolTable R_PPStack R_PPStackSize trace] in *.

(** ** The monad *)

Lemma bind_Return {A B} (m : M A) (k : A -> M B) s b s'' :
  bind m k s = Return b s'' <->
  exists a s', m s = Return a s' /\ k a s' = Return b s''.
Proof.
  unfold bind. destruct (m s) as [a s'|msg s'].
  - split; [eauto | intros (a' & t & [= -> ->] & H); exact H].
  - split; [discriminate | intros (a' & t & [=] & _)].
Qed.

Lemma bind_Error {A B} (m : M A) (k : A -> M B) s msg s'' :
  bind m k s = Error msg s'' <->
  m s = Error msg s'' \/ exists a s', m s = Return a s' /\ k a s' = Error msg s''.
Proof.
  unfold bind. destruct (m s) as [a s'|msg' s'].
  - split; [eauto | intros [[=] | (a' & t & [= -> ->] & H)]; exact H].
  - split; [intros [= -> ->]; auto | intros [[= -> ->] | (a' & t & [=] & _)]; done].
Qed.

Lemma ret_Return {A} (a b : A) s s' : ret a s = Return b s' <-> a = b /\ s = s'.
Proof. unfold ret. split; [intros [= -> ->]; auto | intros [-> ->]; auto]. Qed.

(** ** The API calls, one at a time *)

Lemma VECTOR_ELT_Return x i s v s' :
  R.VECTOR_ELT x i s = Return v s' <->
  (exists elts a, R.deref (heap s) x = Some (GenericVec elts a) /\
                  0 <= i /\ elts !! Z.to_nat i = Some v) /\
  s' = record (Call_VECTOR_ELT x i) s.
Proof.
  unfold R.VECTOR_ELT. split.
  - intros H. repeat case_match; simplify_eq. eauto 10.
  - intros [(elts & a & -> & Hi & ->) ->]. by rewrite decide_True.
Qed.

Lemma STRING_ELT_Return x i s v s' :
  R.STRING_ELT x i s = Return v s' <->
  (exists elts a, R.deref (heap s) x = Some (StringVec elts a) /\
                  0 <= i /\ elts !! Z.to_nat i = Some v) /\
  s' = record (Call_STRING_ELT x i) s.
Proof.
  unfold R.STRING_ELT. split.
  - intros H. repeat case_match; simplify_eq. eauto 10.
  - intros [(elts & a & -> & Hi & ->) ->]. by rewrite decide_True.
Qed.

Lemma CHAR_Return x s c s' :
  R.CHAR x s = Return c s' <-> R.char_of (heap s) x = Some c /\ s' = s.
Proof.
  unfold R.CHAR. split.
  - intros H. case_match; simplify_eq. auto.
  - intros [-> ->]. done.
Qed.

Lemma PROTECT_Return x s y s' :
  R.PROTECT x s = Return y s' <->
  Z.of_nat (List.length (R_PPStack s)) < R_PPStackSize s /\
  y = x /\ s' = set_ppstack (x :: R_PPStack s) s.
Proof.
  unfold R.PROTECT. split.
  - intros H. case_match; simplify_eq. auto.
  - intros (Hlt & -> & ->). by rewrite decide_True.
Qed.

Lemma UNPROTECT_Return k s u s' :
  R.UNPROTECT k s = Return u s' <->
  0 <= k <= Z.of_nat (List.length (R_PPStack s)) /\
  s' = set_ppstack (drop (Z.to_nat k) (R_PPStack s)) s.
Proof.
  unfold R.UNPROTECT. split.
  - intros H. case_match; simplify_eq. auto.
  - intros (Hk & ->). destruct u. by rewrite decide_True.
Qed.

Lemma SET_TAG_Return x v s u s' :
  R.SET_TAG x v s = Return u s' <->
  exists l ty car cdr tag,
    x = Loc l /\ heap s !! l = Some (ConsCell ty car cdr tag) /\
    s' = set_heap (<[l := ConsCell ty car cdr v]> (heap s)) (record (Call_SET_TAG x v) s).
Proof.
  unfold R.SET_TAG. split.
  - intros H. repeat case_match; simplify_eq. eauto 10.
  - intros (l & ty & car & cdr & tag & -> & -> & ->). by destruct u.
Qed.

Lemma Rf_install_Return name s v s' :
  R.Rf_install name s = Return v s' <->
  valid_name name /\ (v, s') = interned name s.
Proof.
  unfold R.Rf_install, interned, valid_name. split.
  - intros H. repeat case_match; simplify_eq; (split; [split; [done | lia] | done]).
  - intros [[Hne Hlen] H]. rewrite decide_False by done.
    rewrite decide_False by lia.
    destruct (R_SymbolTable s !! name); by simplify_eq.
Qed.

Lemma lazy_to_promise_Return x s p s' :
  lazy_to_promise x s = Return p s' <->
  exists e rho rest a,
    R.deref (heap s) x = Some (GenericVec (e :: rho :: rest) a) /\
    p = Loc (List.length (heap s)) /\
    s' = set_heap (heap s ++ [Promise e rho None])
           (record (Call_mkPROMISE e rho)
              (record (Call_VECTOR_ELT x 1) (record (Call_VECTOR_ELT x 0) s))).
Proof.
  unfold lazy_to_promise. split.
  - intros H.
    apply bind_Return in H as (e & s1 & H1 & H).
    apply bind_Return in H as (rho & s2 & H2 & H).
    apply VECTOR_ELT_Return in H1 as [(elts & a & Hx & _ & He) ->].
    apply VECTOR_ELT_Return in H2 as [(elts' & a' & Hx' & _ & Hrho) ->].
    norm_state. rewrite Hx in Hx'. simplify_eq.
    destruct elts' as [|e' [|rho' rest]]; simplify_eq/=.
    unfold R.Rf_mkPROMISE, R.alloc in H. norm_state. simplify_eq. eauto 10.
  - intros (e & rho & rest & a & Hx & -> & ->).
    apply bind_Return. exists e, (record (Call_VECTOR_ELT x 0) s). split.
    { apply VECTOR_ELT_Return. split; [|done]. exists (e :: rho :: rest), a. done. }
    apply bind_Return. exists rho, (record (Call_VECTOR_ELT x 1) (record (Call_VECTOR_ELT x 0) s)).
    split.
    { apply VECTOR_ELT_Return. split; [|done]. exists (e :: rho :: rest), a.
      by norm_state. }
    unfold R.Rf_mkPROMISE, R.alloc. by norm_state.
Qed.

Lemma bind_run {A B} (m : M A) (k : A -> M B) s a s' :
  m s = Return a s' -> bind m k s = k a s'.
Proof. unfold bind. by intros ->. Qed.

(** ** Old objects seen through a grown heap *)

Lemma deref_app_old h new x c :
  Forall (fun c => fresh_kind c = true) new -> fresh_kind c = false ->
  R.deref (h ++ new) x = Some c <-> R.deref h x = Some c.
Proof.
  intros Hnew Hc. destruct x as [|l]; simpl; [done|]. split.
  - intros [H | [_ H]]%lookup_app_Some; [done|].
    apply list_elem_of_lookup_2 in H.
    rewrite Forall_forall in Hnew. apply Hnew in H. congruence.
  - intros H. by apply lookup_app_l_Some.
Qed.

Lemma char_of_app_old h new x c :
  Forall (fun c => fresh_kind c = true) new ->
  R.char_of (h ++ new) x = Some c <-> R.char_of h x = Some c.
Proof.
  intros Hnew. unfold R.char_of. split; intros H.
  - destruct (R.deref (h ++ new) x) as [cl|] eqn:E; [|done].
    destruct cl; try done. apply deref_app_old in E; [|done..].
    by rewrite E.
  - destruct (R.deref h x) as [cl|] eqn:E; [|done].
    destruct cl; try done.
    eapply (deref_app_old h new) in E; [|done..]. by rewrite E.
Qed.

(** ** One iteration of the loop *)

Lemma make_call_iteration_Return dots names i args s r s' :
  make_call_iteration dots names i args s = Return r s' <->
  exists dot e rho c,
    iteration_inputs (heap s) dots names i dot e rho c /\
    Z.of_nat (List.length (R_PPStack s)) + 1 < R_PPStackSize s /\
    (r, s') = iteration_result dots names i args dot e rho c s.
Proof.
  unfold make_call_iteration, iteration_inputs. split.
  - intros H.
    apply bind_Return in H as (dot & s1 & H1 & H).
    apply VECTOR_ELT_Return in H1 as [(elts & a & Hdots & Hi & Hdot) ->].
    apply bind_Return in H as (prom & s2 & H2 & H).
    apply bind_Return in H2 as (p & s2' & H2 & H2').
    apply lazy_to_promise_Return in H2 as (e & rho & rest & ad & Hlazy & -> & ->).
    apply PROTECT_Return in H2' as (Hroom1 & -> & ->).
    apply bind_Return in H as (args' & s3 & H3 & H).
    apply bind_Return in H3 as (cell & s3' & H3 & H3').
    unfold R.CONS, R.alloc in H3. injection H3 as <- <-.
    apply PROTECT_Return in H3' as (Hroom2 & -> & ->).
    apply bind_Return in H as (u & s4 & H4 & H).
    apply UNPROTECT_Return in H4 as (_ & ->).
    apply bind_Return in H as (nm & s5 & H5 & H).
    apply STRING_ELT_Return in H5 as [(nms & an & Hnames & _ & Hnm) ->].
    apply bind_Return in H as (c & s6 & H6 & H).
    apply CHAR_Return in H6 as [Hc ->].
    apply bind_Return in H as (sym & s7 & H7 & H).
    apply Rf_install_Return in H7 as [Hvalid Hsym].
    apply bind_Return in H as (u' & s8 & H8 & H).
    apply ret_Return in H as [<- <-].
    apply SET_TAG_Return in H8 as (l & ty & car & cdr & tag & [= <-] & Hcell & ->).
    destruct s as [h st pp sz tr]. norm_state.
    change (Z.to_nat 1) with 1%nat in *. cbn [drop] in *.
    rewrite <- (assoc_L (++)) in Hnames, Hc.
    apply deref_app_old in Hnames; [|by repeat constructor|done].
    apply char_of_app_old in Hc; [|by repeat constructor].
    exists dot, e, rho, c. split; [|split].
    + split; [done|]. split; [eauto|]. split; [eauto|]. split; [eauto 10|done].
    + clear -Hroom2. cbn [List.length] in Hroom2. lia.
    + unfold iteration_result. norm_state.
      rewrite length_app in *. cbn [List.length] in *.
      replace (List.length h + 1)%nat with (S (List.length h)) in * by (clear; lia).
      rewrite <- Hsym.
      assert (ConsCell ty car cdr tag
              = ConsCell CT_LIST (Loc (List.length h)) args R_NilValue) as [= -> -> -> ->].
      { unfold interned in Hsym. norm_state.
        destruct (st !! c); injection Hsym as -> ->; norm_state.
        - rewrite lookup_app_r in Hcell by (rewrite length_app; simpl; lia).
          rewrite length_app in Hcell. simpl in Hcell.
          replace (S (List.length h) - (List.length h + 1))%nat with 0%nat in Hcell by lia.
          by simplify_eq/=.
        - rewrite lookup_app_l in Hcell by (rewrite !length_app; simpl; lia).
          rewrite lookup_app_r in Hcell by (rewrite length_app; simpl; lia).
          rewrite length_app in Hcell. simpl in Hcell.
          replace (S (List.length h) - (List.length h + 1))%nat with 0%nat in Hcell by lia.
          by simplify_eq/=. }
      done.
  - intros (dot & e & rho & c & (Hi & (elts & a & Hdots & Hdot) & (rest & ad & Hlazy)
                               & (nms & an & nm & Hnames & Hnm & Hc) & Hvalid) & Hroom & Hres).
    erewrite bind_run; [|apply VECTOR_ELT_Return; split; [eauto 10|done]].
    erewrite bind_run; cycle 1.
    { erewrite bind_run; [|apply lazy_to_promise_Return; norm_state; eauto 10].
      apply PROTECT_Return. norm_state. split; [clear -Hroom; lia|done]. }
    erewrite bind_run; cycle 1.
    { erewrite bind_run; [|unfold R.CONS, R.alloc; done].
      apply PROTECT_Return. norm_state. split; [clear -Hroom; simpl; lia|done]. }
    erewrite bind_run; [|apply UNPROTECT_Return; norm_state; split; [simpl; clear; lia|done]].
    destruct s as [h st pp sz tr]. norm_state.
    change (Z.to_nat 1) with 1%nat. cbn [drop].
    rewrite length_app. cbn [List.length].
    replace (List.length h + 1)%nat with (S (List.length h)) by (clear; lia).
    erewrite bind_run; cycle 1.
    { apply STRING_ELT_Return. split; [|done]. exists nms, an. norm_state.
      rewrite <- (assoc_L (++)). split; [|done].
      apply deref_app_old; [by repeat constructor|done..]. }
    erewrite bind_run; cycle 1.
    { apply CHAR_Return. split; [|done]. norm_state.
      rewrite <- (assoc_L (++)). apply char_of_app_old; [by repeat constructor|done]. }
    unfold iteration_result in Hres. norm_state.
    match type of Hres with context [interned c ?st] =>
      destruct (interned c st) as [sym s5] eqn:Hsym end.
    erewrite bind_run; [|apply Rf_install_Return; split; [done|norm_state; symmetry; exact Hsym]].
    erewrite bind_run; cycle 1.
    { apply SET_TAG_Return.
      exists (S (List.length h)), CT_LIST, (Loc (List.length h)), args, R_NilValue.
      split; [done|]. split; [|done].
      unfold interned in Hsym. norm_state.
      destruct (st !! c); injection Hsym as <- <-; norm_state.
      - rewrite lookup_app_r by (rewrite length_app; simpl; lia).
        rewrite length_app. simpl.
        by replace (S (List.length h) - (List.length h + 1))%nat with 0%nat by lia.
      - rewrite lookup_app_l by (rewrite !length_app; simpl; lia).
        rewrite lookup_app_r by (rewrite length_app; simpl; lia).
        rewrite length_app. simpl.
        by replace (S (List.length h) - (List.length h + 1))%nat with 0%nat by lia. }
    unfold ret. by injection Hres as -> ->.
    Unshelve. all: exact tt.
Qed.

Lemma deref_app_fresh h new x :
  Forall (fun c => fresh_kind c = true) new ->
  R.deref (h ++ new) x = R.deref h x \/
  (R.deref h x = None /\ exists c, R.deref (h ++ new) x = Some c /\ fresh_kind c = true).
Proof.
  intros Hnew. destruct x as [|l]; simpl; [by left|].
  destruct (decide (l < List.length h)%nat) as [Hl|Hl].
  - left. by apply lookup_app_l.
  - rewrite (lookup_ge_None_2 h l) by lia.
    rewrite lookup_app_r by lia.
    destruct (new !! (l - List.length h)%nat) as [c|] eqn:E; [|by left].
    right. split; [done|]. exists c. split; [done|].
    rewrite Forall_forall in Hnew. apply Hnew. by eapply list_elem_of_lookup_2.
Qed.

Lemma char_of_app_fresh h new x :
  Forall (fun c => fresh_kind c = true) new ->
  R.char_of (h ++ new) x = R.char_of h x.
Proof.
  intros Hnew. unfold R.char_of.
  destruct (deref_app_fresh h new x Hnew) as [-> | [-> (c & -> & Hc)]]; [done|].
  by destruct c.
Qed.

Lemma element_app_fresh h new dots i :
  Forall (fun c => fresh_kind c = true) new ->
  element (h ++ new) dots i = element h dots i.
Proof.
  intros Hnew. unfold element.
  destruct (deref_app_fresh h new dots Hnew) as [-> | [-> (c & -> & Hc)]]; [done|].
  by destruct c.
Qed.

Lemma lazy_parts_app_fresh h new dot :
  Forall (fun c => fresh_kind c = true) new ->
  lazy_parts (h ++ new) dot = lazy_parts h dot.
Proof.
  intros Hnew. unfold lazy_parts.
  destruct (deref_app_fresh h new dot Hnew) as [-> | [-> (c & -> & Hc)]]; [done|].
  by destruct c.
Qed.

Lemma name_at_app_fresh h new names i :
  Forall (fun c => fresh_kind c = true) new ->
  name_at (h ++ new) names i = name_at h names i.
Proof.
  intros Hnew. unfold name_at.
  destruct (deref_app_fresh h new names Hnew) as [-> | [-> (c & -> & Hc)]].
  - destruct (R.deref h names) as [[]|]; try done.
    destruct (elts !! i); simpl; [|done]. by apply char_of_app_fresh.
  - by destruct c.
Qed.

Lemma argument_at_app_fresh h new dots names i :
  Forall (fun c => fresh_kind c = true) new ->
  argument_at (h ++ new) dots names i = argument_at h dots names i.
Proof.
  intros Hnew. unfold argument_at.
  rewrite element_app_fresh by done.
  destruct (element h dots i) as [dot|]; simpl; [|done].
  rewrite lazy_parts_app_fresh by done.
  destruct (lazy_parts h dot) as [[e rho]|]; simpl; [|done].
  by rewrite name_at_app_fresh.
Qed.

Lemma iteration_inputs_argument h dots names i dot e rho c :
  iteration_inputs h dots names (Z.of_nat i) dot e rho c <->
  argument_at h dots names i = Some (Argument dot e rho c).
Proof.
  unfold iteration_inputs, argument_at, element, lazy_parts, name_at.
  rewrite Nat2Z.id. split.
  - intros (_ & (elts & a & -> & ->) & (rest & ad & Hdot)
              & (nms & an & nm & -> & Hnm & Hc) & Hvalid). simpl.
    rewrite Hdot. simpl. rewrite Hnm. simpl. rewrite Hc. simpl.
    by rewrite decide_True.
  - intros H.
    destruct (R.deref h dots) as [[]|] eqn:Hdots; try done.
    destruct (elts !! i) as [dot'|] eqn:Hi; simpl in H; [|done].
    destruct (R.deref h dot') as [[| | | | | | |[|e' [|rho' rest]] ad|]|] eqn:Hdot;
      simpl in H; try done.
    destruct (R.deref h names) as [[]|] eqn:Hnames; try done.
    destruct (elts0 !! i) as [nm|] eqn:Hnm; simpl in H; [|done].
    destruct (R.char_of h nm) as [c'|] eqn:Hc; simpl in H; [|done].
    case_decide; simplify_eq.
    split; [lia|]. split; [eauto|]. split; [eauto|]. split; [eauto 10|done].
Qed.

(** ** Pairlist segments *)

Lemma pairlist_seg_app h stop mid x l1 l2 :
  pairlist_seg h mid x l1 -> pairlist_seg h stop mid l2 ->
  pairlist_seg h stop x (l1 ++ l2).
Proof.
  induction 1 as [|l car cdr tag slots Hl _ IH]; intros H2; simpl; [done|].
  econstructor; eauto.
Qed.

Lemma pairlist_seg_grow h new stop x l :
  pairlist_seg h stop x l -> pairlist_seg (h ++ new) stop x l.
Proof.
  induction 1 as [|l car cdr tag slots Hl _ IH]; [constructor|].
  econstructor; [|done]. by apply lookup_app_l_Some.
Qed.

(** ** The state after one iteration *)

Lemma iteration_result_spec dots names i args dot e rho c s r s' :
  (r, s') = iteration_result dots names i args dot e rho c s ->
  r = Loc (S (List.length (heap s))) /\
  (exists (t : nat) (symnew : list cell),
      heap s' = heap s ++ [Promise e rho None;
                           ConsCell CT_LIST (Loc (List.length (heap s))) args (Loc t)]
                       ++ symnew /\
      Forall (fun c => fresh_kind c = true) symnew /\
      R_SymbolTable s' !! c = Some t /\
      trace s' = trace s ++
        [Call_VECTOR_ELT dots i; Call_VECTOR_ELT dot 0; Call_VECTOR_ELT dot 1;
         Call_mkPROMISE e rho; Call_CONS (Loc (List.length (heap s))) args;
         Call_STRING_ELT names i; Call_install c;
         Call_SET_TAG (Loc (S (List.length (heap s)))) (Loc t)]) /\
  R_SymbolTable s ⊆ R_SymbolTable s' /\
  (symtab_ok s -> symtab_ok s') /\
  R_PPStack s' = Loc (List.length (heap s)) :: R_PPStack s /\
  R_PPStackSize s' = R_PPStackSize s.
Proof.
  destruct s as [h st pp sz tr]. unfold iteration_result, interned. norm_state.
  destruct (st !! c) as [t|] eqn:Ht; intros [= -> ->]; norm_state.
  - assert (<[S (List.length h) := ConsCell CT_LIST (Loc (List.length h)) args (Loc t)]>
              ((h ++ [Promise e rho None]) ++
               [ConsCell CT_LIST (Loc (List.length h)) args R_NilValue])
            = h ++ [Promise e rho None;
                    ConsCell CT_LIST (Loc (List.length h)) args (Loc t)]) as Hheap.
    { rewrite <- (assoc_L (++)). rewrite insert_app_r_alt by lia.
      by replace (S (List.length h) - List.length h)%nat with 1%nat by lia. }
    rewrite Hheap. split; [done|]. split.
    { exists t, []. rewrite app_nil_r. split; [done|]. split; [done|]. split; [done|].
      by rewrite <- !(assoc_L (++)). }
    split; [done|]. split; [|done].
    intros Hok name l Hl. specialize (Hok name l Hl). simpl in Hok. simpl.
    by apply lookup_app_l_Some.
  - assert (<[S (List.length h) :=
               ConsCell CT_LIST (Loc (List.length h)) args
                 (Loc (List.length ((h ++ [Promise e rho None]) ++
                   [ConsCell CT_LIST (Loc (List.length h)) args R_NilValue])))]>
              (((h ++ [Promise e rho None]) ++
               [ConsCell CT_LIST (Loc (List.length h)) args R_NilValue])
               ++ [Symbol c])
            = h ++ [Promise e rho None;
                    ConsCell CT_LIST (Loc (List.length h)) args
                      (Loc (S (S (List.length h))))] ++ [Symbol c]) as Hheap.
    { rewrite <- !(assoc_L (++)). rewrite insert_app_r_alt by lia.
      replace (S (List.length h) - List.length h)%nat with 1%nat by lia.
      rewrite !length_app. simpl.
      by replace (List.length h + 2)%nat with (S (S (List.length h))) by lia. }
    rewrite Hheap. split; [done|]. split.
    { exists (S (S (List.length h))), [Symbol c].
      split; [done|]. split; [by repeat constructor|]. split.
      - rewrite !length_app. simpl.
        replace (List.length h + 1 + 1)%nat with (S (S (List.length h))) by lia.
        apply lookup_insert_eq.
      - rewrite <- !(assoc_L (++)). simpl.
        rewrite !length_app. simpl.
        by replace (List.length h + 2)%nat with (S (S (List.length h))) by lia. }
    split; [by apply insert_subseteq|]. split; [|done].
    intros Hok. apply map_Forall_insert_2.
    + simpl. rewrite !length_app. simpl.
      rewrite lookup_app_r by lia.
      by replace (List.length h + 1 + 1 - List.length h)%nat with 2%nat by lia.
    + intros name l Hl. specialize (Hok name l Hl). simpl in Hok. simpl.
      by apply lookup_app_l_Some.
Qed.

(** ** The loop *)

Lemma pass_indices_S k : pass_indices (S k) = Z.of_nat k :: pass_indices k.
Proof. unfold pass_indices. by rewrite seq_S, reverse_app. Qed.

Lemma make_call_loop_Return_inv k : forall dots names args s r s',
  make_call_loop dots names k args s = Return r s' ->
  exists its, loop_post dots names args k s r s' its.
Proof.
  induction k as [|k IH]; intros dots names args s r s' H; simpl in H.
  - apply ret_Return in H as [<- <-]. exists [].
    split; try done.
    + exists []. by rewrite app_nil_r.
    + by exists [].
    + exists []. split; [constructor|]. split; constructor.
    + exists []. by rewrite app_nil_r.
  - apply bind_Return in H as (a1 & s1 & Hit & Hloop).
    apply make_call_iteration_Return in Hit as (dot & e & rho & c & Hin & Hroom & Hres).
    apply iteration_inputs_argument in Hin.
    apply iteration_result_spec in Hres
      as (-> & (t & symnew & Hheap1 & Hsymnew & Ht & Htrace1) & Hsub1 & Hok1 & Hpp1 & Hsize1).
    apply IH in Hloop as [its [Hlen Hinputs Hroom' (new & Hheap & Hnew) Hsub Hok
                                (ps & Hpp & Hps) Hsize (slots & Hseg & Hslots & Hnodup)
                                (tr & Htrace & Hreads)]].
    assert (Forall (fun c => fresh_kind c = true)
              ([Promise e rho None;
                ConsCell CT_LIST (Loc (List.length (heap s))) args (Loc t)] ++ symnew)) as Hfresh1.
    { apply Forall_app. split; [by repeat constructor|done]. }
    exists (its ++ [Argument dot e rho c]). split.
    + rewrite length_app. simpl. lia.
    + intros i it [Hi | [Hi Hlast]]%lookup_app_Some.
      * apply Hinputs in Hi. rewrite Hheap1 in Hi.
        by rewrite argument_at_app_fresh in Hi.
      * destruct (i - List.length its)%nat as [|?] eqn:E; [|done].
        simplify_eq/=. by replace i with (List.length its) by lia.
    + intros _. destruct (decide (k = 0%nat)) as [->|Hk]; [lia|].
      specialize (Hroom' Hk). rewrite Hpp1, Hsize1 in Hroom'. simpl in Hroom'. lia.
    + exists (([Promise e rho None;
                ConsCell CT_LIST (Loc (List.length (heap s))) args (Loc t)] ++ symnew) ++ new).
      split; [|by apply Forall_app].
      by rewrite Hheap, Hheap1, <- !(assoc_L (++)).
    + by etrans.
    + auto.
    + exists (ps ++ [Loc (List.length (heap s))]). split.
      * by rewrite Hpp, Hpp1, <- (assoc_L (++)).
      * rewrite length_app. simpl. lia.
    + congruence.
    + exists (slots ++ [(Loc (List.length (heap s)), Loc t)]). split; [|split].
      * eapply pairlist_seg_app; [done|].
        econstructor; [|constructor].
        rewrite Hheap, Hheap1. apply lookup_app_l_Some.
        rewrite lookup_app_r by lia.
        by replace (S (List.length (heap s)) - List.length (heap s))%nat with 1%nat by lia.
      * apply Forall2_app.
        -- eapply Forall2_impl; [done|].
           intros it [p tg] (lp & lt & [= -> ->] & Hge & Hprom & Htag).
           exists lp, lt. split; [done|]. split; [|done].
           rewrite Hheap1, length_app in Hge. lia.
        -- constructor; [|constructor].
           exists (List.length (heap s)), t. simpl. split; [done|]. split; [lia|]. split.
           ++ rewrite Hheap, Hheap1. apply lookup_app_l_Some.
              rewrite lookup_app_r by lia.
              by replace (List.length (heap s) - List.length (heap s))%nat with 0%nat by lia.
           ++ by eapply lookup_weaken.
      * rewrite fmap_app. apply NoDup_app. split; [done|]. split; [|by apply NoDup_singleton].
        intros p Hp [->|[]%elem_of_nil]%elem_of_cons.
        apply list_elem_of_fmap in Hp as ([p' tg] & Hp' & Hin').
        simpl in Hp'. subst p'.
        apply list_elem_of_lookup in Hin' as [j Hj].
        destruct (Forall2_lookup_r _ _ _ _ _ Hslots Hj)
          as (it & _ & (lp & lt & [= Hlp Htg] & Hge & _)).
        rewrite Hheap1, length_app in Hge. simpl in Hge. lia.
    + eexists. split.
      * by rewrite Htrace, Htrace1, <- (assoc_L (++)).
      * intros Hfree. rewrite pass_indices_S, <- Hreads.
        -- unfold dots_reads. rewrite omap_app. simpl.
           rewrite decide_True by done.
           rewrite !decide_False; [done|..];
             apply (Hfree (Argument dot e rho c)); set_solver.
        -- intros it Hit. apply Hfree. set_solver.
Qed.

Lemma make_call_loop_runs k : forall dots names args s,
  (forall i, (i < k)%nat -> is_Some (argument_at (heap s) dots names i)) ->
  (k <> 0%nat -> Z.of_nat (List.length (R_PPStack s)) + Z.of_nat k < R_PPStackSize s) ->
  exists r s', make_call_loop dots names k args s = Return r s'.
Proof.
  induction k as [|k IH]; intros dots names args s Hargs Hroom; simpl.
  - by exists args, s.
  - destruct (Hargs k) as [[dot e rho c] Hit]; [lia|].
    apply iteration_inputs_argument in Hit.
    destruct (iteration_result dots names (Z.of_nat k) args dot e rho c s)
      as [a1 s1] eqn:Hres. symmetry in Hres.
    assert (make_call_iteration dots names (Z.of_nat k) args s = Return a1 s1) as Hrun.
    { apply make_call_iteration_Return. exists dot, e, rho, c.
      split; [done|]. split; [|done]. specialize (Hroom ltac:(lia)). lia. }
    apply iteration_result_spec in Hres
      as (-> & (t & symnew & Hheap1 & Hsymnew & _) & _ & _ & Hpp1 & Hsize1).
    rewrite (bind_run _ _ _ _ _ Hrun).
    apply IH.
    + intros i Hi. rewrite Hheap1, argument_at_app_fresh.
      * apply Hargs. lia.
      * apply Forall_app. split; [by repeat constructor|done].
    + intros Hk. rewrite Hpp1, Hsize1. simpl. specialize (Hroom ltac:(lia)). lia.
Qed.

(** ** Frames: what a run leaves alone *)

Lemma grows_refl s : grows s s.
Proof.
  split; [exists []; by rewrite app_nil_r | done | done | exists []; by rewrite app_nil_r].
Qed.

Lemma grows_trans s1 s2 s3 : grows s1 s2 -> grows s2 s3 -> grows s1 s3.
Proof.
  intros [(n1 & H1 & F1) T1 Z1 (t1 & Tr1)] [(n2 & H2 & F2) T2 Z2 (t2 & Tr2)]. split.
  - exists (n1 ++ n2). split; [by rewrite H2, H1, (assoc_L (++))|by apply Forall_app].
  - by etrans.
  - congruence.
  - exists (t1 ++ t2). by rewrite Tr2, Tr1, (assoc_L (++)).
Qed.

Lemma grows_record c s : grows s (record c s).
Proof.
  destruct s. split; simpl; [exists []; by rewrite app_nil_r | done | done | by exists [c]].
Qed.

Lemma grows_set_ppstack p s : grows s (set_ppstack p s).
Proof.
  destruct s.
  split; simpl; [exists []; by rewrite app_nil_r | done | done | exists []; by rewrite app_nil_r].
Qed.

Lemma grows_alloc c s :
  fresh_kind c = true -> grows s (set_heap (heap s ++ [c]) s).
Proof.
  intros Hc. destruct s. split; simpl; [|done|done|exists []; by rewrite app_nil_r].
  exists [c]. split; [done|by repeat constructor].
Qed.

Lemma errors_grow_bind {A B} E (m : M A) (k : A -> M B) :
  returns_grow m -> errors_grow E m -> (forall a, errors_grow E (k a)) ->
  errors_grow E (bind m k).
Proof.
  intros Hr He Hk s msg s' [H | (a & s1 & H1 & H)]%bind_Error; [by apply He|].
  apply Hk in H as [HE Hg]. split; [done|].
  eapply grows_trans; [by eapply Hr|done].
Qed.

Lemma returns_grow_bind {A B} (m : M A) (k : A -> M B) :
  returns_grow m -> (forall a, returns_grow (k a)) -> returns_grow (bind m k).
Proof.
  intros Hr Hk s b s' (a & s1 & H1 & H)%bind_Return.
  eapply grows_trans; [by eapply Hr|by eapply Hk].
Qed.

Lemma returns_grow_ret {A} (a : A) : returns_grow (ret a).
Proof. intros s b s' [_ <-]%ret_Return. apply grows_refl. Qed.

Lemma errors_grow_ret {A} E (a : A) : errors_grow E (ret a).
Proof. intros s msg s' [=]. Qed.

Lemma errors_grow_weaken {A} (E E' : string -> Prop) (m : M A) :
  (forall msg, E msg -> E' msg) -> errors_grow E m -> errors_grow E' m.
Proof. intros HE H s msg s' Hm. apply H in Hm as [? ?]. auto. Qed.

Ltac host_msg := unfold host_error, host_messages; set_solver.

Lemma VECTOR_ELT_returns x i : returns_grow (R.VECTOR_ELT x i).
Proof. intros s a s' [_ ->]%VECTOR_ELT_Return. apply grows_record. Qed.

Lemma VECTOR_ELT_errors x i : errors_grow host_error (R.VECTOR_ELT x i).
Proof.
  intros s msg s'. unfold R.VECTOR_ELT.
  repeat case_match; intros [= <- <-]; (split; [host_msg|apply grows_record]).
Qed.

Lemma STRING_ELT_returns x i : returns_grow (R.STRING_ELT x i).
Proof. intros s a s' [_ ->]%STRING_ELT_Return. apply grows_record. Qed.

Lemma STRING_ELT_errors x i : errors_grow host_error (R.STRING_ELT x i).
Proof.
  intros s msg s'. unfold R.STRING_ELT.
  repeat case_match; intros [= <- <-]; (split; [host_msg|apply grows_record]).
Qed.

Lemma CHAR_returns x : returns_grow (R.CHAR x).
Proof. intros s a s' [_ ->]%CHAR_Return. apply grows_refl. Qed.

Lemma CHAR_errors x : errors_grow host_error (R.CHAR x).
Proof.
  intros s msg s'. unfold R.CHAR.
  case_match; intros [= <- <-]. split; [host_msg|apply grows_refl].
Qed.

Lemma PROTECT_returns x : returns_grow (R.PROTECT x).
Proof. intros s a s' (_ & _ & ->)%PROTECT_Return. apply grows_set_ppstack. Qed.

Lemma PROTECT_errors x : errors_grow host_error (R.PROTECT x).
Proof.
  intros s msg s'. unfold R.PROTECT.
  case_match; intros [= <- <-]. split; [host_msg|apply grows_refl].
Qed.

Lemma UNPROTECT_returns k : returns_grow (R.UNPROTECT k).
Proof. intros s a s' (_ & ->)%UNPROTECT_Return. apply grows_set_ppstack. Qed.

Lemma UNPROTECT_errors k : errors_grow host_error (R.UNPROTECT k).
Proof.
  intros s msg s'. unfold R.UNPROTECT.
  case_match; intros [= <- <-]. split; [host_msg|apply grows_refl].
Qed.

Lemma Rf_install_returns name : returns_grow (R.Rf_install name).
Proof.
  intros s a s' [_ H]%Rf_install_Return. unfold interned in H.
  destruct (R_SymbolTable s !! name) eqn:E; injection H as -> ->.
  - apply grows_record.
  - destruct s. split; simpl in *.
    + exists [Symbol name]. split; [done|by repeat constructor].
    + by apply insert_subseteq.
    + done.
    + by exists [Call_install name].
Qed.

Lemma Rf_install_errors name : errors_grow host_error (R.Rf_install name).
Proof.
  intros s msg s'. unfold R.Rf_install.
  repeat case_match; intros [= <- <-]; (split; [host_msg|apply grows_record]).
Qed.

Lemma Rf_mkPROMISE_returns e rho : returns_grow (R.Rf_mkPROMISE e rho).
Proof.
  intros s a s' [= <- <-]. eapply grows_trans; [apply grows_record|].
  by apply grows_alloc.
Qed.

Lemma Rf_mkPROMISE_errors E e rho : errors_grow E (R.Rf_mkPROMISE e rho).
Proof. intros s msg s' [=]. Qed.

Lemma CONS_returns car cdr : returns_grow (R.CONS car cdr).
Proof.
  intros s a s' [= <- <-]. eapply grows_trans; [apply grows_record|].
  by apply grows_alloc.
Qed.

Lemma CONS_errors E car cdr : errors_grow E (R.CONS car cdr).
Proof. intros s msg s' [=]. Qed.

Lemma LCONS_returns car cdr : returns_grow (R.LCONS car cdr).
Proof.
  intros s a s' [= <- <-]. eapply grows_trans; [apply grows_record|].
  by apply grows_alloc.
Qed.

Lemma LCONS_errors E car cdr : errors_grow E (R.LCONS car cdr).
Proof. intros s msg s' [=]. Qed.

Lemma SET_TAG_errors x v : errors_grow host_error (R.SET_TAG x v).
Proof.
  intros s msg s'. unfold R.SET_TAG.
  repeat case_match; intros [= <- <-]; (split; [host_msg|apply grows_record]).
Qed.

Lemma lazy_to_promise_returns x : returns_grow (lazy_to_promise x).
Proof.
  unfold lazy_to_promise.
  apply returns_grow_bind; [apply VECTOR_ELT_returns|intros e].
  apply returns_grow_bind; [apply VECTOR_ELT_returns|intros rho].
  apply Rf_mkPROMISE_returns.
Qed.

Lemma lazy_to_promise_errors x : errors_grow host_error (lazy_to_promise x).
Proof.
  unfold lazy_to_promise.
  apply errors_grow_bind; [apply VECTOR_ELT_returns|apply VECTOR_ELT_errors|intros e].
  apply errors_grow_bind; [apply VECTOR_ELT_returns|apply VECTOR_ELT_errors|intros rho].
  apply Rf_mkPROMISE_errors.
Qed.

Lemma make_call_iteration_returns dots names i args :
  returns_grow (make_call_iteration dots names i args).
Proof.
  intros s r s' (dot & e & rho & c & _ & _ & Hres)%make_call_iteration_Return.
  apply iteration_result_spec in Hres
    as (_ & (t & symnew & Hheap & Hsymnew & _ & Htrace) & Hsub & _ & _ & Hsize).
  split; [|done|done|by eexists].
  eexists. split; [done|]. apply Forall_app. split; [by repeat constructor|done].
Qed.

Lemma make_call_iteration_errors dots names i args :
  errors_grow host_error (make_call_iteration dots names i args).
Proof.
  unfold make_call_iteration.
  apply errors_grow_bind; [apply VECTOR_ELT_returns|apply VECTOR_ELT_errors|intros dot].
  apply errors_grow_bind; [| |intros prom].
  { apply returns_grow_bind; [apply lazy_to_promise_returns|intros p; apply PROTECT_returns]. }
  { apply errors_grow_bind;
      [apply lazy_to_promise_returns|apply lazy_to_promise_errors|intros p; apply PROTECT_errors]. }
  apply errors_grow_bind; [| |intros args'].
  { apply returns_grow_bind; [apply CONS_returns|intros p; apply PROTECT_returns]. }
  { apply errors_grow_bind; [apply CONS_returns|apply CONS_errors|intros p; apply PROTECT_errors]. }
  apply errors_grow_bind; [apply UNPROTECT_returns|apply UNPROTECT_errors|intros _].
  apply errors_grow_bind; [apply STRING_ELT_returns|apply STRING_ELT_errors|intros name].
  apply errors_grow_bind; [apply CHAR_returns|apply CHAR_errors|intros c].
  apply errors_grow_bind; [apply Rf_install_returns|apply Rf_install_errors|intros sym].
  intros s msg s' [H | (a & s1 & _ & [=])]%bind_Error.
  by apply SET_TAG_errors in H.
Qed.

Lemma make_call_loop_returns dots names k : forall args,
  returns_grow (make_call_loop dots names k args).
Proof.
  induction k as [|k IH]; intros args; simpl.
  - apply returns_grow_ret.
  - apply returns_grow_bind; [apply make_call_iteration_returns|done].
Qed.

Lemma make_call_loop_errors dots names k : forall args,
  errors_grow host_error (make_call_loop dots names k args).
Proof.
  induction k as [|k IH]; intros args; simpl.
  - apply errors_grow_ret.
  - apply errors_grow_bind;
      [apply make_call_iteration_returns|apply make_call_iteration_errors|done].
Qed.

(** ** The checks and the remaining API calls *)

Lemma TYPEOF_Return x s t s' :
  R.TYPEOF x s = Return t s' <-> R.typeof (heap s) x = Some t /\ s' = s.
Proof.
  unfold R.TYPEOF. split.
  - intros H. case_match; simplify_eq. auto.
  - intros [-> ->]. done.
Qed.

Lemma when_error_Return b msg s u s' :
  R.when b (R.error msg) s = Return u s' <-> b = false /\ s' = s.
Proof.
  unfold R.when, R.error, ret. destruct b, u; split.
  - intros [=].
  - intros [[=] _].
  - intros [= <-]. done.
  - intros [_ ->]. done.
Qed.

Lemma inherits_Return x name s b s' :
  R.inherits x name s = Return b s' <->
  b = bool_decide (name ∈ R.class_of (heap s) x) /\ s' = record (Call_inherits x name) s.
Proof.
  unfold R.inherits. split; [intros [= <- <-]; done | intros [-> ->]; done].
Qed.

Lemma typeof_VECSXP h x :
  R.typeof h x = Some VECSXP <-> exists elts a, R.deref h x = Some (GenericVec elts a).
Proof.
  destruct x as [|l]; simpl.
  - split; [done | intros (? & ? & [=])].
  - destruct (h !! l) as [c|]; simpl.
    + split.
      * intros [= H]. destruct c as [| [] | | | | | | |[]]; simplify_eq/=. eauto.
      * intros (elts & a & [= ->]). done.
    + split; [done | intros (? & ? & [=])].
Qed.

Lemma length_GenericVec x elts a s :
  R.deref (heap s) x = Some (GenericVec elts a) ->
  R.length x s =
  if decide (Z.of_nat (List.length elts) <= R.INT_MAX)
  then Return (Z.of_nat (List.length elts)) s else Error R.msg_long_vector s.
Proof.
  unfold R.length. destruct x as [|l]; simpl; [done|]. by intros ->.
Qed.

Lemma GET_NAMES_GenericVec x elts a s :
  R.deref (heap s) x = Some (GenericVec elts a) ->
  R.GET_NAMES x s = Return (names_of (heap s) x) (record (Call_GET_NAMES x) s).
Proof.
  unfold R.GET_NAMES, names_of. destruct x as [|l]; simpl; [done|]. by intros ->.
Qed.

(** ** The whole routine *)

Lemma argument_at_dot h dots names i it :
  argument_at h dots names i = Some it -> element h dots i = Some (arg_dot it).
Proof.
  unfold argument_at. intros H.
  destruct (element h dots i) as [dot|]; simpl in H; [|done].
  destruct (lazy_parts h dot) as [[e rho]|]; simpl in H; [|done].
  destruct (name_at h names i) as [c|]; simpl in H; [|done].
  case_decide; by simplify_eq.
Qed.

Lemma arguments_mapM h dots names its :
  (forall i it, its !! i = Some it -> argument_at h dots names i = Some it) ->
  mapM (argument_at h dots names) (seq 0 (List.length its)) = Some its.
Proof.
  intros H. apply mapM_Some. apply Forall2_same_length_lookup. split.
  - by rewrite length_seq.
  - intros i j it Hj Hit. apply lookup_seq in Hj as [-> _]. by apply H.
Qed.

Lemma make_call_Return_inv fun_ dots s r s' :
  make_call_ fun_ dots s = Return r s' ->
  valid_input s fun_ dots /\
  exists its slots,
    arguments_of (heap s) dots = Some its /\
    call_built fun_ s r s' slots /\
    Forall2 (slot_built s s') its slots /\
    exists tr, trace s' = trace s ++ tr /\
               (~ own_element (heap s) dots ->
                dots_reads dots tr = pass_indices (List.length its)).
Proof.
  unfold make_call_. intros H.
  apply bind_Return in H as (tf & s1 & Htf & H).
  apply TYPEOF_Return in Htf as [Htf ->].
  apply bind_Return in H as (u1 & s1 & Hc1 & H).
  apply when_error_Return in Hc1 as [Hc1 ->].
  apply bind_Return in H as (td & s1 & Htd & H).
  apply TYPEOF_Return in Htd as [Htd ->].
  apply bind_Return in H as (u2 & s1 & Hc2 & H).
  apply when_error_Return in Hc2 as [Hc2 ->].
  apply bind_Return in H as (cls & s1 & Hcls & H).
  apply inherits_Return in Hcls as [-> ->].
  apply bind_Return in H as (u3 & s1 & Hc3 & H).
  apply when_error_Return in Hc3 as [Hc3 ->].
  apply bind_Return in H as (n & s1 & Hn & H).
  apply andb_false_iff in Hc1.
  rewrite !bool_decide_eq_false in Hc1.
  assert (tf = SYMSXP \/ tf = LANGSXP) as Hfun.
  { destruct Hc1 as [Hc1|Hc1]; [left|right]; by apply dec_stable. }
  apply bool_decide_eq_false in Hc2. apply dec_stable in Hc2. subst td.
  apply negb_false_iff, bool_decide_eq_true in Hc3.
  apply typeof_VECSXP in Htd as (elts & a & Hdots).
  rewrite (length_GenericVec _ elts a) in Hn by (by autorewrite with state).
  destruct (decide (Z.of_nat (List.length elts) <= R.INT_MAX)) as [Hlen|Hlen]; [|done].
  injection Hn as <- <-.
  destruct (decide (Z.of_nat (List.length elts) = 0)) as [Hn0|Hn0].
  - (* n == 0 *)
    assert (elts = []) as -> by (destruct elts; [done|simpl in Hn0; lia]).
    injection H as <- <-. split.
    { split; [destruct Hfun; subst; auto|]. split; [done|].
      rewrite Hdots. split; [done|]. split; [|by left].
      unfold arguments_of. rewrite Hdots. simpl. eauto. }
    exists [], []. split; [by unfold arguments_of; rewrite Hdots|].
    destruct s as [h st pp sz tr]. norm_state. split; [|split].
    + split; norm_state.
      * exists (List.length h), R_NilValue.
        split; [done|]. split; [lia|]. split; [|constructor].
        by rewrite lookup_app_r, Nat.sub_diag by lia.
      * constructor.
      * split; norm_state; [|done|done|].
        -- eexists. split; [done|]. by repeat constructor.
        -- eexists. by rewrite <- (assoc_L (++)).
      * intros Hok name l Hl. specialize (Hok name l Hl). simpl in *.
        by apply lookup_app_l_Some.
      * done.
    + constructor.
    + eexists. rewrite <- (assoc_L (++)). split; [done|]. done.
  - (* the loop *)
    apply bind_Return in H as (names & s1 & Hnm & H).
    rewrite (GET_NAMES_GenericVec _ elts a) in Hnm by (by autorewrite with state).
    injection Hnm as <- <-.
    apply bind_Return in H as (args & s2 & Hloop & H).
    apply bind_Return in H as (u4 & s3 & Hunp & H).
    apply make_call_loop_Return_inv in Hloop
      as [its [Hlenits Hinputs Hroom (new & Hheap & Hnew) Hsub Hok
               (ps & Hpp & Hps) Hsize (slots & Hseg & Hslots & Hnodup)
               (tr & Htrace & Hreads)]].
    apply UNPROTECT_Return in Hunp as [_ ->].
    injection H as <- <-.
    rewrite Nat2Z.id in *.
    assert (forall it slot, slot_built
              (record (Call_GET_NAMES dots) (record (Call_inherits dots "lazy_dots") s))
              s2 it slot ->
            slot_built s s2 it slot) as Hslot.
    { intros it slot (lp & lt & -> & Hge & Hp & Ht). exists lp, lt.
      by autorewrite with state in Hge. }
    autorewrite with state in *.
    assert (arguments_of (heap s) dots = Some its) as Hargs.
    { unfold arguments_of. rewrite Hdots, <- Hlenits. by apply arguments_mapM. }
    split.
    { split; [destruct Hfun; subst; auto|]. split; [done|].
      rewrite Hdots. split; [done|]. split; [by rewrite Hargs|].
      right. apply Hroom. by destruct elts. }
    exists its, slots. split; [done|].
    destruct s as [h st pp sz tr0], s2 as [h2 st2 pp2 sz2 tr2]. norm_state. subst.
    split; [|split].
    + split; norm_state.
      * exists (List.length (h ++ new)), args.
        split; [done|]. split; [rewrite length_app; lia|]. split.
        -- by rewrite lookup_app_r, Nat.sub_diag by lia.
        -- by apply pairlist_seg_grow.
      * done.
      * split; norm_state.
        -- exists (new ++ [ConsCell CT_LANG fun_ args R_NilValue]).
           split; [by rewrite (assoc_L (++))|].
           apply Forall_app. split; [done|by repeat constructor].
        -- done.
        -- done.
        -- eexists. rewrite <- !(assoc_L (++)). done.
      * intros Hok' name l Hl. specialize (Hok Hok' name l Hl). simpl in *.
        by apply lookup_app_l_Some.
      * by rewrite <- Hps, drop_app_length.
    + eapply Forall2_impl; [done|].
      intros it slot (lp & lt & -> & Hge & Hp & Ht)%Hslot. exists lp, lt.
      split; [done|]. split; [done|]. split; [|done].
      norm_state. by apply lookup_app_l_Some.
    + eexists. rewrite <- !(assoc_L (++)). split; [done|].
      intros Hfree. unfold dots_reads in *. simpl. rewrite omap_app, Hreads.
      { simpl. by rewrite app_nil_r, Hlenits. }
      intros it [i Hit]%list_elem_of_lookup Heq. apply Hfree.
      apply Hinputs, argument_at_dot in Hit.
      unfold own_element, element in *. rewrite Hdots in *.
      rewrite Heq in Hit. by eapply list_elem_of_lookup_2.
Qed.

Lemma arguments_of_lookup h dots its i :
  arguments_of h dots = Some its ->
  (i < List.length its)%nat ->
  is_Some (argument_at h dots (names_of h dots) i).
Proof.
  unfold arguments_of. intros H Hi.
  destruct (R.deref h dots) as [[]|]; try done.
  apply mapM_Some in H.
  destruct (lookup_lt_is_Some_2 its i Hi) as [it Hit].
  destruct (Forall2_lookup_r _ _ _ _ _ H Hit) as (j & Hj & Harg).
  apply lookup_seq in Hj as [-> _]. eauto.
Qed.

Lemma arguments_of_length h dots elts a its :
  R.deref h dots = Some (GenericVec elts a) ->
  arguments_of h dots = Some its ->
  List.length its = List.length elts.
Proof.
  unfold arguments_of. intros -> H. apply length_mapM in H.
  by rewrite length_seq in H.
Qed.

Lemma make_call_runs fun_ dots s :
  valid_input s fun_ dots ->
  exists r s', make_call_ fun_ dots s = Return r s'.
Proof.
  intros (Hfun & Hcls & Hdots).
  destruct (R.deref (heap s) dots) as [[| | | | | | |elts a|]|] eqn:Hd; try done.
  destruct Hdots as (Hlen & [its Hits] & Hroom).
  unfold make_call_.
  assert (exists tf, R.typeof (heap s) fun_ = Some tf /\
                     (bool_decide (tf ≠ SYMSXP) && bool_decide (tf ≠ LANGSXP)) = false)
    as (tf & Htf & Hchk).
  { destruct Hfun as [H|H]; eexists; (split; [exact H|done]). }
  erewrite bind_run; [|by apply TYPEOF_Return].
  erewrite bind_run; [|by apply when_error_Return].
  erewrite bind_run; [|apply TYPEOF_Return; split; [|done]; apply typeof_VECSXP; eauto].
  erewrite bind_run; [|by apply when_error_Return].
  erewrite bind_run; [|by apply inherits_Return].
  erewrite bind_run;
    [|apply when_error_Return; split; [|done]; by rewrite bool_decide_eq_true_2].
  erewrite bind_run; cycle 1.
  { erewrite (length_GenericVec _ elts a) by (by autorewrite with state).
    by rewrite decide_True. }
  destruct (decide (Z.of_nat (List.length elts) = 0)) as [Hn0|Hn0].
  { unfold R.LCONS, R.alloc. eauto. }
  erewrite bind_run; [|apply (GET_NAMES_GenericVec _ elts a); by autorewrite with state].
  pose proof (arguments_of_length _ _ _ _ _ Hd Hits) as Hlenits.
  destruct (make_call_loop_runs (Z.to_nat (Z.of_nat (List.length elts))) dots
              (names_of (heap (record (Call_inherits dots "lazy_dots") s)) dots) R_NilValue
              (record (Call_GET_NAMES dots) (record (Call_inherits dots "lazy_dots") s)))
    as (args & s2 & Hloop).
  { intros i Hi. autorewrite with state.
    eapply arguments_of_lookup; [done|]. rewrite Hlenits. lia. }
  { intros _. autorewrite with state.
    destruct Hroom as [->|Hroom]; [done|]. rewrite Nat2Z.id. done. }
  rewrite (bind_run _ _ _ _ _ Hloop).
  apply make_call_loop_Return_inv in Hloop as [its' [_ _ _ _ _ _ (ps & Hpp & Hps) _ _ _]].
  erewrite bind_run; cycle 1.
  { apply UNPROTECT_Return. split; [|done].
    rewrite Hpp, length_app, Hps. lia. }
  unfold R.LCONS, R.alloc. eauto.
  Unshelve. all: exact tt.
Qed.

(** ** The three checks *)

Lemma TYPEOF_returns x : returns_grow (R.TYPEOF x).
Proof. intros s a s' [_ ->]%TYPEOF_Return. apply grows_refl. Qed.

Lemma TYPEOF_errors x : errors_grow host_error (R.TYPEOF x).
Proof.
  intros s msg s'. unfold R.TYPEOF.
  case_match; intros [= <- <-]. split; [host_msg|apply grows_refl].
Qed.

Lemma when_error_returns b msg : returns_grow (R.when b (R.error msg)).
Proof. intros s a s' [_ ->]%when_error_Return. apply grows_refl. Qed.

Lemma when_error_errors b msg : errors_grow (eq msg) (R.when b (R.error msg)).
Proof.
  intros s m s'. unfold R.when, R.error, ret.
  destruct b; intros [= <- <-]. split; [done|apply grows_refl].
Qed.

Lemma inherits_returns x name : returns_grow (R.inherits x name).
Proof. intros s a s' [_ ->]%inherits_Return. apply grows_record. Qed.

Lemma inherits_errors E x name : errors_grow E (R.inherits x name).
Proof. intros s msg s' [=]. Qed.

Lemma length_returns x : returns_grow (R.length x).
Proof.
  intros s a s' H. unfold R.length in H.
  repeat case_match; simplify_eq; apply grows_refl.
Qed.

Lemma length_errors x : errors_grow host_error (R.length x).
Proof.
  intros s msg s' H. unfold R.length in H.
  repeat case_match; simplify_eq; (split; [host_msg|apply grows_refl]).
Qed.

Lemma GET_NAMES_returns x : returns_grow (R.GET_NAMES x).
Proof.
  intros s a s' H. unfold R.GET_NAMES in H.
  repeat case_match; simplify_eq; apply grows_record.
Qed.

Lemma GET_NAMES_errors x : errors_grow host_error (R.GET_NAMES x).
Proof.
  intros s msg s' H. unfold R.GET_NAMES in H.
  repeat case_match; simplify_eq; (split; [host_msg|apply grows_record]).
Qed.

Lemma make_call_construct_returns fun_ dots :
  returns_grow (make_call_construct fun_ dots).
Proof.
  unfold make_call_construct.
  apply returns_grow_bind; [apply length_returns|intros n].
  case_decide; [apply LCONS_returns|].
  apply returns_grow_bind; [apply GET_NAMES_returns|intros names].
  apply returns_grow_bind; [apply make_call_loop_returns|intros args].
  apply returns_grow_bind; [apply UNPROTECT_returns|intros _].
  apply LCONS_returns.
Qed.

Lemma make_call_construct_errors fun_ dots :
  errors_grow host_error (make_call_construct fun_ dots).
Proof.
  unfold make_call_construct.
  apply errors_grow_bind; [apply length_returns|apply length_errors|intros n].
  case_decide; [apply LCONS_errors|].
  apply errors_grow_bind; [apply GET_NAMES_returns|apply GET_NAMES_errors|intros names].
  apply errors_grow_bind;
    [apply make_call_loop_returns|apply make_call_loop_errors|intros args].
  apply errors_grow_bind; [apply UNPROTECT_returns|apply UNPROTECT_errors|intros _].
  apply LCONS_errors.
Qed.

Lemma make_call_checks fun_ dots :
  make_call_ fun_ dots =
  (tf <- R.TYPEOF fun_ ;;
   R.when (bool_decide (tf ≠ SYMSXP) && bool_decide (tf ≠ LANGSXP))
     (R.error "fun must be a call or a symbol") ;;
   td <- R.TYPEOF dots ;;
   R.when (bool_decide (td ≠ VECSXP)) (R.error "dots must be a list") ;;
   cls <- R.inherits dots "lazy_dots" ;;
   R.when (negb cls) (R.error "dots must be of class lazy_dots") ;;
   make_call_construct fun_ dots).
Proof. reflexivity. Qed.

Lemma make_call_returns fun_ dots : returns_grow (make_call_ fun_ dots).
Proof.
  rewrite make_call_checks.
  apply returns_grow_bind; [apply TYPEOF_returns|intros tf].
  apply returns_grow_bind; [apply when_error_returns|intros _].
  apply returns_grow_bind; [apply TYPEOF_returns|intros td].
  apply returns_grow_bind; [apply when_error_returns|intros _].
  apply returns_grow_bind; [apply inherits_returns|intros cls].
  apply returns_grow_bind; [apply when_error_returns|intros _].
  apply make_call_construct_returns.
Qed.

Lemma make_call_errors fun_ dots :
  errors_grow (fun msg => msg ∈ validation_messages \/ host_error msg)
    (make_call_ fun_ dots).
Proof.
  rewrite make_call_checks.
  apply errors_grow_bind; [apply TYPEOF_returns| |intros tf].
  { eapply errors_grow_weaken; [|apply TYPEOF_errors]. auto. }
  apply errors_grow_bind; [apply when_error_returns| |intros _].
  { eapply errors_grow_weaken; [|apply when_error_errors].
    intros msg <-. left. unfold validation_messages. set_solver. }
  apply errors_grow_bind; [apply TYPEOF_returns| |intros td].
  { eapply errors_grow_weaken; [|apply TYPEOF_errors]. auto. }
  apply errors_grow_bind; [apply when_error_returns| |intros _].
  { eapply errors_grow_weaken; [|apply when_error_errors].
    intros msg <-. left. unfold validation_messages. set_solver. }
  apply errors_grow_bind; [apply inherits_returns|apply inherits_errors|intros cls].
  apply errors_grow_bind; [apply when_error_returns| |intros _].
  { eapply errors_grow_weaken; [|apply when_error_errors].
    intros msg <-. left. unfold validation_messages. set_solver. }
  eapply errors_grow_weaken; [|apply make_call_construct_errors]. auto.
Qed.

Lemma host_error_not_validation msg :
  host_error msg -> msg ∉ validation_messages.
Proof.
  unfold host_error, host_messages, validation_messages.
  rewrite !elem_of_cons, !elem_of_nil.
  intros H1 H2.
  repeat (destruct H1 as [-> | H1]; [by repeat (destruct H2 as [[=] | H2])|]).
  done.
Qed.

Lemma make_call_after_checks s fun_ dots tf td :
  R.typeof (heap s) fun_ = Some tf -> R.typeof (heap s) dots = Some td ->
  ~ bad_fun tf -> ~ bad_dots td -> ~ bad_class (heap s) dots ->
  make_call_ fun_ dots s =
  make_call_construct fun_ dots (record (Call_inherits dots "lazy_dots") s).
Proof.
  intros Htf Htd Hf Hd Hc. rewrite make_call_checks.
  erewrite bind_run; [|by apply TYPEOF_Return].
  erewrite bind_run; cycle 1.
  { apply when_error_Return. split; [|done].
    apply andb_false_iff. rewrite !bool_decide_eq_false.
    unfold bad_fun in Hf. apply not_and_l in Hf. done. }
  erewrite bind_run; [|by apply TYPEOF_Return].
  erewrite bind_run; cycle 1.
  { apply when_error_Return. split; [|done]. by apply bool_decide_eq_false. }
  erewrite bind_run; [|by apply inherits_Return].
  erewrite bind_run; cycle 1.
  { apply when_error_Return. split; [|done].
    apply negb_false_iff, bool_decide_eq_true. unfold bad_class in Hc.
    by apply dec_stable. }
  done.
  Unshelve. all: exact tt.
Qed.

Lemma arguments_of_argument_at h dots its i it :
  arguments_of h dots = Some its -> its !! i = Some it ->
  argument_at h dots (names_of h dots) i = Some it.
Proof.
  unfold arguments_of. intros H Hit.
  destruct (R.deref h dots) as [[]|]; try done.
  apply mapM_Some in H.
  destruct (Forall2_lookup_r _ _ _ _ _ H Hit) as (j & Hj & Harg).
  by apply lookup_seq in Hj as [-> _].
Qed.

Lemma element_lt h dots elts a i dot :
  R.deref h dots = Some (GenericVec elts a) ->
  element h dots i = Some dot -> (i < List.length elts)%nat.
Proof. unfold element. intros ->. apply lookup_lt_Some. Qed.

Lemma argument_at_element h dots names i it dot :
  argument_at h dots names i = Some it -> element h dots i = Some dot ->
  arg_dot it = dot /\
  lazy_parts h dot = Some (arg_expr it, arg_env it) /\
  name_at h names i = Some (arg_name it) /\
  valid_name (arg_name it).
Proof.
  unfold argument_at. intros H Hel. rewrite Hel in H. simpl in H.
  destruct (lazy_parts h dot) as [[e rho]|]; simpl in H; [|done].
  destruct (name_at h names i) as [c|]; simpl in H; [|done].
  case_decide; by simplify_eq.
Qed.

(** Everything a run on a valid input returns, slot by slot. *)
Lemma make_call_slots s fun_ dots :
  valid_input s fun_ dots ->
  exists r s' lr args slots elts a,
    make_call_ fun_ dots s = Return r s' /\
    r = Loc lr /\
    heap s' !! lr = Some (ConsCell CT_LANG fun_ args R_NilValue) /\
    pairlist_seg (heap s') R_NilValue args slots /\
    R.deref (heap s) dots = Some (GenericVec elts a) /\
    List.length slots = List.length elts /\
    (symtab_ok s -> symtab_ok s') /\
    forall i dot,
      element (heap s) dots i = Some dot ->
      exists e rho c lp lt,
        lazy_parts (heap s) dot = Some (e, rho) /\
        name_at (heap s) (names_of (heap s) dots) i = Some c /\
        slots !! i = Some (Loc lp, Loc lt) /\
        heap s' !! lp = Some (Promise e rho None) /\
        R_SymbolTable s' !! c = Some lt.
Proof.
  intros Hvalid.
  destruct (make_call_runs _ _ _ Hvalid) as (r & s' & Hrun).
  destruct (make_call_Return_inv _ _ _ _ _ Hrun)
    as (_ & its & slots & Hits & [(lr & args & -> & _ & Hcall & Hseg) _ _ Hok _] & Hslots & _).
  destruct Hvalid as (_ & _ & Hdots).
  destruct (R.deref (heap s) dots) as [[| | | | | | |elts a|]|] eqn:Hd; try done.
  pose proof (arguments_of_length _ _ _ _ _ Hd Hits) as Hlen.
  exists (Loc lr), s', lr, args, slots, elts, a.
  split; [done|]. split; [done|]. split; [done|]. split; [done|]. split; [done|].
  split; [by rewrite <- (Forall2_length _ _ _ Hslots)|]. split; [done|].
  intros i dot Hel.
  assert (i < List.length its)%nat as Hi.
  { rewrite Hlen. eapply element_lt; [|done]. done. }
  destruct (lookup_lt_is_Some_2 its i Hi) as [it Hit].
  pose proof (arguments_of_argument_at _ _ _ _ _ Hits Hit) as Harg.
  destruct (argument_at_element _ _ _ _ _ _ Harg Hel) as (_ & Hparts & Hname & _).
  destruct (Forall2_lookup_l _ _ _ _ _ Hslots Hit)
    as (slot & Hslot & (lp & lt & -> & _ & Hprom & Htag)).
  exists (arg_expr it), (arg_env it), (arg_name it), lp, lt. done.
Qed.

(** An element without a name that [Rf_install] accepts keeps the routine
    from returning: every name is read and installed, whatever it is. *)
Lemma make_call_needs_names s fun_ dots i dot :
  element (heap s) dots i = Some dot ->
  (forall c, name_at (heap s) (names_of (heap s) dots) i = Some c -> c = "") ->
  result_of (make_call_ fun_ dots s) = None.
Proof.
  intros Hel Hname.
  destruct (make_call_ fun_ dots s) as [r s'|msg s'] eqn:Hrun; [|done].
  exfalso.
  apply make_call_Return_inv in Hrun as ((_ & _ & Hdots) & its & slots & Hits & _).
  destruct (R.deref (heap s) dots) as [[| | | | | | |elts a|]|] eqn:Hd; try done.
  assert (i < List.length its)%nat as Hi.
  { rewrite (arguments_of_length _ _ _ _ _ Hd Hits). by eapply element_lt. }
  destruct (lookup_lt_is_Some_2 its i Hi) as [it Hit].
  pose proof (arguments_of_argument_at _ _ _ _ _ Hits Hit) as Harg.
  destruct (argument_at_element _ _ _ _ _ _ Harg Hel) as (_ & _ & Hc & [Hne _]).
  by apply Hname in Hc.
Qed.

(** ** Values *)

Lemma reprs_unfold h (vs : list value) (xs : list SEXP) :
  (fix reprs (vs : list value) (xs : list SEXP) : Prop :=
     match vs, xs with
     | [], [] => True
     | v :: vs', x :: xs' => repr h v x /\ reprs vs' xs'
     | _, _ => False
     end) vs xs <-> repr_list h vs xs.
Proof.
  unfold repr_list. revert xs. induction vs as [|v vs IH]; intros [|x xs]; simpl.
  - split; [constructor|done].
  - split; [done|inversion 1].
  - split; [done|inversion 1].
  - rewrite IH. split.
    + intros [? ?]. by constructor.
    + inversion 1; subst. done.
Qed.

Lemma repr_attrs_unfold h (va : list (string * value)) (xa : attributes) :
  (fix repr_attrs (va : list (string * value)) (xa : attributes) : Prop :=
     match va, xa with
     | [], [] => True
     | (k, v) :: va', (k', x) :: xa' => k = k' /\ repr h v x /\ repr_attrs va' xa'
     | _, _ => False
     end) va xa <-> repr_attrib h va xa.
Proof.
  unfold repr_attrib. revert xa.
  induction va as [|[k v] va IH]; intros [|[k' x] xa]; simpl.
  - split; [constructor|done].
  - split; [done|inversion 1].
  - split; [done|inversion 1].
  - rewrite IH. split.
    + intros (? & ? & ?). by constructor.
    + inversion 1 as [|? ? ? ? [? ?]]; subst. done.
Qed.

Lemma repr_V_strings h velts vattrib x :
  repr h (V_strings velts vattrib) x <->
  exists elts attrib,
    R.deref h x = Some (StringVec elts attrib) /\
    repr_list h velts elts /\ repr_attrib h vattrib attrib.
Proof.
  simpl. by setoid_rewrite reprs_unfold; setoid_rewrite repr_attrs_unfold.
Qed.

Lemma repr_V_list h velts vattrib x :
  repr h (V_list velts vattrib) x <->
  exists elts attrib,
    R.deref h x = Some (GenericVec elts attrib) /\
    repr_list h velts elts /\ repr_attrib h vattrib attrib.
Proof.
  simpl. by setoid_rewrite reprs_unfold; setoid_rewrite repr_attrs_unfold.
Qed.

Lemma repr_V_atomic h ty data vattrib x :
  repr h (V_atomic ty data vattrib) x <->
  exists attrib,
    R.deref h x = Some (Atomic ty data attrib) /\ repr_attrib h vattrib attrib.
Proof. simpl. by setoid_rewrite repr_attrs_unfold. Qed.

Lemma deref_app_l h new x c :
  R.deref h x = Some c -> R.deref (h ++ new) x = Some c.
Proof. destruct x; simpl; [done|]. apply lookup_app_l_Some. Qed.

(** A value of the old heap is the same value in the grown heap. *)
Lemma repr_grow h new v : forall x, repr h v x -> repr (h ++ new) v x.
Proof.
  induction v as [ | pname | ty vcar vcdr vtag IHcar IHcdr IHtag
                 | vf vb ve IHf IHb IHe | l | vcode venv vval IHcode IHenv IHval
                 | chars | velts vattrib IHelts IHattrib
                 | velts vattrib IHelts IHattrib | ty data vattrib IHattrib ]
    using value_rect'; intros x.
  - done.
  - simpl. apply deref_app_l.
  - simpl. intros (car & cdr & tag & Hx & Hcar & Hcdr & Htag).
    exists car, cdr, tag. split; [by apply deref_app_l|]. auto.
  - simpl. intros (f & b & e & Hx & Hf & Hb & He).
    exists f, b, e. split; [by apply deref_app_l|]. auto.
  - simpl. intros [-> Hl]. split; [done|]. by apply lookup_app_l_Some.
  - simpl. intros (code & env & val & Hx & Hcode & Henv & Hval).
    exists code, env, val. split; [by apply deref_app_l|]. split; [auto|]. split; [auto|].
    destruct vval as [v'|], val as [x'|]; simpl in *; try done. by apply IHval.
  - simpl. apply deref_app_l.
  - rewrite !repr_V_strings. intros (elts & attrib & Hx & Helts & Hattrib).
    exists elts, attrib. split; [by apply deref_app_l|]. split.
    + unfold repr_list in *. clear -IHelts Helts.
      induction Helts as [|v y vs ys Hv _ IH]; [constructor|].
      apply Forall_cons in IHelts as [Hv' Hvs]. constructor; auto.
    + unfold repr_attrib in *. clear -IHattrib Hattrib.
      induction Hattrib as [|kv kx va xa [Hk Hv] _ IH]; [constructor|].
      apply Forall_cons in IHattrib as [Hv' Hvs]. constructor; auto.
  - rewrite !repr_V_list. intros (elts & attrib & Hx & Helts & Hattrib).
    exists elts, attrib. split; [by apply deref_app_l|]. split.
    + unfold repr_list in *. clear -IHelts Helts.
      induction Helts as [|v y vs ys Hv _ IH]; [constructor|].
      apply Forall_cons in IHelts as [Hv' Hvs]. constructor; auto.
    + unfold repr_attrib in *. clear -IHattrib Hattrib.
      induction Hattrib as [|kv kx va xa [Hk Hv] _ IH]; [constructor|].
      apply Forall_cons in IHattrib as [Hv' Hvs]. constructor; auto.
  - rewrite !repr_V_atomic. intros (attrib & Hx & Hattrib).
    exists attrib. split; [by apply deref_app_l|].
    unfold repr_attrib in *. clear -IHattrib Hattrib.
    induction Hattrib as [|kv kx va xa [Hk Hv] _ IH]; [constructor|].
    apply Forall_cons in IHattrib as [Hv' Hvs]. constructor; auto.
Qed.

Lemma repr_grows s s' v x : grows s s' -> repr (heap s) v x -> repr (heap s') v x.
Proof. intros [(new & -> & _) _ _ _]. apply repr_grow. Qed.

Lemma repr_attrib_lookup h va xa name x :
  repr_attrib h va xa -> attr_lookup name xa = Some x ->
  exists v, attr_lookup_value name va = Some v /\ repr h v x.
Proof.
  unfold repr_attrib. induction 1 as [|[k v] [k' y] va xa [Hk Hv] _ IH]; simpl; [done|].
  simpl in Hk. subst k'. case_decide; [|done].
  intros [= ->]. eauto.
Qed.

Ltac wrong_kind Hv Hx :=
  simpl in Hv;
  repeat match type of Hv with
         | ex _ => destruct Hv as [? Hv]
         | _ /\ _ => let H := fresh in destruct Hv as [H Hv]
         end;
  subst; simpl in *; congruence.

Lemma repr_GenericVec h v x elts a :
  repr h v x -> R.deref h x = Some (GenericVec elts a) ->
  exists velts va, v = V_list velts va /\ repr_list h velts elts /\ repr_attrib h va a.
Proof.
  intros Hv Hx. destruct v; try (by wrong_kind Hv Hx).
  apply repr_V_list in Hv as (elts' & a' & Hx' & He & Ha).
  rewrite Hx in Hx'. simplify_eq. eauto.
Qed.

Lemma repr_StringVec h v x elts a :
  repr h v x -> R.deref h x = Some (StringVec elts a) ->
  exists velts va, v = V_strings velts va /\ repr_list h velts elts /\ repr_attrib h va a.
Proof.
  intros Hv Hx. destruct v; try (by wrong_kind Hv Hx).
  apply repr_V_strings in Hv as (elts' & a' & Hx' & He & Ha).
  rewrite Hx in Hx'. simplify_eq. eauto.
Qed.

Lemma repr_CharSxp h v x c :
  repr h v x -> R.deref h x = Some (CharSxp c) -> v = V_char c.
Proof.
  intros Hv Hx. destruct v; by wrong_kind Hv Hx.
Qed.

(** ** The run against the call it should build *)

Lemma pairlist_seg_nil_inv h args : pairlist_seg h R_NilValue args [] -> args = R_NilValue.
Proof. by inversion 1. Qed.

Lemma args_value_repr h h' (st' : gmap string nat) (its : list argument) :
  (forall v x, repr h v x -> repr h' v x) ->
  (forall c l, st' !! c = Some l -> h' !! l = Some (Symbol c)) ->
  forall elts nms velts vnames slots args,
    Forall2 (fun it elt => lazy_parts h elt = Some (arg_expr it, arg_env it)) its elts ->
    Forall2 (fun it nm => R.char_of h nm = Some (arg_name it)) its
            (take (List.length its) nms) ->
    repr_list h velts elts -> repr_list h vnames nms ->
    Forall2 (fun it slot => exists lp lt,
               slot = (Loc lp, Loc lt) /\
               h' !! lp = Some (Promise (arg_expr it) (arg_env it) None) /\
               st' !! arg_name it = Some lt) its slots ->
    pairlist_seg h' R_NilValue args slots ->
    exists vargs, args_value velts vnames = Some vargs /\ repr h' vargs args.
Proof.
  intros Hgrow Hsym.
  induction its as [|it its IH]; intros elts nms velts vnames slots args
    Helts Hnms Hvelts Hvnames Hslots Hseg.
  - apply Forall2_nil_inv_l in Helts as ->. apply Forall2_nil_inv_r in Hvelts as ->.
    apply Forall2_nil_inv_l in Hslots as ->.
    apply pairlist_seg_nil_inv in Hseg as ->. by exists V_nil.
  - apply Forall2_cons_inv_l in Helts as (elt & elts' & Hparts & Helts & ->).
    apply Forall2_cons_inv_r in Hvelts as (velt & velts' & Hvelt & Hvelts & ->).
    apply Forall2_cons_inv_l in Hslots
      as (slot & slots' & (lp & lt & -> & Hprom & Htag) & Hslots & ->).
    destruct nms as [|nm nms]; [by inversion Hnms|]. simpl in Hnms.
    apply Forall2_cons_1 in Hnms as [Hc Hnms].
    apply Forall2_cons_inv_r in Hvnames as (vname & vnames' & Hvname & Hvnames & ->).
    inversion Hseg as [|l car cdr tag slots0 Hcell Hseg' Hl]; subst.
    destruct (IH _ _ _ _ _ _ Helts Hnms Hvelts Hvnames Hslots Hseg')
      as (vrest & Hrest & Hvrest).
    unfold lazy_parts in Hparts.
    destruct (R.deref h elt) as [[| | | | | | |[|e [|rho rest]] a|]|] eqn:Helt;
      simplify_eq/=.
    destruct (repr_GenericVec _ _ _ _ _ Hvelt Helt) as (vs & va & -> & Hvs & _).
    apply Forall2_cons_inv_r in Hvs as (ve & vs' & Hve & Hvs & ->).
    apply Forall2_cons_inv_r in Hvs as (vrho & vs'' & Hvrho & _ & ->).
    unfold R.char_of in Hc.
    destruct (R.deref h nm) as [[]|] eqn:Hnm; simplify_eq/=.
    rewrite (repr_CharSxp _ _ _ _ Hvname Hnm). simpl. rewrite Hrest. simpl.
    eexists. split; [done|]. simpl.
    exists (Loc lp), cdr, (Loc lt). split; [done|]. split; [|split; [done|]].
    + exists (arg_expr it), (arg_env it), None. simpl. auto.
    + simpl. eauto.
Qed.

Lemma arguments_of_elements h dots elts a its :
  R.deref h dots = Some (GenericVec elts a) ->
  arguments_of h dots = Some its ->
  Forall2 (fun it elt => lazy_parts h elt = Some (arg_expr it, arg_env it)) its elts.
Proof.
  intros Hd Hits. apply Forall2_same_length_lookup. split.
  - by eapply arguments_of_length.
  - intros i it elt Hit Helt.
    pose proof (arguments_of_argument_at _ _ _ _ _ Hits Hit) as Harg.
    destruct it as [dot e rho c].
    apply iteration_inputs_argument in Harg
      as (_ & (elts' & a' & Hd' & Hdot) & (rest & ad & Hlazy) & _).
    rewrite Nat2Z.id in Hdot. simplify_eq/=.
    unfold lazy_parts. by rewrite Hlazy.
Qed.

Lemma arguments_of_names h dots its :
  arguments_of h dots = Some its -> its <> [] ->
  exists nms na,
    R.deref h (names_of h dots) = Some (StringVec nms na) /\
    Forall2 (fun it nm => R.char_of h nm = Some (arg_name it)) its
            (take (List.length its) nms).
Proof.
  intros Hits Hne.
  assert (forall i it, its !! i = Some it ->
            exists nms na nm,
              R.deref h (names_of h dots) = Some (StringVec nms na) /\
              nms !! i = Some nm /\ R.char_of h nm = Some (arg_name it)) as Hnames.
  { intros i it Hit.
    pose proof (arguments_of_argument_at _ _ _ _ _ Hits Hit) as Harg.
    destruct it as [dot e rho c].
    apply iteration_inputs_argument in Harg
      as (_ & _ & _ & (nms & na & nm & Hn & Hnm & Hc) & _).
    rewrite Nat2Z.id in Hnm. eauto 10. }
  destruct its as [|it0 its0] eqn:Eits; [done|]. rewrite <- Eits in *.
  destruct (Hnames 0%nat it0) as (nms & na & _ & Hn & _); [by rewrite Eits|].
  exists nms, na. split; [done|].
  assert (List.length its <= List.length nms)%nat as Hle.
  { destruct (lookup_lt_is_Some_2 its (List.length its - 1)) as [it Hit].
    { rewrite Eits. simpl. lia. }
    destruct (Hnames _ _ Hit) as (nms' & na' & nm & Hn' & Hnm & _).
    rewrite Hn in Hn'. simplify_eq. apply lookup_lt_Some in Hnm. lia. }
  apply Forall2_same_length_lookup. split.
  - rewrite length_take. lia.
  - intros i it nm Hit Hnm.
    destruct (Hnames _ _ Hit) as (nms' & na' & nm' & Hn' & Hnm' & Hc).
    rewrite Hn in Hn'. simplify_eq.
    rewrite lookup_take_lt in Hnm by (by eapply lookup_lt_Some). congruence.
Qed.

Lemma make_call_refines s fun_ dots vf vd r s' :
  repr (heap s) vf fun_ -> repr (heap s) vd dots -> symtab_ok s ->
  make_call_ fun_ dots s = Return r s' ->
  exists v, call_value vf vd = Some v /\ repr (heap s') v r.
Proof.
  intros Hvf Hvd Hok Hrun.
  destruct (make_call_Return_inv _ _ _ _ _ Hrun)
    as (Hvalid & its & slots & Hits
        & [(lr & args & -> & _ & Hcall & Hseg) _ Hgrows Hok' _] & Hslots & _).
  specialize (Hok' Hok).
  destruct Hvalid as (_ & _ & Hdots).
  destruct (R.deref (heap s) dots) as [[| | | | | | |elts a|]|] eqn:Hd; try done.
  destruct (repr_GenericVec _ _ _ _ _ Hvd Hd) as (velts & va & -> & Hvelts & Hva).
  pose proof (arguments_of_elements _ _ _ _ _ Hd Hits) as Helts.
  assert (exists vargs,
             match velts with
             | [] => Some V_nil
             | _ => match attr_lookup_value "names" va with
                    | Some (V_strings vnames _) => args_value velts vnames
                    | _ => None
                    end
             end = Some vargs /\ repr (heap s') vargs args) as (vargs & Hvargs & Hrepr).
  { destruct its as [|it0 its0] eqn:Eits.
    - apply Forall2_nil_inv_l in Helts as ->. apply Forall2_nil_inv_r in Hvelts as ->.
      apply Forall2_nil_inv_l in Hslots as ->.
      apply pairlist_seg_nil_inv in Hseg as ->. by exists V_nil.
    - rewrite <- Eits in *.
      destruct (arguments_of_names _ _ _ Hits) as (nms & na & Hn & Hnms);
        [by rewrite Eits|].
      unfold names_of in Hn. rewrite Hd in Hn. simpl in Hn.
      destruct (attr_lookup "names" a) as [names|] eqn:Hattr; [|done]. simpl in Hn.
      destruct (repr_attrib_lookup _ _ _ _ _ Hva Hattr) as (vn & Hvn & Hreprn).
      destruct (repr_StringVec _ _ _ _ _ Hreprn Hn) as (vnames & vna & -> & Hvnames & _).
      rewrite Hvn.
      assert (velts <> []) as Hne.
      { intros ->. apply Forall2_nil_inv_l in Hvelts as ->.
        apply Forall2_nil_inv_r in Helts. by rewrite Eits in Helts. }
      destruct velts as [|velt velts']; [done|].
      eapply (args_value_repr (heap s) (heap s') (R_SymbolTable s')); eauto.
      + intros v x. by apply repr_grows.
      + eapply Forall2_impl; [exact Hslots|].
        intros it slot (lp & lt & -> & _ & Hp & Ht). eauto. }
  exists (V_cons CT_LANG vf vargs V_nil). split.
  - unfold call_value. destruct velts; [by simplify_eq|].
    destruct (attr_lookup_value "names" va) as [[]|]; try done.
    by rewrite Hvargs.
  - simpl. exists fun_, args, R_NilValue. split; [done|]. split; [|done].
    by eapply repr_grows.
Qed.

(** ** Forcing the promises of the call *)

Section forcing.
Variable eval_code : SEXP -> SEXP -> state -> SEXP.

Lemma nthcdr_seg t stop x slots i car tag :
  pairlist_seg (heap t) stop x slots -> slots !! i = Some (car, tag) ->
  exists l cdr,
    nthcdr x i t = Return (Loc l) t /\
    heap t !! l = Some (ConsCell CT_LIST car cdr tag).
Proof.
  intros Hseg. revert i.
  induction Hseg as [|l car' cdr' tag' slots Hl Hseg IH]; intros i Hi; [done|].
  destruct i as [|i]; simpl in *.
  - simplify_eq. eauto.
  - destruct (IH _ Hi) as (l' & cdr & Hrun & Hcell).
    exists l', cdr. split; [|done].
    unfold bind, CDR. by rewrite Hl.
Qed.

Lemma pairlist_seg_insert h stop x slots l c c' :
  h !! l = Some c ->
  (forall ty car cdr tag, c <> ConsCell ty car cdr tag) ->
  pairlist_seg h stop x slots -> pairlist_seg (<[l := c']> h) stop x slots.
Proof.
  intros Hl Hc. induction 1 as [|l0 car cdr tag slots Hl0 _ IH]; [constructor|].
  econstructor; [|done].
  rewrite list_lookup_insert_ne; [done|]. intros ->. rewrite Hl in Hl0.
  simplify_eq. by eapply Hc.
Qed.

Lemma argument_value_step its slots seen cache fun_ call t i :
  forcing_inv its slots seen cache fun_ call t ->
  (i < List.length its)%nat ->
  exists v t',
    argument_value eval_code call i t = Return v t' /\
    forcing_inv its slots (if decide (i ∈ seen) then seen else i :: seen)
      (<[i := v]> cache) fun_ call t' /\
    (i ∈ seen -> t' = t /\ cache !! i = Some v) /\
    (i ∉ seen -> exists it ev,
        its !! i = Some it /\
        v = eval_code (arg_expr it) (arg_env it) t /\
        forced_event its slots i = Some ev /\
        trace t' = trace t ++ [ev]).
Proof.
  intros [(args & Hcall & Hseg) Hproms Hseen Hnodup Hlen] Hi.
  destruct (lookup_lt_is_Some_2 its i Hi) as [it Hit].
  destruct (lookup_lt_is_Some_2 slots i) as [[car tag] Hslot]; [lia|].
  destruct (Hproms _ _ _ Hit Hslot) as (lp & Hcar & Hprom). simpl in Hcar. subst car.
  destruct (nthcdr_seg _ _ _ _ _ _ _ Hseg Hslot) as (l & cdr & Hnth & Hcell).
  assert (exists lc, call = Loc lc /\
            heap t !! lc = Some (ConsCell CT_LANG fun_ args R_NilValue)) as (lc & -> & Hlc).
  { destruct call; simpl in Hcall; [done|eauto]. }
  unfold argument_value.
  erewrite bind_run; [|by unfold CDR; rewrite Hlc].
  rewrite (bind_run _ _ _ _ _ Hnth).
  erewrite bind_run; [|by unfold CAR; rewrite Hcell].
  unfold forcePromise. rewrite Hprom.
  destruct (cache !! i) as [v|] eqn:Hcache.
  - (* forced before: the stored value *)
    assert (i ∈ seen) as Hin by (apply Hseen; eauto).
    exists v, t. split; [done|]. rewrite decide_True by done.
    split; [|split; [done|done]].
    rewrite insert_id by done. split; eauto.
  - (* first use: evaluate, store *)
    assert (i ∉ seen) as Hnotin.
    { intros Hin%Hseen. rewrite Hcache in Hin. by destruct Hin. }
    eexists _, _. split; [done|]. rewrite decide_False by done.
    split; [|split; [done|]].
    + destruct t as [h st pp sz tr]. norm_state. split; norm_state.
      * exists args. split.
        -- simpl. rewrite list_lookup_insert_ne; [done|].
           intros ->. rewrite Hprom in Hlc. done.
        -- eapply pairlist_seg_insert; [done| |done]. done.
      * intros j jt jslot Hjt Hjslot.
        destruct (Hproms _ _ _ Hjt Hjslot) as (lq & Hq & Hqprom).
        exists lq. split; [done|].
        destruct (decide (j = i)) as [->|Hji].
        -- rewrite Hslot in Hjslot. rewrite Hit in Hjt. simplify_eq/=.
           rewrite lookup_insert_eq.
           rewrite list_lookup_insert_eq; [done|]. by eapply lookup_lt_Some.
        -- rewrite lookup_insert_ne by done.
           rewrite list_lookup_insert_ne; [done|].
           intros ->. apply Hji.
           eapply (NoDup_lookup _ _ _ (Loc lq) Hnodup);
             rewrite list_lookup_fmap.
           ++ by rewrite Hjslot; simpl; rewrite Hq.
           ++ by rewrite Hslot.
      * intros j. rewrite elem_of_cons, Hseen.
        destruct (decide (j = i)) as [->|Hji].
        -- rewrite lookup_insert_eq. split; eauto.
        -- rewrite lookup_insert_ne by done. split; [intros [?|?]; done|auto].
      * done.
      * done.
    + intros _. unfold forced_event. rewrite Hit, Hslot. simpl.
      eexists _, _. split; [done|]. split; [done|]. split; [done|]. by norm_state.
Qed.

Lemma argument_values_run its slots fun_ call accesses :
  Forall (fun i => i < List.length its)%nat accesses ->
  forall seen cache t,
    forcing_inv its slots seen cache fun_ call t ->
    cache_sound eval_code its cache ->
    exists vals t' cache' evs,
      argument_values eval_code call accesses t = Return vals t' /\
      cache ⊆ cache' /\
      cache_sound eval_code its cache' /\
      mapM (forced_event its slots) (first_uses seen accesses) = Some evs /\
      trace t' = trace t ++ evs /\
      Forall2 (fun i v => cache' !! i = Some v) accesses vals.
Proof.
  induction 1 as [|i accesses Hi _ IH]; intros seen cache t Hinv Hsound; simpl.
  - exists [], t, cache, []. rewrite app_nil_r. done.
  - destruct (argument_value_step _ _ _ _ _ _ _ _ Hinv Hi)
      as (v & t1 & Hrun & Hinv1 & Hseen & Hnew).
    assert (cache_sound eval_code its (<[i := v]> cache)) as Hsound1.
    { intros j w. destruct (decide (j = i)) as [->|Hji].
      - rewrite lookup_insert_eq. intros [= <-].
        destruct (decide (i ∈ seen)) as [Hin|Hnotin].
        + destruct (Hseen Hin) as [_ Hc]. by apply Hsound in Hc.
        + destruct (Hnew Hnotin) as (it & ev & Hit & -> & _). eauto.
      - rewrite lookup_insert_ne by done. apply Hsound. }
    destruct (IH _ _ _ Hinv1 Hsound1)
      as (vals & t' & cache' & evs & Hruns & Hsub & Hsound' & Hevs & Htr & Hvals).
    rewrite (bind_run _ _ _ _ _ Hrun), (bind_run _ _ _ _ _ Hruns).
    assert (cache' !! i = Some v) as Hv.
    { eapply lookup_weaken; [|done]. apply lookup_insert_eq. }
    destruct (decide (i ∈ seen)) as [Hin|Hnotin].
    + destruct (Hseen Hin) as [-> Hc].
      exists (v :: vals), t', cache', evs. split; [done|]. split.
      { rewrite insert_id in Hsub by done. done. }
      split; [done|]. split; [done|]. split; [done|]. by constructor.
    + destruct (Hnew Hnotin) as (it & ev & _ & _ & Hev & Htr1).
      exists (v :: vals), t', cache', (ev :: evs). split; [done|]. split.
      { etrans; [|done]. apply insert_subseteq.
        destruct (cache !! i) eqn:E; [|done].
        exfalso. apply Hnotin. apply (fi_seen _ _ _ _ _ _ _ Hinv). eauto. }
      split; [done|].
      split; [by simpl; rewrite Hev; simpl; rewrite Hevs|].
      split; [by rewrite Htr, Htr1, <- (assoc_L (++))|]. by constructor.
Qed.
End forcing.

Lemma first_uses_fresh seen accesses i :
  i ∈ first_uses seen accesses -> i ∉ seen.
Proof.
  revert seen. induction accesses as [|j accesses IH]; intros seen; simpl; [by inversion 1|].
  case_decide as Hj.
  - apply IH.
  - intros [->|Hi]%elem_of_cons; [done|].
    apply IH in Hi. intros Hin. apply Hi. by right.
Qed.

Lemma NoDup_first_uses seen accesses : NoDup (first_uses seen accesses).
Proof.
  revert seen. induction accesses as [|j accesses IH]; intros seen; simpl; [constructor|].
  case_decide; [done|]. constructor; [|done].
  intros Hj%first_uses_fresh. apply Hj. by left.
Qed.

Lemma make_call_forcing_inv s fun_ dots call s' :
  make_call_ fun_ dots s = Return call s' ->
  exists its slots,
    arguments_of (heap s) dots = Some its /\
    forcing_inv its slots [] ∅ fun_ call s'.
Proof.
  intros Hrun.
  destruct (make_call_Return_inv _ _ _ _ _ Hrun)
    as (_ & its & slots & Hits
        & [(lr & args & -> & _ & Hcall & Hseg) Hnodup _ _ _] & Hslots & _).
  exists its, slots. split; [done|]. split.
  - exists args. done.
  - intros i it slot Hit Hslot.
    destruct (Forall2_lookup_lr _ _ _ _ _ _ Hslots Hit Hslot)
      as (lp & lt & -> & _ & Hprom & _).
    exists lp. by rewrite lookup_empty.
  - intros i. rewrite lookup_empty. split; [by inversion 1|by intros [? ?]].
  - done.
  - symmetry. by eapply Forall2_length.
Qed.

(** ** What the loop allocates, interns and protects *)

Lemma iteration_result_accounts dots names i args dot e rho c s r s' :
  (r, s') = iteration_result dots names i args dot e rho c s ->
  (is_Some (R_SymbolTable s !! c) /\ R_SymbolTable s' = R_SymbolTable s /\
   List.length (heap s') = (List.length (heap s) + 2)%nat) \/
  (R_SymbolTable s !! c = None /\
   R_SymbolTable s' = <[c := S (S (List.length (heap s)))]> (R_SymbolTable s) /\
   List.length (heap s') = (List.length (heap s) + 3)%nat).
Proof.
  destruct s as [h st pp sz tr]. unfold iteration_result, interned. norm_state.
  destruct (st !! c) as [t|] eqn:Ht; intros [= -> ->]; norm_state.
  - left. split; [eauto|]. split; [done|].
    rewrite length_insert, !length_app. simpl. lia.
  - right. split; [done|]. split.
    + rewrite !length_app. simpl.
      by replace (List.length h + 1 + 1)%nat with (S (S (List.length h))) by lia.
    + rewrite length_insert, !length_app. simpl. lia.
Qed.

Lemma iteration_inputs_name h dots names (k : nat) dot e rho c :
  iteration_inputs h dots names (Z.of_nat k) dot e rho c ->
  name_at h names k = Some c.
Proof.
  intros (_ & _ & _ & (nms & a & nm & Hn & Hnm & Hc) & _).
  unfold name_at. rewrite Hn. rewrite Nat2Z.id in Hnm. by rewrite Hnm.
Qed.

(** A completed run of [k] iterations: the argument list it has built, the
    pointers it has left on the protection stack (the promises of the
    slots, in the order of the slots), the cells it has allocated (two per
    iteration, and one more for each of the [d] names it has interned) and
    the names it has added to the symbol table. *)
Lemma make_call_loop_accounts k : forall dots names args s r s',
  make_call_loop dots names k args s = Return r s' ->
  exists slots d,
    pairlist_seg (heap s') args r slots /\
    List.length slots = k /\
    R_PPStack s' = slots.*1 ++ R_PPStack s /\
    Forall (fun p => exists lp e rho,
              p = Loc lp /\ (List.length (heap s) <= lp)%nat /\
              heap s' !! lp = Some (Promise e rho None)) slots.*1 /\
    (d <= k)%nat /\
    List.length (heap s') = (List.length (heap s) + 2 * k + d)%nat /\
    size (R_SymbolTable s') = (size (R_SymbolTable s) + d)%nat /\
    (forall c, is_Some (R_SymbolTable s' !! c) ->
       is_Some (R_SymbolTable s !! c) \/
       exists i, (i < k)%nat /\ name_at (heap s) names i = Some c).
Proof.
  induction k as [|k IH]; intros dots names args s r s' H; simpl in H.
  - apply ret_Return in H as [<- <-]. exists [], 0%nat.
    split; [constructor|]. split; [done|]. split; [done|]. split; [constructor|].
    split; [done|]. split; [lia|]. split; [lia|]. auto.
  - apply bind_Return in H as (a1 & s1 & Hit & Hloop).
    apply make_call_iteration_Return in Hit as (dot & e & rho & c & Hin & Hroom & Hres).
    pose proof (iteration_inputs_name _ _ _ _ _ _ _ _ Hin) as Hname.
    pose proof (iteration_result_accounts _ _ _ _ _ _ _ _ _ _ _ Hres) as Hacc.
    apply iteration_result_spec in Hres
      as (-> & (t & symnew & Hheap1 & Hsymnew & Ht & _) & Hsub1 & _ & Hpp1 & _).
    pose proof (make_call_loop_returns _ _ _ _ _ _ _ Hloop) as [(new & Hheap & Hnew) _ _ _].
    apply IH in Hloop
      as (slots & d & Hseg & Hlen & Hpp & Hproms & Hd & Hcells & Hsize & Hdom).
    assert (Forall (fun c => fresh_kind c = true)
              ([Promise e rho None;
                ConsCell CT_LIST (Loc (List.length (heap s))) args (Loc t)] ++ symnew))
      as Hfresh1.
    { apply Forall_app. split; [by repeat constructor|done]. }
    exists (slots ++ [(Loc (List.length (heap s)), Loc t)]).
    exists (match R_SymbolTable s !! c with Some _ => d | None => S d end).
    split; [|split; [|split; [|split; [|split; [|split; [|split]]]]]].
    + eapply pairlist_seg_app; [done|].
      econstructor; [|constructor].
      rewrite Hheap, Hheap1. apply lookup_app_l_Some.
      rewrite lookup_app_r by lia.
      by replace (S (List.length (heap s)) - List.length (heap s))%nat with 1%nat by lia.
    + rewrite length_app. simpl. lia.
    + by rewrite fmap_app, Hpp, Hpp1, <- (assoc_L (++)).
    + rewrite fmap_app. apply Forall_app. split.
      * eapply Forall_impl; [done|].
        intros p (lp & e' & rho' & -> & Hge & Hp). exists lp, e', rho'.
        split; [done|]. split; [|done]. rewrite Hheap1, length_app in Hge. lia.
      * constructor; [|constructor]. exists (List.length (heap s)), e, rho.
        split; [done|]. split; [lia|].
        rewrite Hheap, Hheap1. apply lookup_app_l_Some.
        rewrite lookup_app_r by lia.
        by replace (List.length (heap s) - List.length (heap s))%nat with 0%nat by lia.
    + destruct (R_SymbolTable s !! c); lia.
    + destruct Hacc as [([l Hl] & _ & Hl1) | (Hnone & _ & Hl1)].
      * rewrite Hl. lia.
      * rewrite Hnone. lia.
    + destruct Hacc as [([l Hl] & Hst & _) | (Hnone & Hst & _)].
      * rewrite Hl, Hsize, Hst. lia.
      * rewrite Hnone, Hsize, Hst, map_size_insert_None by done. lia.
    + intros c' Hc'. destruct (Hdom c' Hc') as [Hin1 | (i & Hi & Hnm)].
      * destruct Hacc as [(_ & Hst & _) | (Hnone & Hst & _)].
        -- left. by rewrite <- Hst.
        -- rewrite Hst in Hin1. apply lookup_insert_is_Some in Hin1 as [<- | [_ Hin1]].
           ++ right. exists k. split; [lia|done].
           ++ by left.
      * right. exists i. split; [lia|].
        by rewrite Hheap1, name_at_app_fresh in Hnm.
Qed.

(** A completed run of [make_call_], cut at the loop: the checks and
    [GET_NAMES] change neither the heap, the symbol table nor the
    protection stack; the loop runs over all the elements; [UNPROTECT] pops
    one pointer per element and [LCONS] allocates the call. *)
Lemma make_call_Return_loop fun_ dots s r s' :
  make_call_ fun_ dots s = Return r s' ->
  exists elts a s0 args s2,
    R.deref (heap s) dots = Some (GenericVec elts a) /\
    heap s0 = heap s /\ R_SymbolTable s0 = R_SymbolTable s /\
    R_PPStack s0 = R_PPStack s /\
    make_call_loop dots (names_of (heap s) dots) (List.length elts) R_NilValue s0
      = Return args s2 /\
    r = Loc (List.length (heap s2)) /\
    heap s' = heap s2 ++ [ConsCell CT_LANG fun_ args R_NilValue] /\
    R_SymbolTable s' = R_SymbolTable s2 /\
    R_PPStack s' = drop (List.length elts) (R_PPStack s2).
Proof.
  unfold make_call_. intros H.
  apply bind_Return in H as (tf & s1 & Htf & H).
  apply TYPEOF_Return in Htf as [Htf ->].
  apply bind_Return in H as (u1 & s1 & Hc1 & H).
  apply when_error_Return in Hc1 as [Hc1 ->].
  apply bind_Return in H as (td & s1 & Htd & H).
  apply TYPEOF_Return in Htd as [Htd ->].
  apply bind_Return in H as (u2 & s1 & Hc2 & H).
  apply when_error_Return in Hc2 as [Hc2 ->].
  apply bind_Return in H as (cls & s1 & Hcls & H).
  apply inherits_Return in Hcls as [-> ->].
  apply bind_Return in H as (u3 & s1 & Hc3 & H).
  apply when_error_Return in Hc3 as [Hc3 ->].
  apply bind_Return in H as (n & s1 & Hn & H).
  apply bool_decide_eq_false in Hc2. apply dec_stable in Hc2. subst td.
  apply typeof_VECSXP in Htd as (elts & a & Hdots).
  rewrite (length_GenericVec _ elts a) in Hn by (by autorewrite with state).
  destruct (decide (Z.of_nat (List.length elts) <= R.INT_MAX)) as [Hlen|Hlen]; [|done].
  injection Hn as <- <-.
  exists elts, a.
  destruct (decide (Z.of_nat (List.length elts) = 0)) as [Hn0|Hn0].
  - assert (elts = []) as -> by (destruct elts; [done|simpl in Hn0; lia]).
    exists (record (Call_inherits dots "lazy_dots") s), R_NilValue,
           (record (Call_inherits dots "lazy_dots") s).
    injection H as <- <-.
    destruct s as [h st pp sz tr]. norm_state. done.
  - apply bind_Return in H as (names & s1 & Hnm & H).
    rewrite (GET_NAMES_GenericVec _ elts a) in Hnm by (by autorewrite with state).
    injection Hnm as <- <-.
    apply bind_Return in H as (args & s2 & Hloop & H).
    apply bind_Return in H as (u4 & s3 & Hunp & H).
    apply UNPROTECT_Return in Hunp as [_ ->].
    injection H as <- <-.
    rewrite Nat2Z.id in *. autorewrite with state in Hloop.
    exists (record (Call_GET_NAMES dots) (record (Call_inherits dots "lazy_dots") s)),
           args, s2.
    split; [done|]. autorewrite with state.
    destruct s2 as [h2 st2 pp2 sz2 tr2]. norm_state. done.
Qed.

Lemma argument_at_name h dots names i it :
  argument_at h dots names i = Some it -> name_at h names i = Some (arg_name it).
Proof.
  unfold argument_at. intros H.
  destruct (element h dots i) as [dot|]; simpl in H; [|done].
  destruct (lazy_parts h dot) as [[e rho]|]; simpl in H; [|done].
  destruct (name_at h names i) as [c|]; simpl in H; [|done].
  case_decide; by simplify_eq.
Qed.

Lemma element_is_Some h dots elts a i :
  R.deref h dots = Some (GenericVec elts a) ->
  is_Some (element h dots i) <-> (i < List.length elts)%nat.
Proof. unfold element. intros ->. apply lookup_lt_is_Some. Qed.

(** The cells and the symbol-table entries of a completed run: two cells
    per element and one for the call, and one more cell for each of the [d]
    names that were not in the symbol table. *)
Lemma make_call_accounts fun_ dots s r s' :
  make_call_ fun_ dots s = Return r s' ->
  exists elts a d,
    R.deref (heap s) dots = Some (GenericVec elts a) /\
    (d <= List.length elts)%nat /\
    List.length (heap s') = (List.length (heap s) + 2 * List.length elts + 1 + d)%nat /\
    size (R_SymbolTable s') = (size (R_SymbolTable s) + d)%nat /\
    R_SymbolTable s ⊆ R_SymbolTable s' /\
    (forall c, is_Some (R_SymbolTable s' !! c) ->
       is_Some (R_SymbolTable s !! c) \/
       exists i, (i < List.length elts)%nat /\
                 name_at (heap s) (names_of (heap s) dots) i = Some c).
Proof.
  intros Hrun.
  pose proof (make_call_returns _ _ _ _ _ Hrun) as [_ Hsub _ _].
  apply make_call_Return_loop in Hrun
    as (elts & a & s0 & args & s2 & Hd & Hh0 & Ht0 & _ & Hloop & _ & Hheap & Hst & _).
  apply make_call_loop_accounts in Hloop
    as (slots & d & _ & _ & _ & _ & Hle & Hcells & Hsize & Hdom).
  exists elts, a, d. split; [done|]. split; [done|].
  rewrite Hheap, Hst, length_app, Hcells, Hsize, Hh0, Ht0. simpl.
  split; [lia|]. split; [done|]. split; [by rewrite <- Hst|].
  intros c Hc. rewrite Ht0, Hh0 in Hdom. by apply Hdom.
Qed.

(** ** Valid inputs seen through a grown heap *)

Lemma typeof_app_l h new x t :
  R.typeof h x = Some t -> R.typeof (h ++ new) x = Some t.
Proof.
  destruct x as [|l]; simpl; [done|].
  destruct (h !! l) as [c|] eqn:E; simpl; [|done].
  intros [= <-]. by rewrite (lookup_app_l_Some _ _ _ _ E).
Qed.

Lemma class_of_app_fresh h new x :
  Forall (fun c => fresh_kind c = true) new ->
  R.class_of (h ++ new) x = R.class_of h x.
Proof.
  intros Hnew. unfold R.class_of.
  destruct (deref_app_fresh h new x Hnew) as [-> | [-> (c & -> & Hc)]]; [|by destruct c].
  destruct (R.deref h x) as [c|]; [|done].
  destruct (attr_lookup "class" (cell_attrib c)) as [k|]; [|done].
  destruct (deref_app_fresh h new k Hnew) as [-> | [-> (c' & -> & Hc')]]; [|by destruct c'].
  destruct (R.deref h k) as [[]|]; try done.
  apply list_omap_ext, Forall_Forall2_diag, Forall_forall.
  intros nm _. by apply char_of_app_fresh.
Qed.

Lemma names_of_app_l h new x c :
  R.deref h x = Some c -> names_of (h ++ new) x = names_of h x.
Proof.
  intros H. unfold names_of. by rewrite (deref_app_l _ new _ _ H), H.
Qed.

Lemma arguments_of_app_fresh h new dots its :
  Forall (fun c => fresh_kind c = true) new ->
  arguments_of h dots = Some its -> arguments_of (h ++ new) dots = Some its.
Proof.
  intros Hnew. unfold arguments_of.
  destruct (R.deref h dots) as [c|] eqn:Hd; [|done].
  rewrite (deref_app_l _ new _ _ Hd), (names_of_app_l _ new _ _ Hd).
  destruct c; try done.
  intros H. apply mapM_Some. apply mapM_Some in H.
  eapply Forall2_impl; [done|]. intros i it Hit.
  by rewrite argument_at_app_fresh.
Qed.

(** An input that is valid stays valid when the state grows and the
    protection stack is as it was. *)
Lemma valid_input_grows s s' fun_ dots :
  grows s s' -> R_PPStack s' = R_PPStack s ->
  valid_input s fun_ dots -> valid_input s' fun_ dots.
Proof.
  intros [(new & Hheap & Hnew) _ Hsize _] Hpp (Hfun & Hcls & Hdots).
  unfold valid_input. rewrite Hheap, Hpp, Hsize.
  split; [|split].
  - destruct Hfun as [H|H]; [left|right]; by apply typeof_app_l.
  - by rewrite class_of_app_fresh.
  - destruct (R.deref (heap s) dots) as [c|] eqn:Hd; [|done].
    rewrite (deref_app_l _ new _ _ Hd). destruct c; try done.
    destruct Hdots as (Hlen & [its Hits] & Hroom).
    split; [done|]. split; [|done].
    exists its. by apply arguments_of_app_fresh.
Qed.

(** ** Runs as sequences of elementary changes *)

Lemma steps_quiet K s s' :
  heap s' = heap s -> R_SymbolTable s' = R_SymbolTable s -> steps K s s'.
Proof. intros Hh Ht. apply rtc_once. by constructor. Qed.

Lemma runs_by_bind {A B} K (m : M A) (k : A -> M B) :
  runs_by K m -> (forall a, runs_by K (k a)) -> runs_by K (bind m k).
Proof.
  intros Hm Hk s. unfold bind. specialize (Hm s).
  destruct (m s) as [a s1|msg s1]; simpl in *; [|done].
  unfold steps in *. etrans; [done|apply Hk].
Qed.

Lemma fails_by_bind {A B} K (m : M A) (k : A -> M B) :
  runs_by K m -> (forall a, fails_by K (k a)) -> fails_by K (bind m k).
Proof.
  intros Hm Hk s msg s' H. specialize (Hm s).
  apply bind_Error in H as [H | (a & s1 & H1 & H2)].
  - by rewrite H in Hm.
  - rewrite H1 in Hm. simpl in Hm. unfold steps in *.
    etrans; [done|]. by eapply Hk.
Qed.

Lemma runs_by_ret {A} K (a : A) : runs_by K (ret a).
Proof. intros s. by apply steps_quiet. Qed.

Lemma runs_by_when_error K b msg : runs_by K (R.when b (R.error msg)).
Proof. intros s. destruct b; by apply steps_quiet. Qed.

(** The calls that neither allocate nor write to an object. *)
Ltac quiet_run :=
  intros s; simpl; repeat case_match; simpl;
  apply steps_quiet; by autorewrite with state.

Lemma runs_by_TYPEOF K x : runs_by K (R.TYPEOF x).
Proof. unfold R.TYPEOF. quiet_run. Qed.

Lemma runs_by_inherits K x name : runs_by K (R.inherits x name).
Proof. unfold R.inherits. quiet_run. Qed.

Lemma runs_by_length K x : runs_by K (R.length x).
Proof. unfold R.length. quiet_run. Qed.

Lemma runs_by_GET_NAMES K x : runs_by K (R.GET_NAMES x).
Proof. unfold R.GET_NAMES. quiet_run. Qed.

Lemma runs_by_VECTOR_ELT K x i : runs_by K (R.VECTOR_ELT x i).
Proof. unfold R.VECTOR_ELT. quiet_run. Qed.

Lemma runs_by_STRING_ELT K x i : runs_by K (R.STRING_ELT x i).
Proof. unfold R.STRING_ELT. quiet_run. Qed.

Lemma runs_by_CHAR K x : runs_by K (R.CHAR x).
Proof. unfold R.CHAR. quiet_run. Qed.

Lemma runs_by_PROTECT K x : runs_by K (R.PROTECT x).
Proof. unfold R.PROTECT. quiet_run. Qed.

Lemma runs_by_UNPROTECT K k : runs_by K (R.UNPROTECT k).
Proof. unfold R.UNPROTECT. quiet_run. Qed.

Lemma runs_by_Rf_mkPROMISE (K : cell -> Prop) e rho :
  K (Promise e rho None) -> runs_by K (R.Rf_mkPROMISE e rho).
Proof.
  intros HK s. unfold R.Rf_mkPROMISE, R.alloc. simpl.
  apply rtc_once. eapply step_alloc; [done|by autorewrite with state..].
Qed.

Lemma runs_by_CONS (K : cell -> Prop) car cdr :
  K (ConsCell CT_LIST car cdr R_NilValue) -> runs_by K (R.CONS car cdr).
Proof.
  intros HK s. unfold R.CONS, R.alloc. simpl.
  apply rtc_once. eapply step_alloc; [done|by autorewrite with state..].
Qed.

Lemma runs_by_Rf_install K name : runs_by K (R.Rf_install name).
Proof.
  intros s. unfold R.Rf_install. simpl.
  repeat case_match; simpl; try (apply steps_quiet; by autorewrite with state).
  apply rtc_once. eapply step_intern; [done|by autorewrite with state..].
Qed.

Lemma runs_by_SET_TAG K x v : runs_by K (R.SET_TAG x v).
Proof.
  intros s. unfold R.SET_TAG. simpl.
  repeat case_match; simpl; try (apply steps_quiet; by autorewrite with state).
  apply rtc_once. eapply step_retag; [done|by autorewrite with state..].
Qed.

Lemma runs_by_lazy_to_promise x : runs_by argument_cell (lazy_to_promise x).
Proof.
  unfold lazy_to_promise.
  apply runs_by_bind; [apply runs_by_VECTOR_ELT|intros e].
  apply runs_by_bind; [apply runs_by_VECTOR_ELT|intros rho].
  by apply runs_by_Rf_mkPROMISE.
Qed.

Lemma runs_by_make_call_iteration dots names i args :
  runs_by argument_cell (make_call_iteration dots names i args).
Proof.
  unfold make_call_iteration.
  apply runs_by_bind; [apply runs_by_VECTOR_ELT|intros dot].
  apply runs_by_bind; [|intros prom].
  { apply runs_by_bind; [apply runs_by_lazy_to_promise|intros p].
    apply runs_by_PROTECT. }
  apply runs_by_bind; [|intros a].
  { apply runs_by_bind; [by apply runs_by_CONS|intros c]. apply runs_by_PROTECT. }
  apply runs_by_bind; [apply runs_by_UNPROTECT|intros _].
  apply runs_by_bind; [apply runs_by_STRING_ELT|intros name].
  apply runs_by_bind; [apply runs_by_CHAR|intros c].
  apply runs_by_bind; [apply runs_by_Rf_install|intros sym].
  apply runs_by_bind; [apply runs_by_SET_TAG|intros _].
  apply runs_by_ret.
Qed.

Lemma runs_by_make_call_loop dots names k : forall args,
  runs_by argument_cell (make_call_loop dots names k args).
Proof.
  induction k as [|k IH]; intros args; simpl; [apply runs_by_ret|].
  apply runs_by_bind; [apply runs_by_make_call_iteration|intros a]. apply IH.
Qed.

(** [LCONS] is the last call and cannot fail: a failed run has allocated
    cells of an argument list only. *)
Lemma fails_by_make_call_construct fun_ dots :
  fails_by argument_cell (make_call_construct fun_ dots).
Proof.
  unfold make_call_construct.
  apply fails_by_bind; [apply runs_by_length|intros n].
  case_decide; [by intros s msg s'|].
  apply fails_by_bind; [apply runs_by_GET_NAMES|intros names].
  apply fails_by_bind; [apply runs_by_make_call_loop|intros args].
  apply fails_by_bind; [apply runs_by_UNPROTECT|intros _].
  by intros s msg s'.
Qed.

Lemma fails_by_make_call fun_ dots : fails_by argument_cell (make_call_ fun_ dots).
Proof.
  rewrite make_call_checks.
  apply fails_by_bind; [apply runs_by_TYPEOF|intros tf].
  apply fails_by_bind; [apply runs_by_when_error|intros _].
  apply fails_by_bind; [apply runs_by_TYPEOF|intros td].
  apply fails_by_bind; [apply runs_by_when_error|intros _].
  apply fails_by_bind; [apply runs_by_inherits|intros cls].
  apply fails_by_bind; [apply runs_by_when_error|intros _].
  apply fails_by_make_call_construct.
Qed.

(** Changes that allocate cells of an argument list only leave no new
    [LANGSXP] cell. *)
Lemma steps_no_call s s' :
  steps argument_cell s s' ->
  forall l car cdr tag,
    heap s' !! l = Some (ConsCell CT_LANG car cdr tag) ->
    exists tag0, heap s !! l = Some (ConsCell CT_LANG car cdr tag0).
Proof.
  induction 1 as [s|s1 s2 s3 Hstep _ IH]; intros l car cdr tag H; [eauto|].
  apply IH in H as [tag1 H].
  destruct Hstep as [Hh Ht|c Hc Hh Ht|name Hnone Hh Ht|l0 ty car0 cdr0 tag0 v Hl Hh Ht];
    rewrite Hh in H.
  - eauto.
  - apply lookup_app_Some in H as [H | [_ H]]; [eauto|].
    apply list_lookup_singleton_Some in H as [_ ->]. done.
  - apply lookup_app_Some in H as [H | [_ H]]; [eauto|].
    by apply list_lookup_singleton_Some in H as [_ [=]].
  - apply list_lookup_insert_Some in H as [(-> & [= -> -> -> ->] & _) | [_ H]]; eauto.
Qed.

(** * The properties of [make_call_] *)

(** ** C1: the call and its promises *)

(** C1, the claim as stated fails: a symbol [f] and a list of class
    [lazy_dots] whose single element is a length-2 list of an expression and
    an environment, but which has no names attribute.  The run does not
    return a call: [STRING_ELT] is applied to [R_NilValue]. *)
Lemma make_call_faults_on_unnamed_pairs :
  R.typeof (heap ex_state) ex_f = Some SYMSXP /\
  lazy_dots_of_pairs (heap ex_state) ex_dots_unnamed /\
  result_of (make_call_ ex_f ex_dots_unnamed ex_state) = None /\
  error_of (make_call_ ex_f ex_dots_unnamed ex_state) = Some R.msg_STRING_ELT.
Proof.
  split; [reflexivity|]. split; [|split; vm_compute; reflexivity].
  exists [Loc 5], [("class", Loc 11)].
  split; [reflexivity|]. split; [vm_compute; set_solver|].
  constructor; [|constructor]. by exists (Loc 2), (Loc 1), [].
Qed.

(** C1 (amended): for every [fun_] that is a symbol or a call and every
    [dots] that is a generic vector of class [lazy_dots] whose every element
    is a list of an expression and an environment and has, in the names
    attribute of [dots], a non-empty name of at most 10000 bytes, and with
    room on the protection stack for one pointer per element plus one
    ([valid_input]), [make_call_] returns a call cell whose head is exactly
    [fun_] and whose i-th argument slot holds a promise, not yet forced,
    whose expression is the first and whose environment is the second
    component of the i-th element of [dots]. *)
Theorem make_call_builds_promises s fun_ dots :
  valid_input s fun_ dots ->
  exists r s' lr args slots,
    make_call_ fun_ dots s = Return r s' /\
    r = Loc lr /\
    heap s' !! lr = Some (ConsCell CT_LANG fun_ args R_NilValue) /\
    pairlist_seg (heap s') R_NilValue args slots /\
    forall i dot,
      element (heap s) dots i = Some dot ->
      exists e rho lp tag,
        lazy_parts (heap s) dot = Some (e, rho) /\
        slots !! i = Some (Loc lp, tag) /\
        heap s' !! lp = Some (Promise e rho None).
Proof.
  intros Hvalid.
  destruct (make_call_slots _ _ _ Hvalid)
    as (r & s' & lr & args & slots & elts & a & Hrun & -> & Hcall & Hseg & _ & _ & _ & Hslot).
  exists (Loc lr), s', lr, args, slots.
  split; [done|]. split; [done|]. split; [done|]. split; [done|].
  intros i dot Hel.
  destruct (Hslot _ _ Hel) as (e & rho & c & lp & lt & Hparts & _ & Hi & Hp & _).
  eauto 10.
Qed.

Lemma make_call_builds_promises_witness :
  valid_input ex_state ex_f ex_dots /\
  exists r s' lr args slots,
    make_call_ ex_f ex_dots ex_state = Return r s' /\
    r = Loc lr /\
    heap s' !! lr = Some (ConsCell CT_LANG ex_f args R_NilValue) /\
    pairlist_seg (heap s') R_NilValue args slots /\
    forall i dot,
      element (heap ex_state) ex_dots i = Some dot ->
      exists e rho lp tag,
        lazy_parts (heap ex_state) dot = Some (e, rho) /\
        slots !! i = Some (Loc lp, tag) /\
        heap s' !! lp = Some (Promise e rho None).
Proof.
  assert (valid_input ex_state ex_f ex_dots) as H.
  { apply (bool_decide_unpack _). vm_compute. exact I. }
  split; [exact H|]. exact (make_call_builds_promises ex_state ex_f ex_dots H).
Defined.

(** ** C2: names and order *)

(** C2: for every valid input, in a session whose symbol table is sound,
    the argument list of the returned call has exactly as many slots as
    [dots] has elements; slot [i] holds the promise of element [i] (same
    order) and is tagged with the symbol whose name is entry [i] of the
    names attribute of [dots]. *)
Theorem make_call_preserves_names_and_order s fun_ dots :
  valid_input s fun_ dots -> symtab_ok s ->
  exists r s' lr args slots elts a,
    make_call_ fun_ dots s = Return r s' /\
    r = Loc lr /\
    heap s' !! lr = Some (ConsCell CT_LANG fun_ args R_NilValue) /\
    pairlist_seg (heap s') R_NilValue args slots /\
    R.deref (heap s) dots = Some (GenericVec elts a) /\
    List.length slots = List.length elts /\
    forall i dot,
      element (heap s) dots i = Some dot ->
      exists e rho c lp lt,
        lazy_parts (heap s) dot = Some (e, rho) /\
        name_at (heap s) (names_of (heap s) dots) i = Some c /\
        slots !! i = Some (Loc lp, Loc lt) /\
        heap s' !! lp = Some (Promise e rho None) /\
        heap s' !! lt = Some (Symbol c).
Proof.
  intros Hvalid Hok.
  destruct (make_call_slots _ _ _ Hvalid)
    as (r & s' & lr & args & slots & elts & a
        & Hrun & -> & Hcall & Hseg & Hd & Hlen & Hok' & Hslot).
  exists (Loc lr), s', lr, args, slots, elts, a.
  split; [done|]. split; [done|]. split; [done|]. split; [done|].
  split; [done|]. split; [done|].
  intros i dot Hel.
  destruct (Hslot _ _ Hel) as (e & rho & c & lp & lt & Hparts & Hc & Hi & Hp & Ht).
  exists e, rho, c, lp, lt.
  split; [done|]. split; [done|]. split; [done|]. split; [done|].
  by apply (Hok' Hok).
Qed.

Lemma make_call_preserves_names_and_order_witness :
  valid_input ex_state ex_f ex_dots /\ symtab_ok ex_state /\
  exists r s' lr args slots elts a,
    make_call_ ex_f ex_dots ex_state = Return r s' /\
    r = Loc lr /\
    heap s' !! lr = Some (ConsCell CT_LANG ex_f args R_NilValue) /\
    pairlist_seg (heap s') R_NilValue args slots /\
    R.deref (heap ex_state) ex_dots = Some (GenericVec elts a) /\
    List.length slots = List.length elts /\
    forall i dot,
      element (heap ex_state) ex_dots i = Some dot ->
      exists e rho c lp lt,
        lazy_parts (heap ex_state) dot = Some (e, rho) /\
        name_at (heap ex_state) (names_of (heap ex_state) ex_dots) i = Some c /\
        slots !! i = Some (Loc lp, Loc lt) /\
        heap s' !! lp = Some (Promise e rho None) /\
        heap s' !! lt = Some (Symbol c).
Proof.
  assert (valid_input ex_state ex_f ex_dots) as H.
  { apply (bool_decide_unpack _). vm_compute. exact I. }
  assert (symtab_ok ex_state) as Hok.
  { apply (bool_decide_unpack _). vm_compute. exact I. }
  split; [exact H|]. split; [exact Hok|].
  exact (make_call_preserves_names_and_order ex_state ex_f ex_dots H Hok).
Defined.

(** ** C3: the three checks *)

(** C3, the claim as stated fails: a symbol [f] and a named list of class
    [lazy_dots] pass the three checks, yet the run ends in an error, raised
    by [VECTOR_ELT] on the first element (an integer vector), and by then
    the promise for the second element has been constructed (the cell at
    address 23, just past the initial heap). *)
Lemma make_call_fails_after_validation :
  R.typeof (heap ex_state) ex_f = Some SYMSXP /\
  R.typeof (heap ex_state) ex_dots_bad_first = Some VECSXP /\
  ("lazy_dots" ∈ R.class_of (heap ex_state) ex_dots_bad_first) /\
  error_of (make_call_ ex_f ex_dots_bad_first ex_state) = Some R.msg_VECTOR_ELT /\
  (R.msg_VECTOR_ELT ∉ validation_messages) /\
  List.length (heap ex_state) = 23%nat /\
  heap (final_state (make_call_ ex_f ex_dots_bad_first ex_state)) !! 23%nat
    = Some (Promise (Loc 3) (Loc 1) None).
Proof.
  split; [reflexivity|]. split; [reflexivity|]. split; [vm_compute; set_solver|].
  split; [vm_compute; reflexivity|]. split.
  { apply host_error_not_validation. host_msg. }
  split; [reflexivity|vm_compute; reflexivity].
Qed.

(** The three checks on the concrete session: a closure for [fun], a symbol
    for [dots], a list without the class. *)
Example make_call_validation_examples :
  make_call_ ex_closure ex_dots ex_state
  = Error "fun must be a call or a symbol" ex_state /\
  make_call_ ex_f ex_f ex_state = Error "dots must be a list" ex_state /\
  make_call_ ex_f ex_dots_unclassed ex_state
  = Error "dots must be of class lazy_dots"
      (record (Call_inherits ex_dots_unclassed "lazy_dots") ex_state).
Proof. repeat split; vm_compute; reflexivity. Qed.

(** C3 (amended): [make_call_] raises one of its three validation errors if
    and only if the corresponding condition holds: [fun_] is neither a
    symbol nor a call, [dots] is not a generic vector, or [dots] does not
    inherit from class [lazy_dots]; the checks are made in this order, and a
    failing check aborts immediately, before any promise or call cell is
    constructed (the state is the initial one, up to the record of the
    [inherits] call).  Errors raised after the checks come from the API. *)
Theorem make_call_validation s fun_ dots tf td :
  R.typeof (heap s) fun_ = Some tf -> R.typeof (heap s) dots = Some td ->
  (bad_fun tf ->
   make_call_ fun_ dots s = Error "fun must be a call or a symbol" s) /\
  (~ bad_fun tf -> bad_dots td ->
   make_call_ fun_ dots s = Error "dots must be a list" s) /\
  (~ bad_fun tf -> ~ bad_dots td -> bad_class (heap s) dots ->
   make_call_ fun_ dots s =
   Error "dots must be of class lazy_dots" (record (Call_inherits dots "lazy_dots") s)) /\
  (forall msg s', make_call_ fun_ dots s = Error msg s' ->
     msg ∈ validation_messages ->
     bad_fun tf \/ bad_dots td \/ bad_class (heap s) dots).
Proof.
  intros Htf Htd.
  assert (forall (k : SEXPTYPE -> M SEXP),
            bind (R.TYPEOF fun_) k s = k tf s) as Hstart.
  { intros k. apply bind_run. by apply TYPEOF_Return. }
  split; [|split; [|split]].
  - rewrite make_call_checks, Hstart. unfold bind.
    intros [H1 H2]. by rewrite !bool_decide_eq_true_2.
  - rewrite make_call_checks, Hstart. unfold bind, R.TYPEOF.
    intros Hf Hd. unfold bad_fun in Hf. apply not_and_l in Hf.
    assert (bool_decide (tf ≠ SYMSXP) && bool_decide (tf ≠ LANGSXP) = false) as ->.
    { apply andb_false_iff. by rewrite !bool_decide_eq_false. }
    simpl. rewrite Htd. by rewrite bool_decide_eq_true_2.
  - rewrite make_call_checks, Hstart. unfold bind, R.TYPEOF.
    intros Hf Hd Hc. unfold bad_fun in Hf. apply not_and_l in Hf.
    assert (bool_decide (tf ≠ SYMSXP) && bool_decide (tf ≠ LANGSXP) = false) as ->.
    { apply andb_false_iff. by rewrite !bool_decide_eq_false. }
    simpl. rewrite Htd. rewrite bool_decide_eq_false_2 by done. simpl.
    unfold R.inherits. by rewrite bool_decide_eq_false_2.
  - intros msg s' Hrun Hmsg.
    destruct (decide (bad_fun tf)) as [|Hf]; [auto|].
    destruct (decide (bad_dots td)) as [|Hd]; [auto|].
    destruct (decide (bad_class (heap s) dots)) as [|Hc]; [auto|].
    exfalso.
    rewrite (make_call_after_checks _ _ _ _ _ Htf Htd Hf Hd Hc) in Hrun.
    apply make_call_construct_errors in Hrun as [Hhost _].
    by apply host_error_not_validation in Hhost.
Qed.

Lemma make_call_validation_witness :
  R.typeof (heap ex_state) ex_closure = Some CLOSXP /\
  R.typeof (heap ex_state) ex_dots = Some VECSXP /\
  (bad_fun CLOSXP ->
   make_call_ ex_closure ex_dots ex_state
   = Error "fun must be a call or a symbol" ex_state) /\
  (~ bad_fun CLOSXP -> bad_dots VECSXP ->
   make_call_ ex_closure ex_dots ex_state = Error "dots must be a list" ex_state) /\
  (~ bad_fun CLOSXP -> ~ bad_dots VECSXP -> bad_class (heap ex_state) ex_dots ->
   make_call_ ex_closure ex_dots ex_state =
   Error "dots must be of class lazy_dots"
     (record (Call_inherits ex_dots "lazy_dots") ex_state)) /\
  (forall msg s', make_call_ ex_closure ex_dots ex_state = Error msg s' ->
     msg ∈ validation_messages ->
     bad_fun CLOSXP \/ bad_dots VECSXP \/ bad_class (heap ex_state) ex_dots).
Proof.
  split; [reflexivity|]. split; [reflexivity|].
  apply (make_call_validation ex_state ex_closure ex_dots CLOSXP VECSXP); reflexivity.
Defined.

(** ** C4: elements without a name *)

(** C4 fails on the code: on a list of class [lazy_dots] without a names
    attribute the routine applies [STRING_ELT] to [R_NilValue], and on an
    element named by the empty string [Rf_install] rejects the zero-length
    name; in both cases the run aborts in the first iteration instead of
    returning the call with an untagged slot. *)
Theorem make_call_unnamed_dots_fault :
  ("lazy_dots" ∈ R.class_of (heap ex_state) ex_dots_unnamed) /\
  names_of (heap ex_state) ex_dots_unnamed = R_NilValue /\
  error_of (make_call_ ex_f ex_dots_unnamed ex_state) = Some R.msg_STRING_ELT /\
  ("lazy_dots" ∈ R.class_of (heap ex_state) ex_dots_blank) /\
  name_at (heap ex_state) (names_of (heap ex_state) ex_dots_blank) 0 = Some "" /\
  error_of (make_call_ ex_f ex_dots_blank ex_state) = Some R.msg_zero_length_name.
Proof.
  split; [vm_compute; set_solver|]. split; [reflexivity|].
  split; [vm_compute; reflexivity|].
  split; [vm_compute; set_solver|]. split; [reflexivity|].
  vm_compute; reflexivity.
Qed.

(** ** C5: one pass over the elements *)

(** The indices of a pass over three elements. *)
Example pass_indices_three : pass_indices 3 = [2; 1; 0].
Proof. reflexivity. Qed.

(** C5, the claim as stated fails: this input passes the three checks, but
    the pass is cut short in its first iteration (index 1, whose element is
    an integer vector): the run ends in an error after a single read of
    [dots], and element 0 of [dots] is never visited. *)
Lemma make_call_pass_cut_short :
  R.typeof (heap ex_state) ex_f = Some SYMSXP /\
  R.typeof (heap ex_state) ex_dots_bad_last = Some VECSXP /\
  ("lazy_dots" ∈ R.class_of (heap ex_state) ex_dots_bad_last) /\
  element (heap ex_state) ex_dots_bad_last 0 = Some (Loc 5) /\
  element (heap ex_state) ex_dots_bad_last 1 = Some (Loc 17) /\
  result_of (make_call_ ex_f ex_dots_bad_last ex_state) = None /\
  dots_reads ex_dots_bad_last
    (trace (final_state (make_call_ ex_f ex_dots_bad_last ex_state))) = [1].
Proof.
  split; [reflexivity|]. split; [reflexivity|]. split; [vm_compute; set_solver|].
  split; [reflexivity|]. split; [reflexivity|]. split; vm_compute; reflexivity.
Qed.

(** C5 (amended): for every valid input (one that passes the three checks
    and on which no API call fails), [dots] not being one of its own
    elements, [make_call_] returns after exactly one pass over [dots]: the
    reads of elements of [dots] during the run are at the indices [n - 1]
    down to [0], in this order, one read for each of the [n] elements; no
    element is visited twice. *)
Theorem make_call_single_pass s fun_ dots :
  valid_input s fun_ dots -> ~ own_element (heap s) dots ->
  exists r s' tr elts a,
    make_call_ fun_ dots s = Return r s' /\
    R.deref (heap s) dots = Some (GenericVec elts a) /\
    trace s' = trace s ++ tr /\
    dots_reads dots tr = pass_indices (List.length elts) /\
    NoDup (dots_reads dots tr).
Proof.
  intros Hvalid Hfree.
  destruct (make_call_runs _ _ _ Hvalid) as (r & s' & Hrun).
  destruct (make_call_Return_inv _ _ _ _ _ Hrun)
    as (_ & its & slots & Hits & _ & _ & tr & Htr & Hreads).
  destruct Hvalid as (_ & _ & Hdots).
  destruct (R.deref (heap s) dots) as [[| | | | | | |elts a|]|] eqn:Hd; try done.
  specialize (Hreads Hfree).
  rewrite (arguments_of_length _ _ _ _ _ Hd Hits) in Hreads.
  exists r, s', tr, elts, a.
  split; [done|]. split; [done|]. split; [done|]. split; [done|].
  rewrite Hreads. unfold pass_indices.
  apply (NoDup_fmap_2 _). rewrite reverse_Permutation. apply NoDup_seq.
Qed.

Lemma make_call_single_pass_witness :
  valid_input ex_state ex_f ex_dots /\ ~ own_element (heap ex_state) ex_dots /\
  exists r s' tr elts a,
    make_call_ ex_f ex_dots ex_state = Return r s' /\
    R.deref (heap ex_state) ex_dots = Some (GenericVec elts a) /\
    trace s' = trace ex_state ++ tr /\
    dots_reads ex_dots tr = pass_indices (List.length elts) /\
    NoDup (dots_reads ex_dots tr).
Proof.
  assert (valid_input ex_state ex_f ex_dots) as H.
  { apply (bool_decide_unpack _). vm_compute. exact I. }
  assert (~ own_element (heap ex_state) ex_dots) as Hfree.
  { apply (bool_decide_unpack _). vm_compute. exact I. }
  split; [exact H|]. split; [exact Hfree|].
  exact (make_call_single_pass ex_state ex_f ex_dots H Hfree).
Defined.

(** ** C8: no elements *)

(** C8: for every [fun_] that is a symbol or a call and every [dots] that
    is a generic vector of class [lazy_dots] with zero elements,
    [make_call_] returns a new call cell whose head is [fun_] and whose
    argument list is empty.  The only API calls of the run are [inherits]
    and [LCONS]: the names attribute is not read and no promise is
    constructed; the heap gains the call cell and nothing else. *)
Theorem make_call_empty_dots s fun_ dots a :
  R.typeof (heap s) fun_ = Some SYMSXP \/ R.typeof (heap s) fun_ = Some LANGSXP ->
  R.deref (heap s) dots = Some (GenericVec [] a) ->
  "lazy_dots" ∈ R.class_of (heap s) dots ->
  exists s',
    make_call_ fun_ dots s = Return (Loc (List.length (heap s))) s' /\
    heap s' = heap s ++ [ConsCell CT_LANG fun_ R_NilValue R_NilValue] /\
    trace s' = trace s ++ [Call_inherits dots "lazy_dots"; Call_LCONS fun_ R_NilValue] /\
    R_SymbolTable s' = R_SymbolTable s /\
    R_PPStack s' = R_PPStack s.
Proof.
  intros Hfun Hd Hcls.
  assert (exists tf, R.typeof (heap s) fun_ = Some tf /\ ~ bad_fun tf) as (tf & Htf & Hf).
  { destruct Hfun as [H|H]; eexists; (split; [exact H|]); unfold bad_fun; tauto. }
  assert (R.typeof (heap s) dots = Some VECSXP) as Htd.
  { apply typeof_VECSXP. eauto. }
  rewrite (make_call_after_checks _ _ _ _ _ Htf Htd Hf); [|by intros ?|by intros ?].
  unfold make_call_construct.
  erewrite bind_run; cycle 1.
  { rewrite (length_GenericVec _ [] a) by (by autorewrite with state). done. }
  simpl. unfold R.LCONS, R.alloc. eexists. split; [by autorewrite with state|].
  destruct s. simpl. by rewrite <- (assoc_L (++)).
Qed.

Lemma make_call_empty_dots_witness :
  (R.typeof (heap ex_state) ex_call = Some SYMSXP \/
   R.typeof (heap ex_state) ex_call = Some LANGSXP) /\
  R.deref (heap ex_state) ex_dots_empty = Some (GenericVec [] [("class", Loc 11)]) /\
  ("lazy_dots" ∈ R.class_of (heap ex_state) ex_dots_empty) /\
  exists s',
    make_call_ ex_call ex_dots_empty ex_state
    = Return (Loc (List.length (heap ex_state))) s' /\
    heap s' = heap ex_state ++ [ConsCell CT_LANG ex_call R_NilValue R_NilValue] /\
    trace s' = trace ex_state
               ++ [Call_inherits ex_dots_empty "lazy_dots"; Call_LCONS ex_call R_NilValue] /\
    R_SymbolTable s' = R_SymbolTable ex_state /\
    R_PPStack s' = R_PPStack ex_state.
Proof.
  assert ("lazy_dots" ∈ R.class_of (heap ex_state) ex_dots_empty) as Hcls.
  { apply (bool_decide_unpack _). vm_compute. exact I. }
  split; [right; reflexivity|]. split; [reflexivity|]. split; [exact Hcls|].
  exact (make_call_empty_dots ex_state ex_call ex_dots_empty [("class", Loc 11)]
           (or_intror eq_refl) eq_refl Hcls).
Defined.

(** ** C6: the arguments are evaluated once *)

(** C6: when the arguments of the call built by [make_call_] are later
    used, in any order and any number of times, the interpreter evaluates
    each argument at most once: the evaluations it performs are, in the
    order in which the arguments are first used, the evaluation of the
    expression of that element of [dots] in the environment recorded with
    it; every use of an argument returns the value of that expression in
    that environment, and every later use of the same argument returns the
    same (stored) value as the first. *)
Theorem promises_forced_once (eval_code : SEXP -> SEXP -> state -> SEXP)
    s fun_ dots call s' accesses :
  make_call_ fun_ dots s = Return call s' ->
  Forall (fun i => is_Some (element (heap s) dots i)) accesses ->
  exists its slots vals t evs,
    arguments_of (heap s) dots = Some its /\
    (exists args,
        R.deref (heap s') call = Some (ConsCell CT_LANG fun_ args R_NilValue) /\
        pairlist_seg (heap s') R_NilValue args slots) /\
    NoDup slots.*1 /\
    argument_values eval_code call accesses s' = Return vals t /\
    trace t = trace s' ++ evs /\
    mapM (forced_event its slots) (first_uses [] accesses) = Some evs /\
    NoDup (first_uses [] accesses) /\
    (forall j i, accesses !! j = Some i ->
       exists it t0, its !! i = Some it /\
         vals !! j = Some (eval_code (arg_expr it) (arg_env it) t0)) /\
    (forall j k i, accesses !! j = Some i -> accesses !! k = Some i ->
                   vals !! j = vals !! k).
Proof.
  intros Hrun Hacc.
  destruct (make_call_forcing_inv _ _ _ _ _ Hrun) as (its & slots & Hits & Hinv).
  assert (Forall (fun i => i < List.length its)%nat accesses) as Hlt.
  { eapply Forall_impl; [exact Hacc|]. intros i [dot Hel]. simpl in Hel.
    unfold element in Hel.
    destruct (R.deref (heap s) dots) as [[| | | | | | |elts a|]|] eqn:Hd; try done.
    rewrite (arguments_of_length _ _ _ _ _ Hd Hits). by eapply lookup_lt_Some. }
  destruct (argument_values_run eval_code its slots fun_ call accesses Hlt _ _ _ Hinv)
    as (vals & t & cache & evs & Hvals & _ & Hsound & Hevs & Htr & Hcached).
  { intros i v. by rewrite lookup_empty. }
  exists its, slots, vals, t, evs.
  split; [done|]. split; [by apply (fi_call _ _ _ _ _ _ _ Hinv)|].
  split; [by apply (fi_nodup _ _ _ _ _ _ _ Hinv)|].
  split; [done|]. split; [done|]. split; [done|].
  split; [apply NoDup_first_uses|]. split.
  - intros j i Hj.
    destruct (Forall2_lookup_l _ _ _ _ _ Hcached Hj) as (vj & Hvj & Hcj).
    destruct (Hsound _ _ Hcj) as (it & t0 & Hit & ->). eauto.
  - intros j k i Hj Hk.
    destruct (Forall2_lookup_l _ _ _ _ _ Hcached Hj) as (vj & Hvj & Hcj).
    destruct (Forall2_lookup_l _ _ _ _ _ Hcached Hk) as (vk & Hvk & Hck).
    rewrite Hvj, Hvk. congruence.
Qed.

Lemma promises_forced_once_witness :
  Forall (fun i => is_Some (element (heap ex_state) ex_dots i)) [1; 0; 1]%nat /\
  exists call s',
    make_call_ ex_f ex_dots ex_state = Return call s' /\
    exists its slots vals t evs,
      arguments_of (heap ex_state) ex_dots = Some its /\
      (exists args,
          R.deref (heap s') call = Some (ConsCell CT_LANG ex_f args R_NilValue) /\
          pairlist_seg (heap s') R_NilValue args slots) /\
      NoDup slots.*1 /\
      argument_values (fun code rho t => code) call [1; 0; 1]%nat s' = Return vals t /\
      trace t = trace s' ++ evs /\
      mapM (forced_event its slots) (first_uses [] [1; 0; 1]%nat) = Some evs /\
      NoDup (first_uses [] [1; 0; 1]%nat) /\
      (forall j i, [1; 0; 1]%nat !! j = Some i ->
         exists it (t0 : state), its !! i = Some it /\ vals !! j = Some (arg_expr it)) /\
      (forall j k i, [1; 0; 1]%nat !! j = Some i -> [1; 0; 1]%nat !! k = Some i ->
                     vals !! j = vals !! k).
Proof.
  assert (Forall (fun i => is_Some (element (heap ex_state) ex_dots i)) [1; 0; 1]%nat) as H.
  { repeat constructor; vm_compute; eauto. }
  split; [exact H|].
  destruct (make_call_ ex_f ex_dots ex_state) as [call s'|msg s'] eqn:Hrun;
    [|vm_compute in Hrun; discriminate Hrun].
  exists call, s'. split; [reflexivity|].
  exact (promises_forced_once (fun code rho t => code)
           ex_state ex_f ex_dots call s' [1; 0; 1]%nat Hrun H).
Defined.

(** ** C7: the inputs are left alone *)

(** C7, the claim as stated fails: the routine does change persistent
    state.  In a session whose symbol table knows neither [a] nor [b], the
    run on the list of the two lazy objects of these names returns and
    leaves both names interned: the symbol table has gained two entries and
    the heap their two symbols.  A failed run does so too: the run that
    fails on an integer vector at index 0 has interned the name [b] of the
    element at index 1 before. *)
Lemma make_call_interns_new_names :
  let o := make_call_ ex_f ex_dots ex_state in
  let o' := make_call_ ex_f ex_dots_bad_first ex_state in
  result_of o = Some (Loc 29) /\
  R_SymbolTable ex_state !! "a" = None /\
  R_SymbolTable ex_state !! "b" = None /\
  R_SymbolTable (final_state o) !! "a" = Some 28%nat /\
  R_SymbolTable (final_state o) !! "b" = Some 25%nat /\
  heap (final_state o) !! 28%nat = Some (Symbol "a") /\
  heap (final_state o) !! 25%nat = Some (Symbol "b") /\
  R_SymbolTable (final_state o) <> R_SymbolTable ex_state /\
  error_of o' = Some R.msg_VECTOR_ELT /\
  R_SymbolTable (final_state o') !! "b" = Some 25%nat /\
  R_SymbolTable (final_state o') <> R_SymbolTable ex_state.
Proof.
  intros o o'.
  assert (R_SymbolTable ex_state !! "b" = None) as Hb by reflexivity.
  assert (R_SymbolTable (final_state o) !! "b" = Some 25%nat) as Hb1
    by (vm_compute; reflexivity).
  assert (R_SymbolTable (final_state o') !! "b" = Some 25%nat) as Hb2
    by (vm_compute; reflexivity).
  split; [vm_compute; reflexivity|]. split; [reflexivity|]. split; [exact Hb|].
  split; [vm_compute; reflexivity|]. split; [exact Hb1|].
  split; [vm_compute; reflexivity|]. split; [vm_compute; reflexivity|].
  split; [intros H; rewrite H in Hb1; congruence|].
  split; [vm_compute; reflexivity|]. split; [exact Hb2|].
  intros H. rewrite H in Hb2. congruence.
Qed.

(** C7 (amended): whatever [fun_] and [dots] are, and whether the run
    returns or ends in an error, [make_call_] changes no object that
    existed before the call: the heap after the run is the heap before it
    followed by the newly allocated cells, so [fun_], [dots], every element
    of [dots] and its names attribute (any pointer with a value in the old
    heap) have the same value afterwards.  The persistent state it does
    change is the symbol table, which may gain entries; every entry that
    existed is kept as it was.  A run that returns leaves the protection
    stack as it found it. *)
Theorem make_call_frame s fun_ dots :
  let s' := final_state (make_call_ fun_ dots s) in
  grows s s' /\
  (forall v x, repr (heap s) v x -> repr (heap s') v x) /\
  (forall l c, heap s !! l = Some c -> heap s' !! l = Some c) /\
  (forall name l, R_SymbolTable s !! name = Some l ->
                  R_SymbolTable s' !! name = Some l) /\
  (is_Some (result_of (make_call_ fun_ dots s)) -> R_PPStack s' = R_PPStack s).
Proof.
  intros s'. subst s'.
  assert (grows s (final_state (make_call_ fun_ dots s))) as Hgrows.
  { destruct (make_call_ fun_ dots s) as [r s'|msg s'] eqn:Hrun; simpl.
    - by eapply make_call_returns.
    - by eapply make_call_errors. }
  split; [done|]. split; [|split; [|split]].
  - intros v x. by apply repr_grows.
  - destruct Hgrows as [(new & -> & _) _ _ _]. intros l c. apply lookup_app_l_Some.
  - destruct Hgrows as [_ Hsub _ _]. intros name l Hl.
    by apply (lookup_weaken _ _ _ _ Hl Hsub).
  - destruct (make_call_ fun_ dots s) as [r s'|msg s'] eqn:Hrun; simpl.
    + intros _. apply make_call_Return_inv in Hrun
        as (_ & its & slots & _ & [_ _ _ _ Hpp] & _). done.
    + by intros [? ?].
Qed.

Lemma make_call_frame_witness :
  let s' := final_state (make_call_ ex_f ex_dots ex_state) in
  grows ex_state s' /\
  (forall v x, repr (heap ex_state) v x -> repr (heap s') v x) /\
  (forall l c, heap ex_state !! l = Some c -> heap s' !! l = Some c) /\
  (forall name l, R_SymbolTable ex_state !! name = Some l ->
                  R_SymbolTable s' !! name = Some l) /\
  (is_Some (result_of (make_call_ ex_f ex_dots ex_state)) ->
   R_PPStack s' = R_PPStack ex_state).
Proof. exact (make_call_frame ex_state ex_f ex_dots). Defined.

(** ** C9: the result is a function of the inputs *)

(** C9: two runs of [make_call_], in any two sessions, on functions of equal
    value and tagged lists of equal value (elements, names and class
    included) return calls of equal value: the value of the result is
    [call_value] of the values of [fun_] and [dots], and depends on nothing
    else. *)
Theorem make_call_deterministic s1 s2 fun1 dots1 fun2 dots2 vf vd r1 s1' r2 s2' :
  repr (heap s1) vf fun1 -> repr (heap s2) vf fun2 ->
  repr (heap s1) vd dots1 -> repr (heap s2) vd dots2 ->
  symtab_ok s1 -> symtab_ok s2 ->
  make_call_ fun1 dots1 s1 = Return r1 s1' ->
  make_call_ fun2 dots2 s2 = Return r2 s2' ->
  exists v, call_value vf vd = Some v /\
            repr (heap s1') v r1 /\ repr (heap s2') v r2.
Proof.
  intros Hf1 Hf2 Hd1 Hd2 Hok1 Hok2 Hrun1 Hrun2.
  destruct (make_call_refines _ _ _ _ _ _ _ Hf1 Hd1 Hok1 Hrun1) as (v1 & Hv1 & Hr1).
  destruct (make_call_refines _ _ _ _ _ _ _ Hf2 Hd2 Hok2 Hrun2) as (v2 & Hv2 & Hr2).
  rewrite Hv1 in Hv2. injection Hv2 as <-. eauto.
Qed.

Lemma make_call_deterministic_witness :
  repr (heap ex_state) ex_f_value ex_f /\
  repr (heap ex_state2) ex_f_value ex_f2 /\
  repr (heap ex_state) ex_dots_value ex_dots /\
  repr (heap ex_state2) ex_dots_value ex_dots2 /\
  symtab_ok ex_state /\ symtab_ok ex_state2 /\
  exists r1 s1' r2 s2',
    make_call_ ex_f ex_dots ex_state = Return r1 s1' /\
    make_call_ ex_f2 ex_dots2 ex_state2 = Return r2 s2' /\
    exists v, call_value ex_f_value ex_dots_value = Some v /\
              repr (heap s1') v r1 /\ repr (heap s2') v r2.
Proof.
  assert (repr (heap ex_state) ex_f_value ex_f) as Hf1 by reflexivity.
  assert (repr (heap ex_state2) ex_f_value ex_f2) as Hf2 by reflexivity.
  assert (repr (heap ex_state) ex_dots_value ex_dots) as Hd1.
  { simpl. repeat first [reflexivity | eexists | split]. }
  assert (repr (heap ex_state2) ex_dots_value ex_dots2) as Hd2.
  { simpl. repeat first [reflexivity | eexists | split]. }
  assert (symtab_ok ex_state) as Hok1.
  { apply (bool_decide_unpack _). vm_compute. exact I. }
  assert (symtab_ok ex_state2) as Hok2.
  { apply (bool_decide_unpack _). vm_compute. exact I. }
  destruct (make_call_ ex_f ex_dots ex_state) as [r1 s1'|msg s1'] eqn:Hrun1;
    [|vm_compute in Hrun1; discriminate Hrun1].
  destruct (make_call_ ex_f2 ex_dots2 ex_state2) as [r2 s2'|msg s2'] eqn:Hrun2;
    [|vm_compute in Hrun2; discriminate Hrun2].
  repeat (split; [assumption|]).
  exists r1, s1', r2, s2'. split; [reflexivity|]. split; [reflexivity|].
  exact (make_call_deterministic ex_state ex_state2 ex_f ex_dots ex_f2 ex_dots2
           ex_f_value ex_dots_value r1 s1' r2 s2' Hf1 Hf2 Hd1 Hd2 Hok1 Hok2 Hrun1 Hrun2).
Defined.

(** * Further properties of the code *)

(** ** [lazy_to_promise]: what it accepts and what it allocates *)

(** X1: [lazy_to_promise] reads the first two elements of its argument and
    nothing else.  On a generic vector of two or more elements it returns a
    new promise, without a value, for the first element in the second; the
    promise is the only new cell, further elements are ignored and the two
    components are not inspected.  On a generic vector of fewer than two
    elements the run fails with an index out of range, on anything else with
    a type error of [VECTOR_ELT]; a failed run allocates nothing. *)
Theorem lazy_to_promise_outcome x s :
  match R.deref (heap s) x with
  | Some (GenericVec (e :: rho :: _) _) =>
      exists s', lazy_to_promise x s = Return (Loc (List.length (heap s))) s' /\
                 heap s' = heap s ++ [Promise e rho None] /\
                 R_SymbolTable s' = R_SymbolTable s /\
                 R_PPStack s' = R_PPStack s
  | Some (GenericVec _ _) =>
      exists s', lazy_to_promise x s = Error R.msg_VECTOR_ELT_range s' /\
                 heap s' = heap s /\
                 R_SymbolTable s' = R_SymbolTable s /\
                 R_PPStack s' = R_PPStack s
  | _ =>
      exists s', lazy_to_promise x s = Error R.msg_VECTOR_ELT s' /\
                 heap s' = heap s /\
                 R_SymbolTable s' = R_SymbolTable s /\
                 R_PPStack s' = R_PPStack s
  end.
Proof.
  destruct s as [h st pp sz tr]. simpl.
  destruct (R.deref h x) as [c|] eqn:Hd.
  2: { eexists. unfold lazy_to_promise, bind, R.VECTOR_ELT. simpl. by rewrite Hd. }
  destruct c as [| | | | | | |elts a|];
    try (eexists; unfold lazy_to_promise, bind, R.VECTOR_ELT; simpl; by rewrite Hd).
  destruct elts as [|e [|rho rest]].
  - eexists. unfold lazy_to_promise, bind, R.VECTOR_ELT. simpl. by rewrite Hd.
  - eexists. unfold lazy_to_promise, bind, R.VECTOR_ELT. simpl. rewrite Hd. simpl.
    by rewrite Hd.
  - eexists. split; [apply lazy_to_promise_Return; eauto 10|]. by norm_state.
Qed.

(** ** [make_call_]: when it returns *)

(** X2: [make_call_] returns a result exactly on the valid inputs: [fun_] a
    symbol or a call, [dots] a generic vector of class [lazy_dots] of at most
    [INT_MAX] elements, each of them a list of at least two elements with a
    name of 1 to 10000 bytes in the names attribute of [dots], and, unless
    [dots] is empty, room on the protection stack for one pointer per
    element plus one.  Each of these conditions is necessary: on every
    other input the run ends in an error. *)
Theorem make_call_returns_iff_valid s fun_ dots :
  is_Some (result_of (make_call_ fun_ dots s)) <-> valid_input s fun_ dots.
Proof.
  split.
  - destruct (make_call_ fun_ dots s) as [r s'|msg s'] eqn:Hrun; simpl;
      [|by intros [? ?]].
    intros _. by apply make_call_Return_inv in Hrun as [? _].
  - intros (r & s' & ->)%make_call_runs. simpl. eauto.
Qed.

(** X3: every element of [dots] needs a name that [Rf_install] accepts.  If
    for some element the names attribute of [dots] is missing, too short, or
    holds the empty string or a string of more than 10000 bytes, the run
    ends in an error, whatever the other elements are: the loop tags every
    slot and never leaves one untagged. *)
Theorem make_call_needs_every_name s fun_ dots i dot :
  element (heap s) dots i = Some dot ->
  (forall c, name_at (heap s) (names_of (heap s) dots) i = Some c -> ~ valid_name c) ->
  exists msg s', make_call_ fun_ dots s = Error msg s'.
Proof.
  intros Hel Hname.
  destruct (make_call_ fun_ dots s) as [r s'|msg s'] eqn:Hrun; [|eauto].
  exfalso.
  apply make_call_Return_inv in Hrun as ((_ & _ & Hdots) & its & slots & Hits & _).
  destruct (R.deref (heap s) dots) as [[| | | | | | |elts a|]|] eqn:Hd; try done.
  assert (i < List.length its)%nat as Hi.
  { rewrite (arguments_of_length _ _ _ _ _ Hd Hits). by eapply element_lt. }
  destruct (lookup_lt_is_Some_2 its i Hi) as [it Hit].
  pose proof (arguments_of_argument_at _ _ _ _ _ Hits Hit) as Harg.
  destruct (argument_at_element _ _ _ _ _ _ Harg Hel) as (_ & _ & Hc & Hvalid).
  by apply (Hname _ Hc).
Qed.

Lemma make_call_needs_every_name_witness :
  element (heap ex_state) ex_dots_blank 0 = Some (Loc 5) /\
  (forall c, name_at (heap ex_state) (names_of (heap ex_state) ex_dots_blank) 0 = Some c ->
             ~ valid_name c) /\
  exists msg s', make_call_ ex_f ex_dots_blank ex_state = Error msg s'.
Proof.
  assert (element (heap ex_state) ex_dots_blank 0 = Some (Loc 5)) as Hel by reflexivity.
  assert (forall c, name_at (heap ex_state) (names_of (heap ex_state) ex_dots_blank) 0
                      = Some c -> ~ valid_name c) as Hname.
  { intros c Hc. vm_compute in Hc. injection Hc as <-. intros [Hne _]. by apply Hne. }
  split; [exact Hel|]. split; [exact Hname|].
  exact (make_call_needs_every_name ex_state ex_f ex_dots_blank 0 (Loc 5) Hel Hname).
Defined.

(** ** The objects of the call *)

(** X4: the call cell and the promises of a returned call are objects of
    their own: they are allocated by the run (their addresses were free
    before it), the promises of different slots are different objects, also
    when two elements of [dots] are the same lazy object, and none of them
    is the call cell. *)
Theorem make_call_allocates_its_objects s fun_ dots r s' :
  make_call_ fun_ dots s = Return r s' ->
  exists lr args slots,
    r = Loc lr /\ heap s !! lr = None /\
    heap s' !! lr = Some (ConsCell CT_LANG fun_ args R_NilValue) /\
    pairlist_seg (heap s') R_NilValue args slots /\
    NoDup slots.*1 /\
    forall p, p ∈ slots.*1 ->
      exists lp, p = Loc lp /\ heap s !! lp = None /\ lp <> lr.
Proof.
  intros Hrun.
  apply make_call_Return_inv in Hrun
    as (_ & its & slots & _ & [(lr & args & -> & Hlr & Hcall & Hseg) Hnodup _ _ _]
        & Hslots & _).
  exists lr, args, slots.
  split; [done|]. split; [by apply lookup_ge_None_2|].
  split; [done|]. split; [done|]. split; [done|].
  intros p ([p' t] & -> & Hin)%list_elem_of_fmap. simpl.
  apply list_elem_of_lookup in Hin as [j Hj].
  destruct (Forall2_lookup_r _ _ _ _ _ Hslots Hj)
    as (it & _ & (lp & lt & [= -> ->] & Hge & Hp & _)).
  exists lp. split; [done|]. split; [by apply lookup_ge_None_2|].
  intros ->. congruence.
Qed.

Lemma make_call_allocates_its_objects_witness :
  exists r s',
    make_call_ ex_f3 ex_dots3 ex_state3 = Return r s' /\
    exists lr args slots,
      r = Loc lr /\ heap ex_state3 !! lr = None /\
      heap s' !! lr = Some (ConsCell CT_LANG ex_f3 args R_NilValue) /\
      pairlist_seg (heap s') R_NilValue args slots /\
      NoDup slots.*1 /\
      forall p, p ∈ slots.*1 ->
        exists lp, p = Loc lp /\ heap ex_state3 !! lp = None /\ lp <> lr.
Proof.
  destruct (make_call_ ex_f3 ex_dots3 ex_state3) as [r s'|msg s'] eqn:Hrun;
    [|vm_compute in Hrun; discriminate Hrun].
  exists r, s'. split; [reflexivity|].
  exact (make_call_allocates_its_objects ex_state3 ex_f3 ex_dots3 r s' Hrun).
Defined.

(** ** Tags and the symbol table *)

(** X5: the tag of a slot is the symbol that the symbol table holds for the
    name of the element once the run is over.  A name that was interned
    before the run is tagged with the symbol that existed already, and two
    elements of the same name get the same symbol as their tag, not two
    symbols of equal name. *)
Theorem make_call_tags_are_interned s fun_ dots r s' :
  make_call_ fun_ dots s = Return r s' ->
  exists lr args slots,
    r = Loc lr /\
    heap s' !! lr = Some (ConsCell CT_LANG fun_ args R_NilValue) /\
    pairlist_seg (heap s') R_NilValue args slots /\
    (forall i c p t,
       name_at (heap s) (names_of (heap s) dots) i = Some c ->
       slots !! i = Some (p, t) ->
       exists lt, t = Loc lt /\ R_SymbolTable s' !! c = Some lt /\
                  forall l, R_SymbolTable s !! c = Some l -> lt = l) /\
    (forall i j c p1 t1 p2 t2,
       name_at (heap s) (names_of (heap s) dots) i = Some c ->
       name_at (heap s) (names_of (heap s) dots) j = Some c ->
       slots !! i = Some (p1, t1) -> slots !! j = Some (p2, t2) ->
       t1 = t2).
Proof.
  intros Hrun.
  apply make_call_Return_inv in Hrun
    as (_ & its & slots & Hits & [(lr & args & -> & _ & Hcall & Hseg) _ Hgrows _ _]
        & Hslots & _).
  assert (forall i c p t,
            name_at (heap s) (names_of (heap s) dots) i = Some c ->
            slots !! i = Some (p, t) ->
            exists lt, t = Loc lt /\ R_SymbolTable s' !! c = Some lt /\
                       forall l, R_SymbolTable s !! c = Some l -> lt = l) as Htag.
  { intros i c p t Hc Hi.
    destruct (Forall2_lookup_r _ _ _ _ _ Hslots Hi)
      as (it & Hit & (lp & lt & [= -> ->] & _ & _ & Hlt)).
    pose proof (arguments_of_argument_at _ _ _ _ _ Hits Hit) as Harg.
    apply argument_at_name in Harg. rewrite Hc in Harg. injection Harg as ->.
    exists lt. split; [done|]. split; [done|].
    intros l Hl. destruct Hgrows as [_ Hsub _ _].
    pose proof (lookup_weaken _ _ _ _ Hl Hsub) as Hl'. congruence. }
  exists lr, args, slots.
  split; [done|]. split; [done|]. split; [done|]. split; [done|].
  intros i j c p1 t1 p2 t2 Hi Hj Hsi Hsj.
  destruct (Htag _ _ _ _ Hi Hsi) as (lt1 & -> & H1 & _).
  destruct (Htag _ _ _ _ Hj Hsj) as (lt2 & -> & H2 & _).
  congruence.
Qed.

Lemma make_call_tags_are_interned_witness :
  exists r s',
    make_call_ ex_f3 ex_dots3 ex_state3 = Return r s' /\
    exists lr args slots,
      r = Loc lr /\
      heap s' !! lr = Some (ConsCell CT_LANG ex_f3 args R_NilValue) /\
      pairlist_seg (heap s') R_NilValue args slots /\
      (forall i c p t,
         name_at (heap ex_state3) (names_of (heap ex_state3) ex_dots3) i = Some c ->
         slots !! i = Some (p, t) ->
         exists lt, t = Loc lt /\ R_SymbolTable s' !! c = Some lt /\
                    forall l, R_SymbolTable ex_state3 !! c = Some l -> lt = l) /\
      (forall i j c p1 t1 p2 t2,
         name_at (heap ex_state3) (names_of (heap ex_state3) ex_dots3) i = Some c ->
         name_at (heap ex_state3) (names_of (heap ex_state3) ex_dots3) j = Some c ->
         slots !! i = Some (p1, t1) -> slots !! j = Some (p2, t2) ->
         t1 = t2).
Proof.
  destruct (make_call_ ex_f3 ex_dots3 ex_state3) as [r s'|msg s'] eqn:Hrun;
    [|vm_compute in Hrun; discriminate Hrun].
  exists r, s'. split; [reflexivity|].
  exact (make_call_tags_are_interned ex_state3 ex_f3 ex_dots3 r s' Hrun).
Defined.

(** X6: the symbol table after a returning run is the table before it with
    entries added for names of elements of [dots] only: every entry either
    was there before, unchanged, or is the name of some element and was not
    in the table. *)
Theorem make_call_interns_names_only s fun_ dots r s' :
  make_call_ fun_ dots s = Return r s' ->
  forall c l,
    R_SymbolTable s' !! c = Some l ->
    R_SymbolTable s !! c = Some l \/
    (R_SymbolTable s !! c = None /\
     exists i, is_Some (element (heap s) dots i) /\
               name_at (heap s) (names_of (heap s) dots) i = Some c).
Proof.
  intros Hrun c l Hl.
  apply make_call_accounts in Hrun as (elts & a & d & Hd & _ & _ & _ & Hsub & Hdom).
  destruct (R_SymbolTable s !! c) as [l0|] eqn:Hl0.
  - left. pose proof (lookup_weaken _ _ _ _ Hl0 Hsub) as Hl'. congruence.
  - right. split; [done|].
    destruct (Hdom c) as [[l1 Hl1] | (i & Hi & Hname)]; [eauto|congruence|].
    exists i. split; [|done]. by apply (element_is_Some _ _ elts a).
Qed.

Lemma make_call_interns_names_only_witness :
  exists r s',
    make_call_ ex_f ex_dots ex_state = Return r s' /\
    forall c l,
      R_SymbolTable s' !! c = Some l ->
      R_SymbolTable ex_state !! c = Some l \/
      (R_SymbolTable ex_state !! c = None /\
       exists i, is_Some (element (heap ex_state) ex_dots i) /\
                 name_at (heap ex_state) (names_of (heap ex_state) ex_dots) i = Some c).
Proof.
  destruct (make_call_ ex_f ex_dots ex_state) as [r s'|msg s'] eqn:Hrun;
    [|vm_compute in Hrun; discriminate Hrun].
  exists r, s'. split; [reflexivity|].
  exact (make_call_interns_names_only ex_state ex_f ex_dots r s' Hrun).
Defined.

(** ** The cost in cells *)

(** X7: a returning run on [n] elements allocates two cells per element (a
    promise and a pairlist cell), one cell for the call, and one symbol for
    each name that it adds to the symbol table: between [2n + 1] and
    [3n + 1] cells in all. *)
Theorem make_call_allocation s fun_ dots r s' elts a :
  make_call_ fun_ dots s = Return r s' ->
  R.deref (heap s) dots = Some (GenericVec elts a) ->
  exists d,
    (d <= List.length elts)%nat /\
    size (R_SymbolTable s') = (size (R_SymbolTable s) + d)%nat /\
    List.length (heap s') =
      (List.length (heap s) + 2 * List.length elts + 1 + d)%nat.
Proof.
  intros Hrun Hd.
  apply make_call_accounts in Hrun as (elts' & a' & d & Hd' & Hle & Hcells & Hsize & _).
  rewrite Hd in Hd'. injection Hd' as <- <-. eauto.
Qed.

Lemma make_call_allocation_witness :
  exists r s',
    make_call_ ex_f ex_dots ex_state = Return r s' /\
    exists d,
      (d <= List.length [Loc 5; Loc 6])%nat /\
      size (R_SymbolTable s') = (size (R_SymbolTable ex_state) + d)%nat /\
      List.length (heap s') =
        (List.length (heap ex_state) + 2 * List.length [Loc 5; Loc 6] + 1 + d)%nat.
Proof.
  destruct (make_call_ ex_f ex_dots ex_state) as [r s'|msg s'] eqn:Hrun;
    [|vm_compute in Hrun; discriminate Hrun].
  exists r, s'. split; [reflexivity|].
  exact (make_call_allocation ex_state ex_f ex_dots r s' [Loc 5; Loc 6]
           [("names", Loc 9); ("class", Loc 11)] Hrun eq_refl).
Defined.

(** X8: when the name of every element is interned already, a returning run
    leaves the symbol table as it was and allocates exactly [2n + 1]
    cells. *)
Theorem make_call_known_names s fun_ dots r s' elts a :
  make_call_ fun_ dots s = Return r s' ->
  R.deref (heap s) dots = Some (GenericVec elts a) ->
  (forall i c, (i < List.length elts)%nat ->
               name_at (heap s) (names_of (heap s) dots) i = Some c ->
               is_Some (R_SymbolTable s !! c)) ->
  R_SymbolTable s' = R_SymbolTable s /\
  List.length (heap s') = (List.length (heap s) + 2 * List.length elts + 1)%nat.
Proof.
  intros Hrun Hd Hknown.
  apply make_call_accounts in Hrun
    as (elts' & a' & d & Hd' & Hle & Hcells & Hsize & Hsub & Hdom).
  rewrite Hd in Hd'. injection Hd' as <- <-.
  assert (R_SymbolTable s' = R_SymbolTable s) as Heq.
  { apply map_eq. intros c.
    destruct (R_SymbolTable s !! c) as [l|] eqn:Hl.
    - by apply (lookup_weaken _ _ _ _ Hl Hsub).
    - destruct (R_SymbolTable s' !! c) as [l'|] eqn:Hl'; [|done].
      destruct (Hdom c) as [[l1 Hl1] | (i & Hi & Hname)]; [eauto|congruence|].
      destruct (Hknown i c Hi Hname) as [l1 Hl1]. congruence. }
  split; [done|]. rewrite Heq in Hsize. lia.
Qed.

Lemma make_call_known_names_witness :
  exists r s',
    make_call_ ex_f3 ex_dots3 ex_state3 = Return r s' /\
    R_SymbolTable s' = R_SymbolTable ex_state3 /\
    List.length (heap s') =
      (List.length (heap ex_state3) + 2 * List.length [Loc 3; Loc 3] + 1)%nat.
Proof.
  destruct (make_call_ ex_f3 ex_dots3 ex_state3) as [r s'|msg s'] eqn:Hrun;
    [|vm_compute in Hrun; discriminate Hrun].
  exists r, s'. split; [reflexivity|].
  assert (forall i c, (i < List.length [Loc 3; Loc 3])%nat ->
            name_at (heap ex_state3) (names_of (heap ex_state3) ex_dots3) i = Some c ->
            is_Some (R_SymbolTable ex_state3 !! c)) as Hknown.
  { intros i c Hi Hc. simpl in Hi.
    destruct i as [|[|i]]; [| |lia];
      vm_compute in Hc; injection Hc as <-; vm_compute; eauto. }
  exact (make_call_known_names ex_state3 ex_f3 ex_dots3 r s' [Loc 3; Loc 3]
           [("names", Loc 5); ("class", Loc 7)] Hrun eq_refl Hknown).
Defined.

(** ** The protection stack during the loop *)

(** X9: when the loop has run over [k] elements, the protection stack is the
    stack before the loop with [k] pointers on top of it: the promises of
    the slots, in the order of the slots.  They are what [UNPROTECT(n)] pops
    afterwards.  The pairlist cells are not among them: the loop unprotects
    each cell of [args] as soon as it has protected it, and the head of the
    list it returns is none of the pointers it has pushed. *)
Theorem make_call_loop_protects_promises dots names k args s r s' :
  make_call_loop dots names k args s = Return r s' ->
  exists slots,
    pairlist_seg (heap s') args r slots /\
    List.length slots = k /\
    R_PPStack s' = slots.*1 ++ R_PPStack s /\
    Forall (fun p => exists lp e rho,
              p = Loc lp /\ heap s' !! lp = Some (Promise e rho None)) slots.*1 /\
    (k <> 0%nat -> r ∉ slots.*1).
Proof.
  intros Hloop.
  apply make_call_loop_accounts in Hloop
    as (slots & d & Hseg & Hlen & Hpp & Hproms & _).
  exists slots. split; [done|]. split; [done|]. split; [done|]. split.
  - eapply Forall_impl; [done|]. intros p (lp & e & rho & -> & _ & Hp). eauto.
  - intros Hk Hin.
    rewrite Forall_forall in Hproms.
    destruct (Hproms _ Hin) as (lp & e & rho & -> & _ & Hp).
    inversion Hseg as [|l car cdr tag slots' Hcell Hrest]; subst.
    + simpl in Hk. done.
    + congruence.
Qed.

Lemma make_call_loop_protects_promises_witness :
  exists r s',
    make_call_loop ex_dots (Loc 9) 2 R_NilValue ex_state = Return r s' /\
    exists slots,
      pairlist_seg (heap s') R_NilValue r slots /\
      List.length slots = 2%nat /\
      R_PPStack s' = slots.*1 ++ R_PPStack ex_state /\
      Forall (fun p => exists lp e rho,
                p = Loc lp /\ heap s' !! lp = Some (Promise e rho None)) slots.*1 /\
      (2%nat <> 0%nat -> r ∉ slots.*1).
Proof.
  destruct (make_call_loop ex_dots (Loc 9) 2 R_NilValue ex_state)
    as [r s'|msg s'] eqn:Hrun; [|vm_compute in Hrun; discriminate Hrun].
  exists r, s'. split; [reflexivity|].
  exact (make_call_loop_protects_promises ex_dots (Loc 9) 2 R_NilValue ex_state r s' Hrun).
Defined.

(** ** One call after another *)

(** X10: a returning run invalidates no input.  Whatever was a valid input
    before the run (the same [fun_] and [dots] or any other) is a valid
    input after it, so that [make_call_] returns on it again; the second
    call is a new object, not the first one. *)
Theorem make_call_keeps_inputs_valid s fun_ dots r s' fun2 dots2 :
  make_call_ fun_ dots s = Return r s' ->
  valid_input s fun2 dots2 ->
  valid_input s' fun2 dots2 /\
  exists r2 s2, make_call_ fun2 dots2 s' = Return r2 s2 /\ r2 <> r.
Proof.
  intros Hrun Hvalid.
  pose proof (make_call_returns _ _ _ _ _ Hrun) as Hgrows.
  apply make_call_Return_inv in Hrun
    as (_ & its & slots & _ & [(lr & args & -> & _ & Hcall & _) _ _ _ Hpp] & _).
  pose proof (valid_input_grows _ _ _ _ Hgrows Hpp Hvalid) as Hvalid'.
  split; [done|].
  destruct (make_call_runs _ _ _ Hvalid') as (r2 & s2 & Hrun2).
  exists r2, s2. split; [done|].
  apply make_call_Return_inv in Hrun2
    as (_ & its2 & slots2 & _ & [(lr2 & args2 & -> & Hge & _) _ _ _ _] & _).
  intros [= ->]. apply lookup_lt_Some in Hcall. lia.
Qed.

Lemma make_call_keeps_inputs_valid_witness :
  exists r s',
    make_call_ ex_f ex_dots ex_state = Return r s' /\
    valid_input ex_state ex_call ex_dots_empty /\
    valid_input s' ex_call ex_dots_empty /\
    exists r2 s2, make_call_ ex_call ex_dots_empty s' = Return r2 s2 /\ r2 <> r.
Proof.
  destruct (make_call_ ex_f ex_dots ex_state) as [r s'|msg s'] eqn:Hrun;
    [|vm_compute in Hrun; discriminate Hrun].
  assert (valid_input ex_state ex_call ex_dots_empty) as Hvalid.
  { apply (bool_decide_unpack _). vm_compute. exact I. }
  exists r, s'. split; [reflexivity|]. split; [exact Hvalid|].
  exact (make_call_keeps_inputs_valid ex_state ex_f ex_dots r s' ex_call ex_dots_empty
           Hrun Hvalid).
Defined.

(** ** Failed runs *)

(** X12: a failed run leaves no call behind.  Whatever the point of failure
    (a check, a malformed element, a missing name, a full protection
    stack), every [LANGSXP] cell of the heap after the run was in the heap
    before it, at the same address and with the same content: the promises
    and pairlist cells of the iterations that completed are the only
    objects built. *)
Theorem make_call_failure_builds_no_call s fun_ dots msg s' :
  make_call_ fun_ dots s = Error msg s' ->
  forall l car cdr tag,
    heap s' !! l = Some (ConsCell CT_LANG car cdr tag) ->
    heap s !! l = Some (ConsCell CT_LANG car cdr tag).
Proof.
  intros Hrun l car cdr tag H.
  destruct (steps_no_call _ _ (fails_by_make_call _ _ _ _ _ Hrun) _ _ _ _ H)
    as [tag0 H0].
  destruct (make_call_errors _ _ _ _ _ Hrun) as [_ [(new & Hheap & _) _ _ _]].
  rewrite Hheap in H. rewrite (lookup_app_l_Some _ _ _ _ H0) in H. congruence.
Qed.

Lemma make_call_failure_builds_no_call_witness :
  exists msg s',
    make_call_ ex_f ex_dots_bad_first ex_state = Error msg s' /\
    forall l car cdr tag,
      heap s' !! l = Some (ConsCell CT_LANG car cdr tag) ->
      heap ex_state !! l = Some (ConsCell CT_LANG car cdr tag).
Proof.
  destruct (make_call_ ex_f ex_dots_bad_first ex_state) as [r s'|msg s'] eqn:Hrun;
    [vm_compute in Hrun; discriminate Hrun|].
  exists msg, s'. split; [reflexivity|].
  exact (make_call_failure_builds_no_call ex_state ex_f ex_dots_bad_first msg s' Hrun).
Defined.

(** ** The order of the two reads of [lazy_to_promise] *)

(** X13: the order in which the two arguments of the call on line 10 are
    evaluated, which C leaves open, does not matter.  With the elements read
    left to right or right to left, [lazy_to_promise] gives the same result
    or the same error and leaves the same heap, symbol table and protection
    stack; the two runs differ only in their reads of [x] itself: the reads
    of any other object are the same. *)
Theorem lazy_to_promise_order_immaterial x s :
  let o := lazy_to_promise x s in
  let o' := lazy_to_promise_rtl x s in
  result_of o = result_of o' /\
  error_of o = error_of o' /\
  heap (final_state o) = heap (final_state o') /\
  R_SymbolTable (final_state o) = R_SymbolTable (final_state o') /\
  R_PPStack (final_state o) = R_PPStack (final_state o') /\
  forall d, d <> x ->
    dots_reads d (trace (final_state o)) = dots_reads d (trace (final_state o')).
Proof.
  destruct s as [h st pp sz tr]. intros o o'. subst o o'.
  assert (forall d tr1 tr2,
            d <> x ->
            Forall (fun c => exists i, c = Call_VECTOR_ELT x i \/
                                       forall y j, c <> Call_VECTOR_ELT y j) tr1 ->
            Forall (fun c => exists i, c = Call_VECTOR_ELT x i \/
                                       forall y j, c <> Call_VECTOR_ELT y j) tr2 ->
            dots_reads d (tr ++ tr1) = dots_reads d (tr ++ tr2)) as Hreads.
  { intros d tr1 tr2 Hne H1 H2. unfold dots_reads. rewrite !omap_app. f_equal.
    assert (forall l, Forall (fun c => exists i, c = Call_VECTOR_ELT x i \/
                                         forall y j, c <> Call_VECTOR_ELT y j) l ->
                      omap (fun c => match c with
                                     | Call_VECTOR_ELT y i =>
                                         if decide (y = d) then Some i else None
                                     | _ => None
                                     end) l = []) as Hnil.
    { induction 1 as [|c l [i [-> | Hc]] _ IH]; simpl; [done| |].
      - by rewrite decide_False.
      - destruct c as [| |y j| | | | | | |]; try done. by destruct (Hc y j). }
    by rewrite !Hnil. }
  unfold lazy_to_promise, lazy_to_promise_rtl, bind, R.VECTOR_ELT,
    R.Rf_mkPROMISE, R.alloc.
  simpl.
  destruct (R.deref h x) as [[| | | | | | |[|e [|rho rest]] a|]|] eqn:Hd;
    repeat (simpl; rewrite ?Hd);
    (repeat (split; [done|]); intros d Hne;
     rewrite <- ?(assoc_L (++)); apply Hreads; [done|..];
     repeat constructor; first [by exists 0; left | by exists 1; left
                               | by exists 0; right]).
Qed.

Lemma lazy_to_promise_order_immaterial_witness :
  let o := lazy_to_promise (Loc 5) ex_state in
  let o' := lazy_to_promise_rtl (Loc 5) ex_state in
  result_of o = result_of o' /\
  error_of o = error_of o' /\
  heap (final_state o) = heap (final_state o') /\
  R_SymbolTable (final_state o) = R_SymbolTable (final_state o') /\
  R_PPStack (final_state o) = R_PPStack (final_state o') /\
  forall d, d <> Loc 5 ->
    dots_reads d (trace (final_state o)) = dots_reads d (trace (final_state o')).
Proof. exact (lazy_to_promise_order_immaterial (Loc 5) ex_state). Defined.
